(** * Day-column event layout (src/utils/DayEventLayout.js)

    A shallow embedding of the layout core of the calendar's day view:
    the [Event] adapter with its lazily derived [_width], [width] and
    [xOffset], the render-order sorter [sortByRender], and the single-pass
    cluster builder of [getStyledEvents].

    Conventions of the embedding.
    - Instants ([startMs], [endMs]) and placement-space coordinates
      ([start], [end]) are integers; percentages and pixel amounts are
      exact rationals, so [100 / columns] and [* 1.7] are computed without
      rounding.
    - The adapters of one call live in an arena, the list
      [eventsInRenderOrder]; an object reference is the position of the
      adapter in that list, and a mutation of an adapter is an update of
      the arena at that position.
    - A JavaScript exception is the result [TypeError]; [Exhausted] is the
      result of a loop or getter that was given too little fuel (a getter
      in a cyclic arena, where the JavaScript getter would not return
      either). The last part of the file shows that [getStyledEvents]
      never returns it. *)

From Stdlib Require Import ZArith QArith Qminmax Lqa Sorting.Sorted Sorting.Permutation.
From Stdlib Require OrderedTypeEx.
From stdpp Require Import base option list gmap strings.

Local Open Scope Z_scope.

(** ** Results of fallible code *)

Inductive Res (A : Type) : Type :=
| Ok (a : A)
| TypeError
| Exhausted.
Arguments Ok {A} a.
Arguments TypeError {A}.
Arguments Exhausted {A}.

#[global] Instance Res_ret : MRet Res := fun A a => Ok a.
#[global] Instance Res_bind : MBind Res := fun A B f m =>
  match m with
  | Ok a => f a
  | TypeError => TypeError
  | Exhausted => Exhausted
  end.

(** Reading a property of [undefined] or [null] throws. *)
Definition deref {A} (o : option A) : Res A :=
  match o with
  | Some a => Ok a
  | None => TypeError
  end.

(** [xs.map(f)] for an [f] that may throw. *)
Fixpoint mapR {A B} (f : A → Res B) (l : list A) : Res (list B) :=
  match l with
  | [] => Ok []
  | x :: l' => y ← f x; ys ← mapR f l'; Ok (y :: ys)
  end.

(** A loop body run over a list of indices, threading the state. *)
Fixpoint foldR {S A} (f : S → A → Res S) (s : S) (l : list A) : Res S :=
  match l with
  | [] => Ok s
  | x :: l' => s' ← f s x; foldR f s' l'
  end.

(** ** Data model *)

(** [{ value, unit }] with unit ['%'], ['px'] or ['']. *)
Record Width : Type := mkWidth { value : Q; unit : string }.

(** The caller's event payload: what the accessors read ([dstart], [dend]),
    the optional fixed width and the optional grouping key. [ident] tells
    payloads apart. *)
Record Data : Type := mkData {
  ident : nat;
  dstart : Z;
  dend : Z;
  dwidth : option Width;
  deventType : option string
}.

(** The result of [slotMetrics.getRange]. *)
Record Placement : Type := mkPlacement {
  pstart : Z;
  pstartDate : Z;
  pend : Z;
  pendDate : Z;
  ptop : Q;
  pheight : Q
}.

(** class Event. The relationship fields [rows], [leaves], [container],
    [row] and [column] are [None] while undefined; references are arena
    positions. *)
Record Event : Type := mkEvent {
  start : Z;
  end_ : Z;
  startMs : Z;
  endMs : Z;
  top : Q;
  height : Q;
  data : Data;
  rows : option (list nat);
  leaves : option (list nat);
  container : option nat;
  row : option nat;
  column : option nat
}.

(** [new Event(data, { accessors, slotMetrics })]; the accessors are the
    projections [dstart] and [dend]. *)
Definition new_Event (slotMetrics : Z → Z → Placement) (d : Data) : Event :=
  let p := slotMetrics (dstart d) (dend d) in
  {| start := pstart p; end_ := pend p;
     startMs := pstartDate p; endMs := pendDate p;
     top := ptop p; height := pheight p; data := d;
     rows := None; leaves := None; container := None; row := None;
     column := None |}.

(** [get eventType]: the payload's key when truthy (the empty string is
    falsy), else [null]. *)
Definition eventType (e : Event) : option string :=
  match deventType (data e) with
  | Some s => if decide (s = EmptyString) then None else Some s
  | None => None
  end.

Definition set_rows (rs : list nat) (e : Event) : Event :=
  {| start := start e; end_ := end_ e; startMs := startMs e; endMs := endMs e;
     top := top e; height := height e; data := data e;
     rows := Some rs; leaves := leaves e; container := container e;
     row := row e; column := column e |}.

Definition set_leaves (ls : list nat) (e : Event) : Event :=
  {| start := start e; end_ := end_ e; startMs := startMs e; endMs := endMs e;
     top := top e; height := height e; data := data e;
     rows := rows e; leaves := Some ls; container := container e;
     row := row e; column := column e |}.

Definition set_container (c : nat) (e : Event) : Event :=
  {| start := start e; end_ := end_ e; startMs := startMs e; endMs := endMs e;
     top := top e; height := height e; data := data e;
     rows := rows e; leaves := leaves e; container := Some c;
     row := row e; column := column e |}.

Definition set_row (r : nat) (e : Event) : Event :=
  {| start := start e; end_ := end_ e; startMs := startMs e; endMs := endMs e;
     top := top e; height := height e; data := data e;
     rows := rows e; leaves := leaves e; container := container e;
     row := Some r; column := column e |}.

Definition set_column (c : nat) (e : Event) : Event :=
  {| start := start e; end_ := end_ e; startMs := startMs e; endMs := endMs e;
     top := top e; height := height e; data := data e;
     rows := rows e; leaves := leaves e; container := container e;
     row := row e; column := Some c |}.

(** ** lodash [orderBy]

    [orderBy] belongs to lodash, not to this repository. It compares two
    elements criterion by criterion with [compareAscending], negates the
    first non-zero result when that criterion's order is ['desc'], and
    falls back on the original index, so the sort is stable. In
    [compareAscending] a [null] is greater than every defined value and
    strings compare by code unit. *)

Definition compareAscending_key (a b : option string) : comparison :=
  match a, b with
  | None, None => Eq
  | None, Some _ => Gt
  | Some _, None => Lt
  | Some s, Some t => String.compare s t
  end.

(** [compareMultiple] for the criteria [['eventType', 'startMs',
    e => -e.endMs]] and the orders [['desc', 'asc', 'asc']]. *)
Definition compareMultiple (a b : Event) : comparison :=
  match CompOpp (compareAscending_key (eventType a) (eventType b)) with
  | Eq =>
      match Z.compare (startMs a) (startMs b) with
      | Eq => Z.compare (- endMs a) (- endMs b)
      | c => c
      end
  | c => c
  end.

(** [x] goes in front of the first element that is not smaller. *)
Fixpoint insert_sorted {A} (cmp : A → A → comparison) (x : A) (l : list A) : list A :=
  match l with
  | [] => [x]
  | y :: l' =>
      match cmp y x with
      | Lt => y :: insert_sorted cmp x l'
      | _ => x :: y :: l'
      end
  end.

Definition orderBy {A} (cmp : A → A → comparison) (l : list A) : list A :=
  foldr (insert_sorted cmp) [] l.

(** ** sortByRender *)

(** The inner [for] loop: the position of the first remaining event that
    is not inside [event] any more, unless it is grouped. *)
Fixpoint next_group (event : Event) (rest : list Event) (i : nat) : option nat :=
  match rest with
  | [] => None
  | test :: rest' =>
      if bool_decide (endMs event > startMs test) then next_group event rest' (S i)
      else match eventType test with
           | Some _ => None
           | None => Some i
           end
  end.

(** The [while] loop. Every turn shifts one event, and may splice a second
    one; [fuel] bounds the number of turns. *)
Fixpoint reorder (fuel : nat) (sortedByTime : list Event) : list Event :=
  match fuel with
  | O => []
  | S fuel' =>
      match sortedByTime with
      | [] => []
      | event :: rest =>
          match eventType event with
          | Some _ => event :: reorder fuel' rest
          | None =>
              match next_group event rest 0 with
              | Some (S i) =>
                  match rest !! S i with
                  | Some moved => event :: moved :: reorder fuel' (delete (S i) rest)
                  | None => event :: reorder fuel' rest
                  end
              | _ => event :: reorder fuel' rest
              end
          end
      end
  end.

Definition sortByRender (events : list Event) : list Event :=
  let sortedByTime := orderBy compareMultiple events in
  reorder (length sortedByTime) sortedByTime.

(** ** The derived geometry of an adapter *)

Abbreviation arena := (list Event).

(** [leaves.indexOf(this)], [-1] when absent. *)
Fixpoint indexOf (i : nat) (l : list nat) : Z :=
  match l with
  | [] => -1
  | x :: l' =>
      if decide (x = i) then 0
      else let k := indexOf i l' in if decide (k = -1) then -1 else k + 1
  end.

(** The divisor of a container's width:
    [rows.reduce((max, row) => Math.max(max, row.leaves.length + 1), 0) + 1]. *)
Definition columns (st : arena) (rs : list nat) : Res nat :=
  m ← foldR (λ max r,
        rowev ← deref (st !! r);
        ls ← deref (leaves rowev);
        Ok (Nat.max max (length ls + 1))) 0%nat rs;
  Ok (m + 1)%nat.

(** The divisor of a row's width: [leaves.length + 1]. *)
Definition row_divisor (ls : list nat) : nat := (length ls + 1)%nat.

Definition Qnat (n : nat) : Q := inject_Z (Z.of_nat n).

(** [get _width]: the event's width without any overlap. *)
Fixpoint _width_fuel (fuel : nat) (st : arena) (i : nat) : Res Width :=
  match fuel with
  | O => Exhausted
  | S fuel' =>
      this ← deref (st !! i);
      match dwidth (data this) with
      | Some w => Ok w
      | None =>
          match rows this with
          | Some rs =>
              cols ← columns st rs;
              Ok (mkWidth (100 / Qnat cols) "%")
          | None =>
              c ← deref (container this);
              cw ← _width_fuel fuel' st c;
              let availableWidth := (100 - value cw)%Q in
              match leaves this with
              | Some ls => Ok (mkWidth (availableWidth / Qnat (row_divisor ls)) "%")
              | None => r ← deref (row this); _width_fuel fuel' st r
              end
          end
      end
  end.

Definition _width (st : arena) (i : nat) : Res Width :=
  _width_fuel (length st) st i.

Definition overlap_of (noOverlap : Width) : Width :=
  mkWidth (Qmin 100 (value noOverlap * 1.7)) (unit noOverlap).

(** [get width]: the calculated width, possibly with extra width added
    for the overlapping effect. *)
Definition width (st : arena) (i : nat) : Res Width :=
  this ← deref (st !! i);
  noOverlap ← _width st i;
  if decide (unit noOverlap ≠ "%") then Ok noOverlap
  else
    let overlap := overlap_of noOverlap in
    match rows this with
    | Some _ => Ok overlap
    | None =>
        match leaves this with
        | Some ls => Ok (if decide (0 < length ls)%nat then overlap else noOverlap)
        | None =>
            r ← deref (row this);
            rowev ← deref (st !! r);
            ls ← deref (leaves rowev);
            let index := indexOf i ls in
            Ok (if decide (index = Z.of_nat (length ls) - 1) then noOverlap else overlap)
        end
    end.

Definition padding : Q := 2.

(** [get xOffset]. *)
Fixpoint xOffset_fuel (fuel : nat) (st : arena) (i : nat) : Res Width :=
  match fuel with
  | O => Exhausted
  | S fuel' =>
      this ← deref (st !! i);
      match rows this with
      | Some _ => Ok (mkWidth 0 "")
      | None =>
          match column this with
          | Some col =>
              w ← _width st i;
              Ok (mkWidth ((value w + padding) * Qnat col) (unit w))
          | None =>
              match leaves this with
              | Some _ =>
                  c ← deref (container this);
                  containerWidth ← _width st c;
                  if decide (unit containerWidth = "px")
                  then Ok (mkWidth (value containerWidth + padding) (unit containerWidth))
                  else Ok containerWidth
              | None =>
                  r ← deref (row this);
                  rowev ← deref (st !! r);
                  rx ← xOffset_fuel fuel' st r;
                  rw ← _width st r;
                  let offset :=
                    if decide (unit rw = "px") then (value rx + padding)%Q else value rx in
                  ls ← deref (leaves rowev);
                  let index := indexOf i ls + 1 in
                  Ok (mkWidth (offset + inject_Z index * value rw) (unit rw))
              end
          end
      end
  end.

Definition xOffset (st : arena) (i : nat) : Res Width :=
  xOffset_fuel (length st) st i.

(** ** The cluster builder *)

(** Return true if event a and b is considered to be on the same row. *)
Definition onSameRow (a b : Event) (minimumStartDifference : Z) : bool :=
  bool_decide (Z.abs (start b - start a) < minimumStartDifference)
  || (bool_decide (start b > start a) && bool_decide (start b < end_ a)).

(** A named group matrix: slot rows of three slots, each [null] or an
    adapter. *)
Abbreviation slot_row := (list (option nat)).
Abbreviation matrix := (list (list (option nat))).

(** [matrix[r][c]], [None] when the slot is [null]. *)
Definition slot (sr : slot_row) (c : nat) : option nat := mjoin (sr !! c).

(** [matrix[r][c] = event]. *)
Definition set_slot (m : matrix) (r c i : nat) : matrix :=
  alter (λ sr, <[c := Some i]> sr) r m.

Record State : Type := mkState {
  events_of : arena;
  containerEvents : list nat;
  namedContainerEvents : gmap string matrix
}.

(** What the loop over the three columns of slot row [r] leaves behind:
    either it broke out with the event placed (row 0), or it ran to the
    end with [bestCol] ([None] for -1) and [bestGap]. *)
Inductive Scan : Type :=
| Placed (c : nat)
| Best (bestCol : option nat) (bestGap : Z).

Fixpoint scan_slots (st : arena) (event : Event) (m : matrix) (r : nat)
    (cs : list nat) (bestCol : option nat) (bestGap : Z) : Res Scan :=
  match cs with
  | [] => Ok (Best bestCol bestGap)
  | c :: cs' =>
      sr ← deref (m !! r);
      match slot sr c with
      | Some _ => scan_slots st event m r cs' bestCol bestGap
      | None =>
          if decide (r = 0%nat) then Ok (Placed c)
          else
            prev ← deref (m !! (r - 1)%nat);
            above ← deref (slot prev c);
            aboveev ← deref (st !! above);
            let gap := start event - end_ aboveev in
            if decide (gap > bestGap)
            then scan_slots st event m r cs' (Some c) gap
            else scan_slots st event m r cs' bestCol bestGap
      end
  end.

(** The loop [for (let r = 0; r <= matrix.length; r++)]: the matrix after
    it and the column given to the event, if any. *)
Fixpoint place_rows (fuel : nat) (st : arena) (event : Event) (i : nat)
    (m : matrix) (r : nat) : Res (matrix * option nat) :=
  match fuel with
  | O => Exhausted
  | S fuel' =>
      if decide (r ≤ length m)%nat then
        let m1 := if decide (r = length m) then m ++ [[None; None; None]] else m in
        sc ← scan_slots st event m1 r [0; 1; 2]%nat None (-99999);
        match sc with
        | Placed c => Ok (set_slot m1 r c i, Some c)
        | Best (Some c) _ => Ok (set_slot m1 r c i, Some c)
        | Best None _ => place_rows fuel' st event i m1 (S r)
        end
      else Ok (m, None)
  end.

(** [containerEvents.find(c => c.end > event.start ||
    Math.abs(event.start - c.start) < minimumStartDifference)]. *)
Fixpoint find_container (st : arena) (msd : Z) (event : Event) (cs : list nat)
    : Res (option nat) :=
  match cs with
  | [] => Ok None
  | c :: cs' =>
      cev ← deref (st !! c);
      if bool_decide (end_ cev > start event)
         || bool_decide (Z.abs (start event - start cev) < msd)
      then Ok (Some c)
      else find_container st msd event cs'
  end.

(** The search for a row "from behind"; [rs] is [container.rows]
    reversed. *)
Fixpoint find_row (st : arena) (msd : Z) (event : Event) (rs : list nat)
    : Res (option nat) :=
  match rs with
  | [] => Ok None
  | r :: rs' =>
      rowev ← deref (st !! r);
      if onSameRow rowev event msd then Ok (Some r)
      else find_row st msd event rs'
  end.

Definition upd (f : Event → Event) (i : nat) (st : arena) : arena :=
  alter f i st.

(** One turn of the loop over [eventsInRenderOrder]. *)
Definition step (msd : Z) (s : State) (i : nat) : Res State :=
  let st := events_of s in
  event ← deref (st !! i);
  match eventType event with
  | Some key =>
      match namedContainerEvents s !! key with
      | None =>
          Ok (mkState (upd (set_column 0) i st) (containerEvents s)
                (<[key := [[Some i; None; None]]]> (namedContainerEvents s)))
      | Some m =>
          '(m', col) ← place_rows (length m + 2) st event i m 0;
          let st' := match col with
                     | Some c => upd (set_column c) i st
                     | None => st
                     end in
          Ok (mkState st' (containerEvents s) (<[key := m']> (namedContainerEvents s)))
      end
  | None =>
      found ← find_container st msd event (containerEvents s);
      match found with
      | None =>
          Ok (mkState (upd (set_rows []) i st) (containerEvents s ++ [i])
                (namedContainerEvents s))
      | Some c =>
          let st1 := upd (set_container c) i st in
          cev ← deref (st1 !! c);
          rs ← deref (rows cev);
          found_row ← find_row st1 msd event (reverse rs);
          match found_row with
          | Some r =>
              rowev ← deref (st1 !! r);
              ls ← deref (leaves rowev);
              Ok (mkState (upd (set_row r) i (upd (set_leaves (ls ++ [i])) r st1))
                    (containerEvents s) (namedContainerEvents s))
          | None =>
              Ok (mkState (upd (set_rows (rs ++ [i])) c (upd (set_leaves []) i st1))
                    (containerEvents s) (namedContainerEvents s))
          end
      end
  end.

Definition cluster (msd : Z) (eventsInRenderOrder : list Event) : Res State :=
  foldR (step msd) (mkState eventsInRenderOrder [] ∅)
    (seq 0 (length eventsInRenderOrder)).

(** ** getStyledEvents *)

Record Style : Type := mkStyle {
  style_top : Q;
  style_height : Q;
  style_width : Width;
  style_xOffset : Width
}.

Record Styled : Type := mkStyled { event : Data; style : Style }.

Definition styled (st : arena) (i : nat) : Res Styled :=
  ev ← deref (st !! i);
  w ← width st i;
  x ← xOffset st i;
  Ok (mkStyled (data ev) (mkStyle (top ev) (height ev) w x)).

Definition getStyledEvents (events : list Data) (minimumStartDifference : Z)
    (slotMetrics : Z → Z → Placement) : Res (list Styled) :=
  let proxies := map (new_Event slotMetrics) events in
  let eventsInRenderOrder := sortByRender proxies in
  s ← cluster minimumStartDifference eventsInRenderOrder;
  mapR (styled (events_of s)) (seq 0 (length eventsInRenderOrder)).

(** * Specification-level definitions *)

(** ** Orders on adapters *)

(** The order [orderBy] sorts by, spelled out: ungrouped events first,
    then grouped events by descending key; then ascending start instant;
    then descending end instant. *)
Definition key_before (a b : option string) : Prop :=
  match a, b with
  | None, Some _ => True
  | Some s, Some t => String.compare t s = Lt
  | _, _ => False
  end.

Inductive render_precedes (a b : Event) : Prop :=
| precedes_key : key_before (eventType a) (eventType b) → render_precedes a b
| precedes_start :
    eventType a = eventType b → startMs a < startMs b → render_precedes a b
| precedes_end :
    eventType a = eventType b → startMs a = startMs b → endMs b ≤ endMs a →
    render_precedes a b.

(** The order as the specification words it: presence of a grouping key
    first (grouped before ungrouped), then ascending start instant, then
    descending end instant. *)
Definition has_key (e : Event) : bool :=
  match eventType e with
  | Some _ => true
  | None => false
  end.

Inductive spec_precedes (a b : Event) : Prop :=
| spec_key : has_key a = true → has_key b = false → spec_precedes a b
| spec_start : has_key a = has_key b → startMs a < startMs b → spec_precedes a b
| spec_end :
    has_key a = has_key b → startMs a = startMs b → endMs b ≤ endMs a →
    spec_precedes a b.

(** Two adapters that [orderBy] cannot tell apart. *)
Definition same_sort_keys (a b : Event) : Prop :=
  eventType a = eventType b ∧ startMs a = startMs b ∧ endMs a = endMs b.

#[global] Instance same_sort_keys_dec a b : Decision (same_sort_keys a b).
Proof. unfold same_sort_keys. apply _. Defined.

(** Two adapters with identical start and end instants. *)
Definition same_instants (a b : Event) : Prop :=
  startMs a = startMs b ∧ endMs a = endMs b.

#[global] Instance same_instants_dec a b : Decision (same_instants a b).
Proof. unfold same_instants. apply _. Defined.

(** ** Example inputs *)

(** A coordinate mapping that places an event at its own instants. *)
Definition identity_metrics (s e : Z) : Placement := mkPlacement s s e e 0 0.

Definition plain (i : nat) (s e : Z) : Data := mkData i s e None None.

Definition keyed (i : nat) (s e : Z) (k : string) (w : Width) : Data :=
  mkData i s e (Some w) (Some k).

Definition two_keys : list Data :=
  [keyed 0 0 10 "a" (mkWidth 30 "px"); keyed 1 5 10 "b" (mkWidth 30 "px")].

Definition twins : list Data := [plain 0 0 10; plain 1 0 10].

Definition twins_two_keys : list Data :=
  [keyed 0 0 10 "a" (mkWidth 30 "px"); keyed 1 0 10 "b" (mkWidth 30 "px")].

(** ** Lawful three-way comparisons *)

Record lawful {K : Type} (c : K → K → comparison) : Prop := mkLawful {
  law_eq : ∀ a b, c a b = Eq ↔ a = b;
  law_antisym : ∀ a b, c a b = CompOpp (c b a);
  law_trans : ∀ a b d, c a b = Lt → c b d = Lt → c a d = Lt
}.

(** The first criterion that tells two elements apart decides. *)
Definition lex {K1 K2 : Type} (c1 : K1 → K1 → comparison) (c2 : K2 → K2 → comparison)
    (a b : K1 * K2) : comparison :=
  match c1 a.1 b.1 with
  | Eq => c2 a.2 b.2
  | c => c
  end.

Definition descending {K : Type} (c : K → K → comparison) (a b : K) : comparison :=
  CompOpp (c a b).

(** The three criteria of the render order. *)
Definition sort_key (e : Event) : option string * (Z * Z) :=
  (eventType e, (startMs e, endMs e)).

Definition compare_keys : option string * (Z * Z) → option string * (Z * Z) → comparison :=
  lex (descending compareAscending_key)
      (lex Z.compare (λ a b, Z.compare (- a) (- b))).

(** ** Arenas *)

(** An arena whose adapters are all found, unchanged, in a second one. *)
Definition sub_arena (st st' : arena) : Prop :=
  ∀ j e, st !! j = Some e → st' !! j = Some e.

(** Events that are alone in their list: an ungrouped one with a fixed
    width, and a grouped one without. *)
Definition lone_fixed : Data := mkData 0 0 10 (Some (mkWidth 30 "%")) None.

Definition lone_keyed : Data := mkData 0 0 10 None (Some "k").

(** A one-adapter arena: a grouped event with a fixed pixel width. *)
Definition fixed_px_arena : arena :=
  [new_Event identity_metrics (keyed 0 0 10 "k" (mkWidth 30 "px"))].

(** ** The cluster tree *)

(** An adapter the cluster builder has not reached yet. *)
Definition fresh (e : Event) : Prop :=
  rows e = None ∧ leaves e = None ∧ container e = None ∧ row e = None ∧
  column e = None.

(** The part of an adapter the cluster builder never writes. *)
Definition core (e : Event) : Event :=
  {| start := start e; end_ := end_ e; startMs := startMs e; endMs := endMs e;
     top := top e; height := height e; data := data e;
     rows := None; leaves := None; container := None; row := None;
     column := None |}.

Definition is_container (st : arena) (c : nat) : Prop :=
  ∃ e rs, st !! c = Some e ∧ rows e = Some rs.

Definition is_row_of (st : arena) (c r : nat) : Prop :=
  ∃ e ls, st !! r = Some e ∧ rows e = None ∧ leaves e = Some ls ∧
          container e = Some c ∧ row e = None ∧ column e = None.

Definition is_leaf_of (st : arena) (c r l : nat) : Prop :=
  ∃ e, st !! l = Some e ∧ rows e = None ∧ leaves e = None ∧
       container e = Some c ∧ row e = Some r ∧ column e = None.

Definition has_leaf (st : arena) (r l : nat) : Prop :=
  ∃ e ls, st !! r = Some e ∧ leaves e = Some ls ∧ l ∈ ls.

(** Every adapter is exactly one of: container, row, leaf, or outside the
    tree (grouped, or not reached yet); and the references between
    containers, rows and leaves agree in both directions. *)
Definition node_ok (st : arena) (i : nat) (e : Event) : Prop :=
  match rows e with
  | Some rs =>
      leaves e = None ∧ container e = None ∧ row e = None ∧ column e = None ∧
      Forall (is_row_of st i) rs
  | None =>
      match leaves e with
      | Some ls =>
          ∃ c, container e = Some c ∧ row e = None ∧ column e = None ∧
               is_container st c ∧ NoDup ls ∧ Forall (is_leaf_of st c i) ls
      | None =>
          match row e with
          | Some r =>
              ∃ c, container e = Some c ∧ column e = None ∧
                   is_row_of st c r ∧ has_leaf st r i
          | None => container e = None
          end
      end
  end.

(** A growable sequence that only ever grows at its end. *)
Definition opt_grow (o o' : option (list nat)) : Prop :=
  match o, o' with
  | None, None => True
  | Some l, Some l' => ∃ t, l' = l ++ t
  | _, _ => False
  end.

Definition grows (e e' : Event) : Prop :=
  core e' = core e ∧ container e' = container e ∧ row e' = row e ∧
  column e' = column e ∧ opt_grow (rows e) (rows e') ∧
  opt_grow (leaves e) (leaves e').

(** From one turn of the loop to the next, an adapter that has a role
    keeps it. *)
Definition ext (st st' : arena) : Prop :=
  ∀ j e, st !! j = Some e → ¬ fresh e → ∃ e', st' !! j = Some e' ∧ grows e e'.

(** The tree part of the loop invariant, before the turn for position
    [k]. *)
Record tree_inv (k : nat) (s : State) : Prop := mkTreeInv {
  inv_nodes : ∀ i e, events_of s !! i = Some e → node_ok (events_of s) i e;
  inv_fresh : ∀ i e, events_of s !! i = Some e → (k ≤ i)%nat → fresh e;
  inv_containers : Forall (is_container (events_of s)) (containerEvents s)
}.

(** ** The widths the tree determines *)

Definition container_width (e : Event) (cols : nat) : Width :=
  match dwidth (data e) with
  | Some w => w
  | None => mkWidth (100 / Qnat cols) "%"
  end.

Definition row_width (e : Event) (cw : Width) (ls : list nat) : Width :=
  match dwidth (data e) with
  | Some w => w
  | None => mkWidth ((100 - value cw) / Qnat (row_divisor ls)) "%"
  end.

Definition leaf_width (e : Event) (rw : Width) : Width :=
  match dwidth (data e) with
  | Some w => w
  | None => rw
  end.

Definition row_offset (cw : Width) : Width :=
  if decide (unit cw = "px") then mkWidth (value cw + padding) (unit cw) else cw.

Definition leaf_offset (rx rw : Width) (index : Z) : Width :=
  mkWidth ((if decide (unit rw = "px") then (value rx + padding)%Q else value rx)
           + inject_Z (index + 1) * value rw) (unit rw).

(** Three overlapping ungrouped events: a container, its row, and the
    row's leaf. *)
Definition stacked : list Data := [plain 0 0 10; plain 1 2 10; plain 2 3 10].

Definition stacked_state : State :=
  match cluster 1 (sortByRender (map (new_Event identity_metrics) stacked)) with
  | Ok s => s
  | _ => mkState [] [] ∅
  end.

(** A container spanning 0 to 100 with two rows; the first row has a leaf
    that lasts beyond the start of the second row. *)
Definition two_rows : list Data :=
  [plain 0 0 100; plain 1 10 20; plain 2 15 50; plain 3 30 40].

(** ** Sums and spans *)

(** The sum of the effective widths of the adapters at [l]. *)
Definition sum_widths (st : arena) (l : list nat) : Res Q :=
  foldR (λ acc i, w ← _width st i; Ok (acc + value w)%Q) 0%Q l.

(** A row's effective width plus those of its leaves. *)
Definition row_width_sum (st : arena) (r : nat) : Res Q :=
  rowev ← deref (st !! r);
  ls ← deref (leaves rowev);
  sum_widths st (r :: ls).

(** Two horizontal spans [(x, x + w)] that share more than a border. *)
Definition spans_overlap (xa wa xb wb : Q) : Prop :=
  (xa < xb + wb)%Q ∧ (xb < xa + wa)%Q.

(** Two placement-space ranges that share more than a border. *)
Definition ranges_overlap (a b : Event) : Prop :=
  start a < end_ b ∧ start b < end_ a.

(** An ungrouped event with a fixed width that becomes a row. *)
Definition fixed_row : list Data :=
  [plain 0 0 10; mkData 1 2 10 (Some (mkWidth 90 "%")) None].

(** Inputs on which appending a later event changes an earlier one. *)
Definition short_event : list Data := [plain 0 0 10].

Definition interleaved : list Data :=
  [plain 0 0 5; plain 1 4 20; plain 2 5 6; plain 3 6 8].

(** The appended event starts, in instants, at or after the end of every
    event of the list. *)
Definition starts_after_all (slotMetrics : Z → Z → Placement)
    (events : list Data) (e : Data) : Prop :=
  Forall (λ d, endMs (new_Event slotMetrics d) ≤ startMs (new_Event slotMetrics e))
         events.

(** ** Named group matrices *)

(** A slot row with no empty slot. *)
Definition full (sr : slot_row) : Prop :=
  ∀ c, (c < 3)%nat → is_Some (slot sr c).

(** The adapters a slot row holds. *)
Definition occupants (sr : slot_row) : list nat := omap id sr.

(** Every slot row has three slots, every row but the last is full, and
    the slots hold adapters of the arena (of length [n]). *)
Definition matrix_ok (n : nat) (m : matrix) : Prop :=
  m ≠ [] ∧
  Forall (λ sr, length sr = 3%nat) m ∧
  (∀ r sr, m !! r = Some sr → (S r < length m)%nat → full sr) ∧
  (∀ r sr c j, m !! r = Some sr → slot sr c = Some j → (j < n)%nat).

(** The adapter at [i] sits in column [c] of the matrix of [key]. *)
Definition placed_in (s : State) (key : string) (i c : nat) : Prop :=
  (c < 3)%nat ∧
  ∃ m r sr, namedContainerEvents s !! key = Some m ∧ m !! r = Some sr ∧
            slot sr c = Some i.

(** The matrix part of the loop invariant, before the turn for position
    [k]. *)
Record named_inv (k : nat) (s : State) : Prop := mkNamedInv {
  inv_matrices : ∀ key m, namedContainerEvents s !! key = Some m →
                          matrix_ok (length (events_of s)) m;
  inv_placed : ∀ i e key, events_of s !! i = Some e → (i < k)%nat →
                          eventType e = Some key →
                          ∃ c, column e = Some c ∧ placed_in s key i c
}.

(** No gap between a start and an end reaches the sentinel [-99999] that
    the column search starts from. *)
Definition gaps_ok (st : arena) : Prop :=
  ∀ i j a b, st !! i = Some a → st !! j = Some b → start a - end_ b > -99999.

(** Two arenas whose adapters carry the same payloads and columns. *)
Definition same_tag (st st' : arena) : Prop :=
  length st' = length st ∧
  ∀ i e', st' !! i = Some e' →
          ∃ e, st !! i = Some e ∧ data e' = data e ∧ column e' = column e.

(** A setter of the tree's relationship fields. *)
Definition role_only (f : Event → Event) : Prop :=
  ∀ e, data (f e) = data e ∧ column (f e) = column e.

(** Four grouped events of one key, each with the fixed width [w]. *)
Definition four_keyed (w : Width) : list Data :=
  [keyed 0 0 10 "k" w; keyed 1 0 10 "k" w; keyed 2 0 10 "k" w; keyed 3 0 10 "k" w].

(** Four grouped events of one key that end 100000 placement units after
    they start. *)
Definition far_apart : list Data :=
  [keyed 0 0 100000 "k" (mkWidth 30 "px"); keyed 1 0 100000 "k" (mkWidth 30 "px");
   keyed 2 0 100000 "k" (mkWidth 30 "px"); keyed 3 0 100000 "k" (mkWidth 30 "px")].

(** What makes an appended event [e] harmless for the list it is appended
    to. Ungrouped: in placement space it starts at or after the end of
    every event of the list and at least [msd] away from every start.
    Grouped: it carries a fixed width whose unit is not '%', and no gap
    of the extended list reaches the sentinel. *)
Definition appended_apart (msd : Z) (slotMetrics : Z → Z → Placement)
    (events : list Data) (e : Data) : Prop :=
  match eventType (new_Event slotMetrics e) with
  | None =>
      ∀ d, d ∈ events →
           end_ (new_Event slotMetrics d) ≤ start (new_Event slotMetrics e) ∧
           msd ≤ Z.abs (start (new_Event slotMetrics e) - start (new_Event slotMetrics d))
  | Some _ =>
      (∃ w, dwidth e = Some w ∧ unit w ≠ "%") ∧
      ∀ d d', d ∈ events ++ [e] → d' ∈ events ++ [e] →
              start (new_Event slotMetrics d) - end_ (new_Event slotMetrics d') > -99999
  end.

(** A grouped event without a fixed width. *)
Definition bare_keyed : Data := mkData 1 20 30 None (Some "k").

(** ** Further properties of the render order and of the loop *)

(** Once a grouped adapter has appeared, only grouped ones follow. *)
Definition grouped_stays (a b : Event) : Prop :=
  is_Some (eventType a) → is_Some (eventType b).

(** What one turn of the loop, for position [k], does to the arena:
    nothing is added or removed, the parts the loop never writes stay,
    and an adapter other than the one at [k] keeps its links and its
    column, its [rows] and [leaves] growing at the end at most. *)
Definition effect (k : nat) (st st' : arena) : Prop :=
  length st' = length st ∧
  ∀ i e', st' !! i = Some e' →
          ∃ e, st !! i = Some e ∧ core e' = core e ∧ (i ≠ k → grows e e').

(** The roles of the cluster tree, as the getters tell them apart: an
    adapter with [rows] is a container, one with [leaves] is a row, one
    with a [row] is a leaf. *)
Inductive Role : Type := Container | Row | Leaf.

Definition roles (e : Event) : list Role :=
  match rows e with Some _ => [Container] | None => [] end ++
  match leaves e with Some _ => [Row] | None => [] end ++
  match row e with Some _ => [Leaf] | None => [] end.

(** An input with events of every kind: two ungrouped ones that overlap,
    a third one inside the second, and two grouped ones. *)
Definition mixed : list Data :=
  [plain 0 0 10; plain 1 2 10; plain 2 3 10;
   keyed 3 0 10 "k" (mkWidth 30 "px"); keyed 4 5 10 "k" (mkWidth 30 "px")].

(** Two adapters, the second later in render order, that the loop keeps
    apart: the second starts at or after the end of the first, and at
    least [msd] after its start. *)
Definition apart (msd : Z) (a b : Event) : Prop :=
  end_ a ≤ start b ∧ msd ≤ Z.abs (start b - start a).

Definition in_sequence : list Data := [plain 0 0 5; plain 1 5 10; plain 2 10 15].

(** [event.start - matrix[r - 1][c].end]: the gap between the event and
    what stands above column [c], in the slot row [prev]. *)
Definition gap_above (st : arena) (event : Event) (prev : slot_row) (c : nat)
    : option Z :=
  above ← slot prev c;
  aboveev ← st !! above;
  Some (start event - end_ aboveev).

(** Three grouped events that fill a slot row, ending at 10, 20 and 5,
    and a fourth that starts at 30. *)
Definition three_ends : list Data :=
  [keyed 0 0 10 "k" (mkWidth 30 "px"); keyed 1 0 20 "k" (mkWidth 30 "px");
   keyed 2 0 5 "k" (mkWidth 30 "px"); keyed 3 30 40 "k" (mkWidth 30 "px")].

Definition second_row : matrix :=
  [[Some 0%nat; Some 1%nat; Some 2%nat]; [None; None; None]].

(** The test by which an event joins a container: it starts before the
    container ends, or within [msd] of the container's start. *)
Definition joins (msd : Z) (c e : Event) : Prop :=
  end_ c > start e ∨ Z.abs (start e - start c) < msd.

(** * The render-order sorter *)

(** ** A stable insertion sort, for any lawful comparison *)

Section Sorting.
Context {A : Type} (cmp : A → A → comparison).
Hypothesis cmp_antisym : ∀ a b, cmp a b = CompOpp (cmp b a).
Hypothesis cmp_le_trans : ∀ a b c, cmp a b ≠ Gt → cmp b c ≠ Gt → cmp a c ≠ Gt.

Lemma insert_sorted_perm x l : Permutation (x :: l) (insert_sorted cmp x l).
Proof.
  induction l as [|y l IH]; simpl; [done|].
  destruct (cmp y x); try done.
  rewrite perm_swap. by constructor.
Qed.

Lemma orderBy_perm l : Permutation l (orderBy cmp l).
Proof.
  induction l as [|x l IH]; simpl; [done|].
  rewrite <- insert_sorted_perm. by constructor.
Qed.

Lemma insert_sorted_Forall (P : A → Prop) x l :
  P x → Forall P l → Forall P (insert_sorted cmp x l).
Proof.
  intros Hx Hl. eapply Permutation_Forall; [apply insert_sorted_perm|].
  by constructor.
Qed.

Lemma insert_sorted_front x y l :
  cmp y x ≠ Lt →
  StronglySorted (λ a b, cmp a b ≠ Gt) (y :: l) →
  StronglySorted (λ a b, cmp a b ≠ Gt) (x :: y :: l).
Proof.
  intros Hc Hs. constructor; [done|].
  assert (cmp x y ≠ Gt) as Hxy.
  { rewrite cmp_antisym. destruct (cmp y x); simpl; congruence. }
  constructor; [done|].
  apply StronglySorted_inv in Hs as [_ Hy].
  eapply Forall_impl; [exact Hy|]. intros z Hz. by apply (cmp_le_trans x y z).
Qed.

Lemma insert_sorted_sorted x l :
  StronglySorted (λ a b, cmp a b ≠ Gt) l →
  StronglySorted (λ a b, cmp a b ≠ Gt) (insert_sorted cmp x l).
Proof.
  induction 1 as [|y l Hs IH Hy]; simpl.
  - repeat constructor.
  - destruct (cmp y x) eqn:Hc.
    + apply insert_sorted_front; [congruence | by constructor].
    + constructor; [done|].
      apply insert_sorted_Forall; [congruence | done].
    + apply insert_sorted_front; [congruence | by constructor].
Qed.

Lemma orderBy_sorted l : StronglySorted (λ a b, cmp a b ≠ Gt) (orderBy cmp l).
Proof.
  induction l; simpl; [constructor|]. by apply insert_sorted_sorted.
Qed.

Lemma same_not_lt e x y : cmp e x = Eq → cmp y x = Lt → cmp e y ≠ Eq.
Proof.
  intros Hex Hyx Hey.
  assert (cmp x e ≠ Gt) by (rewrite cmp_antisym, Hex; done).
  assert (cmp e y ≠ Gt) by (rewrite Hey; done).
  pose proof (cmp_le_trans x e y) as Ht.
  rewrite (cmp_antisym x y), Hyx in Ht. simpl in Ht. tauto.
Qed.

Lemma insert_sorted_filter e x l :
  filter (λ y, cmp e y = Eq) (insert_sorted cmp x l)
  = filter (λ y, cmp e y = Eq) (x :: l).
Proof.
  induction l as [|y l IH]; simpl; [done|].
  destruct (cmp y x) eqn:Hc; try done.
  rewrite filter_cons, IH, !filter_cons.
  destruct (decide (cmp e x = Eq)) as [Hx|Hx]; [|done].
  destruct (decide (cmp e y = Eq)) as [Hy|Hy]; [|done].
  by destruct (same_not_lt e x y).
Qed.

(** Stability: the elements of one key class keep their order. *)
Lemma orderBy_stable e l :
  filter (λ y, cmp e y = Eq) (orderBy cmp l) = filter (λ y, cmp e y = Eq) l.
Proof.
  induction l as [|x l IH]; simpl; [done|].
  by rewrite insert_sorted_filter, !filter_cons, IH.
Qed.
End Sorting.

(** ** The comparison of [sortByRender] is lawful *)

Lemma lawful_le_trans {K} (c : K → K → comparison) (a b d : K) :
  lawful c → c a b ≠ Gt → c b d ≠ Gt → c a d ≠ Gt.
Proof.
  intros [Heq Hanti Htr] Hab Hbd.
  destruct (c a b) eqn:E1; [| |done].
  - apply Heq in E1 as ->. done.
  - destruct (c b d) eqn:E2; [| |done].
    + apply Heq in E2 as ->. by rewrite E1.
    + by rewrite (Htr a b d E1 E2).
Qed.

Lemma lawful_lex {K1 K2} (c1 : K1 → K1 → comparison) (c2 : K2 → K2 → comparison) :
  lawful c1 → lawful c2 → lawful (lex c1 c2).
Proof.
  intros [Heq1 Hanti1 Htr1] [Heq2 Hanti2 Htr2]. split.
  - intros [a1 a2] [b1 b2]. unfold lex; simpl. split.
    + destruct (c1 a1 b1) eqn:E; [|done|done]. intros E2.
      apply Heq1 in E. apply Heq2 in E2. by subst.
    + intros [= -> ->].
      by rewrite (proj2 (Heq1 b1 b1) eq_refl), (proj2 (Heq2 b2 b2) eq_refl).
  - intros [a1 a2] [b1 b2]. unfold lex; simpl.
    rewrite (Hanti1 a1 b1). destruct (c1 b1 a1); simpl; [apply Hanti2|done|done].
  - intros [a1 a2] [b1 b2] [d1 d2]. unfold lex; simpl.
    destruct (c1 a1 b1) eqn:E1; [| |done].
    + apply Heq1 in E1 as ->. destruct (c1 b1 d1); [|done|done]. apply Htr2.
    + intros _. destruct (c1 b1 d1) eqn:E2; [| |done].
      * apply Heq1 in E2 as ->. by rewrite E1.
      * by rewrite (Htr1 a1 b1 d1 E1 E2).
Qed.

Lemma lawful_descending {K} (c : K → K → comparison) :
  lawful c → lawful (descending c).
Proof.
  intros [Heq Hanti Htr]. unfold descending. split.
  - intros a b. rewrite <- Heq. destruct (c a b); simpl; split; congruence.
  - intros a b. by rewrite (Hanti a b).
  - intros a b d. rewrite (Hanti a b), (Hanti b d), (Hanti a d), !CompOpp_involutive.
    intros H1 H2. by rewrite (Htr d b a H2 H1).
Qed.

Lemma lawful_Z_compare : lawful Z.compare.
Proof.
  split.
  - apply Z.compare_eq_iff.
  - intros a b. apply Z.compare_antisym.
  - intros a b d. rewrite !Z.compare_lt_iff. lia.
Qed.

Lemma lawful_Z_compare_opp : lawful (λ a b : Z, Z.compare (- a) (- b)).
Proof.
  split.
  - intros a b. rewrite Z.compare_eq_iff. lia.
  - intros a b. apply Z.compare_antisym.
  - intros a b d. rewrite !Z.compare_lt_iff. lia.
Qed.

Lemma lawful_string_compare : lawful String.compare.
Proof.
  split.
  - apply OrderedTypeEx.String_as_OT.cmp_eq.
  - apply OrderedTypeEx.String_as_OT.cmp_antisym.
  - intros a b d H1 H2.
    apply OrderedTypeEx.String_as_OT.cmp_lt in H1, H2.
    apply OrderedTypeEx.String_as_OT.cmp_lt.
    eapply OrderedTypeEx.String_as_OT.lt_trans; eauto.
Qed.

Lemma lawful_compareAscending_key : lawful compareAscending_key.
Proof.
  destruct lawful_string_compare as [Heq Hanti Htr]. split.
  - intros [s|] [t|]; simpl; try (split; congruence).
    rewrite Heq. split; congruence.
  - intros [s|] [t|]; simpl; done.
  - intros [s|] [t|] [u|]; simpl; try done. apply Htr.
Qed.

Lemma lawful_compare_keys : lawful compare_keys.
Proof.
  apply lawful_lex; [apply lawful_descending, lawful_compareAscending_key|].
  apply lawful_lex; [apply lawful_Z_compare | apply lawful_Z_compare_opp].
Qed.

Lemma compareMultiple_keys a b :
  compareMultiple a b = compare_keys (sort_key a) (sort_key b).
Proof. reflexivity. Qed.

Lemma compareMultiple_antisym a b :
  compareMultiple a b = CompOpp (compareMultiple b a).
Proof. rewrite !compareMultiple_keys. apply lawful_compare_keys. Qed.

Lemma compareMultiple_le_trans a b c :
  compareMultiple a b ≠ Gt → compareMultiple b c ≠ Gt → compareMultiple a c ≠ Gt.
Proof.
  rewrite !compareMultiple_keys. apply lawful_le_trans, lawful_compare_keys.
Qed.

Lemma compareMultiple_Eq a b : compareMultiple a b = Eq ↔ same_sort_keys a b.
Proof.
  rewrite compareMultiple_keys, (law_eq _ lawful_compare_keys).
  unfold sort_key, same_sort_keys. split; [intros [= -> -> ->]; done|].
  intros (-> & -> & ->). done.
Qed.

Lemma compareMultiple_precedes a b :
  compareMultiple a b ≠ Gt ↔ render_precedes a b.
Proof.
  unfold compareMultiple. split.
  - intros H.
    destruct (compareAscending_key (eventType a) (eventType b)) eqn:Ek; simpl in H.
    + apply (law_eq _ lawful_compareAscending_key) in Ek.
      destruct (Z.compare_spec (startMs a) (startMs b)) as [Es|Es|Es].
      * apply precedes_end; [done..|].
        destruct (Z.compare_spec (- endMs a) (- endMs b)); [lia|lia|done].
      * by apply precedes_start.
      * done.
    + done.
    + apply precedes_key.
      destruct (eventType a) as [s|], (eventType b) as [t|]; simpl in *; try done.
      rewrite String.compare_antisym, Ek. done.
  - intros [Hk|Hk Hs|Hk Hs He].
    + destruct (eventType a) as [s|], (eventType b) as [t|]; simpl in *; try done.
      rewrite String.compare_antisym, Hk. done.
    + rewrite Hk, (proj2 (law_eq _ lawful_compareAscending_key _ _) eq_refl). simpl.
      apply Z.compare_lt_iff in Hs. by rewrite Hs.
    + rewrite Hk, (proj2 (law_eq _ lawful_compareAscending_key _ _) eq_refl). simpl.
      rewrite Hs, Z.compare_refl. rewrite Z.compare_gt_iff. lia.
Qed.

Lemma render_precedes_total a b : render_precedes a b ∨ render_precedes b a.
Proof.
  rewrite <- !compareMultiple_precedes, (compareMultiple_antisym b a).
  destruct (compareMultiple a b); simpl; [left|left|right]; done.
Qed.

(** ** The reordering pass *)

Lemma next_group_split event rest k i :
  next_group event rest k = Some i →
  ∃ pre moved post,
    rest = pre ++ moved :: post ∧ i = (k + length pre)%nat ∧
    Forall (λ t, endMs event > startMs t) pre ∧
    ¬ endMs event > startMs moved ∧ eventType moved = None.
Proof.
  revert k. induction rest as [|test rest IH]; intros k; simpl; [done|].
  case_bool_decide as Hin.
  - intros H. apply IH in H as (pre & moved & post & -> & -> & Hpre & Hm & Hk).
    exists (test :: pre), moved, post. simpl.
    split_and!; [done | lia | by constructor | done | done].
  - destruct (eventType test) eqn:Ek; [done|]. intros [= <-].
    exists [], test, rest. simpl. split_and!; [done | lia | constructor | done | done].
Qed.

(** What one turn of the [while] loop does to a non-empty list. *)
Lemma reorder_turn fuel event rest :
  (reorder (S fuel) (event :: rest) = event :: reorder fuel rest) ∨
  (∃ pre moved post,
     rest = pre ++ moved :: post ∧ pre ≠ [] ∧
     Forall (λ t, endMs event > startMs t) pre ∧
     ¬ endMs event > startMs moved ∧
     reorder (S fuel) (event :: rest) = event :: moved :: reorder fuel (pre ++ post)).
Proof.
  simpl. destruct (eventType event); [by left|].
  destruct (next_group event rest 0) as [[|i]|] eqn:Hn; [by left| |by left].
  apply next_group_split in Hn as (pre & moved & post & -> & Hi & Hpre & Hm & _).
  simpl in Hi. rewrite Hi. right. exists pre, moved, post.
  rewrite list_lookup_middle by done. rewrite delete_middle.
  split_and!; try done. intros ->. simpl in Hi. lia.
Qed.

Lemma reorder_perm fuel l : (length l ≤ fuel)%nat → Permutation l (reorder fuel l).
Proof.
  revert l. induction fuel as [|fuel IH]; intros [|event rest] Hlen;
    simpl in Hlen; try done; try lia.
  destruct (reorder_turn fuel event rest)
    as [->|(pre & moved & post & -> & _ & _ & _ & ->)].
  - constructor. apply IH. lia.
  - rewrite <- IH by (rewrite length_app in *; simpl in *; lia).
    rewrite <- Permutation_middle. done.
Qed.

Lemma sortByRender_perm events : Permutation events (sortByRender events).
Proof.
  unfold sortByRender. rewrite <- reorder_perm by done. apply orderBy_perm.
Qed.

Lemma sortByRender_length events : length (sortByRender events) = length events.
Proof. symmetry. apply Permutation_length, sortByRender_perm. Qed.

Lemma filter_none {A} (P : A → Prop) `{∀ x, Decision (P x)} (l : list A) :
  Forall (λ x, ¬ P x) l → filter P l = [].
Proof.
  induction 1 as [|x l Hx _ IH]; [done|].
  rewrite filter_cons, IH. by destruct (decide (P x)).
Qed.

(** The pass never lets an event overtake one that starts at the same
    instant. *)
Lemma reorder_filter (P : Event → Prop) `{∀ x, Decision (P x)} fuel l :
  (∀ x y, P x → P y → startMs x = startMs y) →
  (length l ≤ fuel)%nat →
  filter P (reorder fuel l) = filter P l.
Proof.
  intros HP. revert l. induction fuel as [|fuel IH]; intros [|event rest] Hlen;
    simpl in Hlen; try done; try lia.
  destruct (reorder_turn fuel event rest)
    as [->|(pre & moved & post & -> & _ & Hpre & Hm & ->)].
  - rewrite !filter_cons, IH by lia. done.
  - rewrite !filter_cons, IH by (rewrite length_app in *; simpl in *; lia).
    rewrite !filter_app, !filter_cons.
    destruct (decide (P moved)) as [Hmoved|]; [|done].
    rewrite (filter_none P pre); [done|].
    eapply Forall_impl; [exact Hpre|]. intros t Ht HPt. simpl in Ht.
    specialize (HP _ _ Hmoved HPt). lia.
Qed.

Lemma sortByRender_stable e events :
  filter (same_sort_keys e) (sortByRender events) = filter (same_sort_keys e) events.
Proof.
  unfold sortByRender.
  rewrite (reorder_filter (same_sort_keys e));
    [|by intros x y (_ & <- & _) (_ & <- & _)|done].
  transitivity (filter (λ y, compareMultiple e y = Eq) (orderBy compareMultiple events)).
  { apply list_filter_iff. intros x. symmetry. apply compareMultiple_Eq. }
  rewrite orderBy_stable;
    [|apply compareMultiple_antisym | apply compareMultiple_le_trans].
  apply list_filter_iff, compareMultiple_Eq.
Qed.

(** ** The order [orderBy] produces *)

(** C2, as the code has it: the initial sort of [sortByRender] returns a
    permutation of its input, sorted by the total order [render_precedes]
    (ungrouped events first, then grouped ones by descending key; then
    ascending start instant; then descending end instant), and it is
    stable: events equal on all three criteria keep their input order. *)
Theorem orderBy_render_order (events : list Event) :
  Permutation events (orderBy compareMultiple events) ∧
  StronglySorted render_precedes (orderBy compareMultiple events) ∧
  (∀ a b, render_precedes a b ∨ render_precedes b a) ∧
  (∀ e, filter (same_sort_keys e) (orderBy compareMultiple events)
        = filter (same_sort_keys e) events).
Proof.
  split_and!.
  - apply orderBy_perm.
  - pose proof (orderBy_sorted compareMultiple compareMultiple_antisym
                  compareMultiple_le_trans events) as Hs.
    induction Hs as [|x l Hs IH Hx]; constructor; [done|].
    eapply Forall_impl; [exact Hx|]. intros y. apply compareMultiple_precedes.
  - apply render_precedes_total.
  - intros e.
    transitivity (filter (λ y, compareMultiple e y = Eq) (orderBy compareMultiple events)).
    { apply list_filter_iff. intros x. symmetry. apply compareMultiple_Eq. }
    rewrite orderBy_stable;
      [|apply compareMultiple_antisym | apply compareMultiple_le_trans].
    apply list_filter_iff, compareMultiple_Eq.
Qed.

(** C2 as stated fails: of two grouped events with the keys "a" (start 0)
    and "b" (start 5), "b" is sorted first, although both carry a key and
    "a" starts earlier. *)
Lemma orderBy_not_spec_order :
  ¬ StronglySorted spec_precedes
      (orderBy compareMultiple (map (new_Event identity_metrics) two_keys)) ∧
  ¬ StronglySorted spec_precedes
      (sortByRender (map (new_Event identity_metrics) two_keys)).
Proof.
  split; intros Hs; vm_compute in Hs;
    apply StronglySorted_inv in Hs as [_ Hs];
    apply Forall_inv in Hs;
    destruct Hs as [H1 H2|H1 H2|H1 H2 H3]; vm_compute in *; congruence.
Qed.

(** * The derived geometry *)

(** ** Reasoning about fallible code *)

Lemma bind_Ok {A B} (m : Res A) (f : A → Res B) (b : B) :
  m ≫= f = Ok b ↔ ∃ a, m = Ok a ∧ f a = Ok b.
Proof.
  destruct m; simpl; split; try done; try (by intros (? & ? & ?)); eauto.
  by intros (? & [= ->] & ?).
Qed.

Lemma deref_Ok {A} (o : option A) (a : A) : deref o = Ok a ↔ o = Some a.
Proof. destruct o; simpl; split; congruence. Qed.

Ltac res_inv :=
  repeat match goal with
  | H : _ ≫= _ = Ok _ |- _ => apply bind_Ok in H as (? & ? & H)
  | H : deref _ = Ok _ |- _ => apply deref_Ok in H
  | H : Ok _ = Ok _ |- _ => injection H as H
  | H : TypeError = Ok _ |- _ => discriminate H
  | H : Exhausted = Ok _ |- _ => discriminate H
  end.

Lemma foldR_ext {S A} (f g : S → A → Res S) (s : S) (l : list A) :
  (∀ s x, x ∈ l → f s x = g s x) → foldR f s l = foldR g s l.
Proof.
  revert s. induction l as [|x l IH]; intros s Hfg; simpl; [done|].
  rewrite Hfg by left. destruct (g s x); simpl; try done.
  apply IH. intros. apply Hfg. by right.
Qed.

Lemma foldR_app {S A} (f : S → A → Res S) (s : S) (l1 l2 : list A) :
  foldR f s (l1 ++ l2) = s' ← foldR f s l1; foldR f s' l2.
Proof.
  revert s. induction l1 as [|x l1 IH]; intros s; simpl; [done|].
  destruct (f s x); simpl; try done.
Qed.

(** ** Divisors *)

Lemma columns_fold_ge (st : arena) (rs : list nat) (m0 m : nat) :
  foldR (λ max r,
        rowev ← deref (st !! r);
        ls ← deref (leaves rowev);
        Ok (Nat.max max (length ls + 1))) m0 rs = Ok m →
  (m0 ≤ m)%nat.
Proof.
  revert m0. induction rs as [|r rs IH]; intros m0 H; simpl in H.
  - injection H as ->. done.
  - res_inv. subst. apply IH in H. lia.
Qed.

Lemma columns_positive (st : arena) (rs : list nat) (cols : nat) :
  columns st rs = Ok cols → (1 ≤ cols)%nat.
Proof. unfold columns. intros H. res_inv. lia. Qed.

Lemma columns_nil (st : arena) : columns st [] = Ok 1%nat.
Proof. reflexivity. Qed.

Lemma row_divisor_positive (ls : list nat) : (1 ≤ row_divisor ls)%nat.
Proof. unfold row_divisor. lia. Qed.

(** ** Fuel *)

Lemma sub_arena_refl st : sub_arena st st.
Proof. by intros j e. Qed.

Lemma sub_arena_app st ext : sub_arena st (st ++ ext).
Proof. intros j e H. by apply lookup_app_l_Some. Qed.

Lemma sub_arena_length st st' : sub_arena st st' → (length st ≤ length st')%nat.
Proof.
  intros Hsub. destruct (decide (length st ≤ length st')%nat) as [|Hn]; [done|].
  destruct (lookup_lt_is_Some_2 st (length st')) as [e He]; [lia|].
  apply Hsub in He. apply lookup_lt_Some in He. lia.
Qed.

Lemma columns_fold_sub (st st' : arena) (rs : list nat) (m0 m : nat) :
  sub_arena st st' →
  foldR (λ max r,
        rowev ← deref (st !! r);
        ls ← deref (leaves rowev);
        Ok (Nat.max max (length ls + 1))) m0 rs = Ok m →
  foldR (λ max r,
        rowev ← deref (st' !! r);
        ls ← deref (leaves rowev);
        Ok (Nat.max max (length ls + 1))) m0 rs = Ok m.
Proof.
  intros Hsub. revert m0. induction rs as [|r rs IH]; intros m0 H; simpl in *; [done|].
  apply bind_Ok in H as (m1 & H1 & H).
  apply bind_Ok in H1 as (rowev & Hrow & H1). apply deref_Ok in Hrow.
  apply bind_Ok in H1 as (ls & Hls & H1). apply deref_Ok in Hls.
  rewrite (Hsub _ _ Hrow). simpl. rewrite Hls. simpl.
  injection H1 as <-. by apply IH.
Qed.

Lemma columns_sub st st' rs cols :
  sub_arena st st' → columns st rs = Ok cols → columns st' rs = Ok cols.
Proof.
  intros Hsub. unfold columns. intros H. apply bind_Ok in H as (m & H & Hm).
  by rewrite (columns_fold_sub _ _ _ _ _ Hsub H).
Qed.

Lemma _width_fuel_sub n m st st' i w :
  sub_arena st st' → (n ≤ m)%nat →
  _width_fuel n st i = Ok w → _width_fuel m st' i = Ok w.
Proof.
  intros Hsub. revert m i w. induction n as [|n IH]; intros m i w Hnm H; [done|].
  destruct m as [|m]; [lia|]. simpl in *.
  apply bind_Ok in H as (this & Hthis & H). apply deref_Ok in Hthis.
  rewrite (Hsub _ _ Hthis). simpl.
  destruct (dwidth (data this)); [done|].
  destruct (rows this) as [rs|].
  - apply bind_Ok in H as (cols & Hc & H).
    by rewrite (columns_sub _ _ _ _ Hsub Hc).
  - apply bind_Ok in H as (c & Hc & H). rewrite Hc. simpl.
    apply bind_Ok in H as (cw & Hcw & H).
    rewrite (IH m c cw) by (done || lia). simpl.
    destruct (leaves this); [done|].
    apply bind_Ok in H as (r & Hr & H). rewrite Hr. simpl.
    apply IH; [lia | done].
Qed.

Lemma _width_sub st st' i w :
  sub_arena st st' → _width st i = Ok w → _width st' i = Ok w.
Proof.
  intros Hsub. apply _width_fuel_sub; [done|]. by apply sub_arena_length.
Qed.

Lemma _width_from_fuel n st i w :
  (n ≤ length st)%nat → _width_fuel n st i = Ok w → _width st i = Ok w.
Proof. intros Hn. by apply _width_fuel_sub; [apply sub_arena_refl|]. Qed.

Lemma xOffset_fuel_sub n m st st' i x :
  sub_arena st st' → (n ≤ m)%nat →
  xOffset_fuel n st i = Ok x → xOffset_fuel m st' i = Ok x.
Proof.
  intros Hsub. revert m i x. induction n as [|n IH]; intros m i x Hnm H; [done|].
  destruct m as [|m]; [lia|]. simpl in *.
  apply bind_Ok in H as (this & Hthis & H). apply deref_Ok in Hthis.
  rewrite (Hsub _ _ Hthis). simpl.
  destruct (rows this); [done|].
  destruct (column this).
  - apply bind_Ok in H as (w & Hw & H).
    by rewrite (_width_sub _ _ _ _ Hsub Hw).
  - destruct (leaves this).
    + apply bind_Ok in H as (c & Hc & H). rewrite Hc. simpl.
      apply bind_Ok in H as (cw & Hcw & H).
      by rewrite (_width_sub _ _ _ _ Hsub Hcw).
    + apply bind_Ok in H as (r & Hr & H). rewrite Hr. simpl.
      apply bind_Ok in H as (rowev & Hrow & H). apply deref_Ok in Hrow.
      rewrite (Hsub _ _ Hrow). simpl.
      apply bind_Ok in H as (rx & Hrx & H).
      rewrite (IH m r rx) by (done || lia). simpl.
      apply bind_Ok in H as (rw & Hrw & H).
      by rewrite (_width_sub _ _ _ _ Hsub Hrw).
Qed.

Lemma xOffset_sub st st' i x :
  sub_arena st st' → xOffset st i = Ok x → xOffset st' i = Ok x.
Proof.
  intros Hsub. apply xOffset_fuel_sub; [done|]. by apply sub_arena_length.
Qed.

Lemma width_sub st st' i w :
  sub_arena st st' → width st i = Ok w → width st' i = Ok w.
Proof.
  intros Hsub. unfold width. intros H.
  apply bind_Ok in H as (this & Hthis & H). apply deref_Ok in Hthis.
  rewrite (Hsub _ _ Hthis). simpl.
  apply bind_Ok in H as (no & Hno & H).
  rewrite (_width_sub _ _ _ _ Hsub Hno). simpl.
  destruct (decide (unit no ≠ "%")); [done|].
  destruct (rows this); [done|]. destruct (leaves this); [done|].
  apply bind_Ok in H as (r & Hr & H). rewrite Hr. simpl.
  apply bind_Ok in H as (rowev & Hrow & H). apply deref_Ok in Hrow.
  by rewrite (Hsub _ _ Hrow).
Qed.

(** ** The fixed-width override *)

(** C10: whatever its role, an adapter whose payload carries a width has
    exactly that width as [_width]; when the unit is not '%' the final
    [width] is that same object, neither grown by 1.7 nor capped. *)
Theorem fixed_width_override (st : arena) (i : nat) (e : Event) (w : Width) :
  st !! i = Some e →
  dwidth (data e) = Some w →
  _width st i = Ok w ∧ (unit w ≠ "%" → width st i = Ok w).
Proof.
  intros Hi Hw.
  assert (_width st i = Ok w) as Hwidth.
  { unfold _width. pose proof (lookup_lt_Some _ _ _ Hi) as Hlen.
    destruct (length st) as [|n]; [lia|]. simpl. rewrite Hi. simpl. by rewrite Hw. }
  split; [done|]. intros Hu. unfold width. rewrite Hi. simpl.
  rewrite Hwidth. simpl. by destruct (decide (unit w ≠ "%")).
Qed.

Lemma fixed_width_override_witness :
  _width fixed_px_arena 0 = Ok (mkWidth 30 "px") ∧
  width fixed_px_arena 0 = Ok (mkWidth 30 "px").
Proof.
  destruct (fixed_width_override fixed_px_arena 0
              (new_Event identity_metrics (keyed 0 0 10 "k" (mkWidth 30 "px")))
              (mkWidth 30 "px") eq_refl eq_refl) as [H1 H2].
  split; [exact H1|]. apply H2. discriminate.
Defined.

(** ** Divisors *)

Lemma sortByRender_singleton (e : Event) : sortByRender [e] = [e].
Proof.
  unfold sortByRender. simpl. by destruct (eventType e).
Qed.




(** * The cluster builder keeps the tree well formed *)

Lemma lookup_upd (f : Event → Event) (i j : nat) (st : arena) :
  upd f i st !! j = if decide (i = j) then f <$> st !! j else st !! j.
Proof.
  unfold upd. destruct (decide (i = j)) as [->|Hne].
  - apply list_lookup_alter_eq.
  - by apply list_lookup_alter_ne.
Qed.

Lemma length_upd (f : Event → Event) (i : nat) (st : arena) :
  length (upd f i st) = length st.
Proof. apply length_alter. Qed.

Lemma map_core_upd (f : Event → Event) (i : nat) (st : arena) :
  (∀ e, core (f e) = core e) → map core (upd f i st) = map core st.
Proof.
  intros Hf. apply list_eq. intros j.
  rewrite !list_lookup_fmap, lookup_upd.
  destruct (decide (i = j)) as [->|]; [|done].
  destruct (st !! j) as [e|]; simpl; by rewrite ?Hf.
Qed.

Lemma grows_refl e : grows e e.
Proof.
  unfold grows, opt_grow. split_and!; try done.
  - destruct (rows e); [by exists []; rewrite app_nil_r | done].
  - destruct (leaves e); [by exists []; rewrite app_nil_r | done].
Qed.

Lemma is_container_ext st st' c : ext st st' → is_container st c → is_container st' c.
Proof.
  intros Hext (e & rs & He & Hrs).
  destruct (Hext c e He) as (e' & He' & _ & _ & _ & _ & Hr & _).
  { intros (? & _). congruence. }
  rewrite Hrs in Hr. unfold opt_grow in Hr.
  destruct (rows e') as [rs'|] eqn:E; [|done]. by exists e', rs'.
Qed.

Lemma is_row_of_ext st st' c r : ext st st' → is_row_of st c r → is_row_of st' c r.
Proof.
  intros Hext (e & ls & He & Hrs & Hls & Hc & Hr & Hcol).
  destruct (Hext r e He) as (e' & He' & _ & Hc' & Hr' & Hcol' & Hrs' & Hls').
  { intros (_ & ? & _). congruence. }
  rewrite Hrs in Hrs'. rewrite Hls in Hls'. unfold opt_grow in *.
  destruct (rows e') eqn:E1; [done|]. destruct (leaves e') as [ls'|] eqn:E2; [|done].
  exists e', ls'. split_and!; congruence.
Qed.

Lemma is_leaf_of_ext st st' c r l :
  ext st st' → is_leaf_of st c r l → is_leaf_of st' c r l.
Proof.
  intros Hext (e & He & Hrs & Hls & Hc & Hr & Hcol).
  destruct (Hext l e He) as (e' & He' & _ & Hc' & Hr' & Hcol' & Hrs' & Hls').
  { intros (_ & _ & _ & ? & _). congruence. }
  rewrite Hrs in Hrs'. rewrite Hls in Hls'. unfold opt_grow in *.
  destruct (rows e') eqn:E1; [done|]. destruct (leaves e') eqn:E2; [done|].
  exists e'. split_and!; congruence.
Qed.

Lemma has_leaf_ext st st' r l : ext st st' → has_leaf st r l → has_leaf st' r l.
Proof.
  intros Hext (e & ls & He & Hls & Hin).
  destruct (Hext r e He) as (e' & He' & _ & _ & _ & _ & _ & Hls').
  { intros (_ & ? & _). congruence. }
  rewrite Hls in Hls'. unfold opt_grow in *.
  destruct (leaves e') as [ls'|] eqn:E2; [|done]. destruct Hls' as [t ->].
  exists e', (ls ++ t). split_and!; try done. apply elem_of_app. by left.
Qed.

Lemma node_ok_ext st st' i e : ext st st' → node_ok st i e → node_ok st' i e.
Proof.
  intros Hext. unfold node_ok.
  destruct (rows e) as [rs|].
  - intros (? & ? & ? & ? & Hrs). split_and!; try done.
    eapply Forall_impl; [exact Hrs|]. intros r. by apply is_row_of_ext.
  - destruct (leaves e) as [ls|].
    + intros (c & ? & ? & ? & Hc & ? & Hls). exists c. split_and!; try done.
      * by eapply is_container_ext.
      * eapply Forall_impl; [exact Hls|]. intros l. by apply is_leaf_of_ext.
    + destruct (row e) as [r|]; [|done].
      intros (c & ? & ? & Hr & Hl). exists c. split_and!; try done.
      * by eapply is_row_of_ext.
      * by eapply has_leaf_ext.
Qed.

Lemma find_container_elem st msd ev cs c :
  find_container st msd ev cs = Ok (Some c) → c ∈ cs.
Proof.
  induction cs as [|c0 cs IH]; simpl; [done|]. intros H.
  apply bind_Ok in H as (cev & _ & H).
  destruct (_ || _); [injection H as ->; left|right; auto].
Qed.

Lemma find_row_elem st msd ev rs r :
  find_row st msd ev rs = Ok (Some r) → r ∈ rs.
Proof.
  induction rs as [|r0 rs IH]; simpl; [done|]. intros H.
  apply bind_Ok in H as (rowev & _ & H).
  destruct (onSameRow _ _ _); [injection H as ->; left|right; auto].
Qed.

Lemma tree_inv_intro k st st' cs cs' named named' :
  tree_inv k (mkState st cs named) →
  ext st st' →
  (∀ i e', st' !! i = Some e' →
           st !! i = Some e' ∨ (node_ok st' i e' ∧ (i ≤ k)%nat)) →
  Forall (is_container st') cs' →
  tree_inv (S k) (mkState st' cs' named').
Proof.
  intros [Hn Hf Hc] Hext Hlook Hcs. simpl in *. split; simpl; [| |done].
  - intros i e' Hi. destruct (Hlook i e' Hi) as [Hold|[Hok _]]; [|done].
    eapply node_ok_ext; eauto.
  - intros i e' Hi Hk. destruct (Hlook i e' Hi) as [Hold|[_ Hle]]; [|lia].
    apply (Hf i e' Hold). lia.
Qed.

(** Updating the adapter of the current turn, which has no role yet,
    leaves every adapter that has one alone. *)
Lemma ext_upd_fresh (f : Event → Event) k st ev :
  st !! k = Some ev → fresh ev → ext st (upd f k st).
Proof.
  intros Hk Hfresh j e Hj Hnf. exists e. split; [|apply grows_refl].
  rewrite lookup_upd. destruct (decide (k = j)) as [<-|]; [|done].
  congruence.
Qed.

Lemma tree_inv_next k st cs named named' :
  tree_inv k (mkState st cs named) → tree_inv (S k) (mkState st cs named').
Proof.
  intros [Hn Hf Hc]. split; simpl in *; [done| |done].
  intros i e Hi Hk. apply (Hf i e Hi). lia.
Qed.

Lemma tree_step_grouped k st cs named named' ev col :
  tree_inv k (mkState st cs named) → st !! k = Some ev →
  tree_inv (S k) (mkState (upd (set_column col) k st) cs named').
Proof.
  intros Hinv Hk.
  assert (fresh ev) as Hfresh by (apply (inv_fresh _ _ Hinv k ev Hk); done).
  pose proof (ext_upd_fresh (set_column col) k st ev Hk Hfresh) as Hext.
  eapply tree_inv_intro; [exact Hinv | exact Hext | |].
  - intros i e'. rewrite lookup_upd. destruct (decide (k = i)) as [<-|]; [|by left].
    rewrite Hk. intros [= <-]. right. split; [|done].
    destruct Hfresh as (Hr & Hl & Hc & Hrow & Hcol).
    unfold node_ok. simpl. by rewrite Hr, Hl, Hrow.
  - eapply Forall_impl; [apply (inv_containers _ _ Hinv)|].
    intros c. by apply is_container_ext.
Qed.

Lemma tree_step_container k st cs named ev :
  tree_inv k (mkState st cs named) → st !! k = Some ev →
  tree_inv (S k) (mkState (upd (set_rows []) k st) (cs ++ [k]) named).
Proof.
  intros Hinv Hk.
  assert (fresh ev) as Hfresh by (apply (inv_fresh _ _ Hinv k ev Hk); done).
  pose proof (ext_upd_fresh (set_rows []) k st ev Hk Hfresh) as Hext.
  eapply tree_inv_intro; [exact Hinv | exact Hext | |].
  - intros i e'. rewrite lookup_upd. destruct (decide (k = i)) as [<-|]; [|by left].
    rewrite Hk. intros [= <-]. right. split; [|done].
    destruct Hfresh as (Hr & Hl & Hc & Hrow & Hcol).
    unfold node_ok. simpl. split_and!; done.
  - apply Forall_app. split.
    + eapply Forall_impl; [apply (inv_containers _ _ Hinv)|].
      intros c. by apply is_container_ext.
    + constructor; [|done]. exists (set_rows [] ev), [].
      split; [|done]. by rewrite lookup_upd, decide_True, Hk.
Qed.

Lemma tree_step_leaf k st cs named c r ev re ls :
  tree_inv k (mkState st cs named) → st !! k = Some ev →
  is_row_of st c r → st !! r = Some re → leaves re = Some ls →
  tree_inv (S k)
    (mkState (upd (set_row r) k (upd (set_leaves (ls ++ [k])) r
                (upd (set_container c) k st))) cs named).
Proof.
  intros Hinv Hk Hrow Hr Hls.
  assert (fresh ev) as Hfresh by (apply (inv_fresh _ _ Hinv k ev Hk); done).
  assert (r ≠ k) as Hrk.
  { intros ->. destruct Hfresh as (_ & Hl & _). congruence. }
  set (st' := upd (set_row r) k _).
  assert (∀ i, st' !! i =
               if decide (k = i) then Some (set_row r (set_container c ev))
               else if decide (r = i) then Some (set_leaves (ls ++ [k]) re)
               else st !! i) as Hlook.
  { intros i. unfold st'. rewrite !lookup_upd.
    destruct (decide (k = i)) as [<-|Hki].
    - rewrite decide_False by done. by rewrite Hk.
    - destruct (decide (r = i)) as [<-|]; [by rewrite Hr | done]. }
  assert (ext st st') as Hext.
  { intros j e Hj Hnf. rewrite Hlook.
    destruct (decide (k = j)) as [<-|]; [congruence|].
    destruct (decide (r = j)) as [<-|]; [|exists e; split; [done | apply grows_refl]].
    assert (e = re) as -> by congruence.
    eexists. split; [done|].
    unfold grows, opt_grow. simpl. rewrite Hls. split_and!; try done; [|by eexists].
    destruct (rows re); [by exists []; rewrite app_nil_r | done]. }
  pose proof (inv_nodes _ _ Hinv r re Hr) as Hnode. simpl in Hnode.
  destruct Hrow as (re' & ls' & Hr' & Hrows & Hls' & Hcont & Hrowf & Hcol).
  assert (re' = re) as -> by congruence. clear Hr' Hls'.
  unfold node_ok in Hnode. rewrite Hrows, Hls in Hnode.
  destruct Hnode as (c' & Hc' & _ & _ & Hisc & Hnd & Hleaves).
  assert (c' = c) as -> by congruence.
  assert (is_leaf_of st' c r k) as Hnew.
  { exists (set_row r (set_container c ev)).
    rewrite Hlook, decide_True by done.
    destruct Hfresh as (? & ? & ? & ? & ?). split_and!; done. }
  eapply tree_inv_intro; [exact Hinv | exact Hext | |].
  - intros i e'. rewrite Hlook.
    destruct (decide (k = i)) as [<-|Hki].
    { intros [= <-]. right. split; [|done].
      destruct Hfresh as (Hfr & Hfl & _ & _ & Hfc).
      unfold node_ok. simpl. rewrite Hfr, Hfl. exists c. split_and!; try done.
      - eapply is_row_of_ext; [exact Hext|].
        exists re, ls. split_and!; done.
      - exists (set_leaves (ls ++ [k]) re), (ls ++ [k]).
        rewrite Hlook, decide_False, decide_True by done.
        split_and!; try done. apply elem_of_app. right. by left. }
    destruct (decide (r = i)) as [<-|]; [|by left].
    intros [= <-]. right. split.
    + unfold node_ok. simpl. rewrite Hrows. exists c. split_and!; try done.
      * by eapply is_container_ext.
      * apply NoDup_app. split_and!; [done| |apply NoDup_singleton].
        intros l Hl Hlk. apply list_elem_of_singleton in Hlk as ->.
        rewrite Forall_forall in Hleaves.
        destruct (Hleaves k Hl) as (e & He & _ & _ & _ & Hrowk & _).
        destruct Hfresh as (_ & _ & _ & ? & _). congruence.
      * apply Forall_app. split; [|by constructor].
        eapply Forall_impl; [exact Hleaves|]. intros l. by apply is_leaf_of_ext.
    + destruct (decide (r ≤ k)%nat) as [|Hgt]; [done|].
      assert (fresh re) as (_ & ? & _) by (apply (inv_fresh _ _ Hinv r re); [done|simpl; lia]).
      congruence.
  - eapply Forall_impl; [apply (inv_containers _ _ Hinv)|].
    intros c0. by apply is_container_ext.
Qed.

Lemma tree_step_row k st cs named c ev ce rs :
  tree_inv k (mkState st cs named) → st !! k = Some ev →
  st !! c = Some ce → rows ce = Some rs →
  tree_inv (S k)
    (mkState (upd (set_rows (rs ++ [k])) c (upd (set_leaves []) k
                (upd (set_container c) k st))) cs named).
Proof.
  intros Hinv Hk Hc Hrs.
  assert (fresh ev) as Hfresh by (apply (inv_fresh _ _ Hinv k ev Hk); done).
  assert (c ≠ k) as Hck.
  { intros ->. destruct Hfresh as (Hr & _). congruence. }
  set (st' := upd (set_rows (rs ++ [k])) c _).
  assert (∀ i, st' !! i =
               if decide (c = i) then Some (set_rows (rs ++ [k]) ce)
               else if decide (k = i) then Some (set_leaves [] (set_container c ev))
               else st !! i) as Hlook.
  { intros i. unfold st'. rewrite !lookup_upd.
    destruct (decide (c = i)) as [<-|Hci].
    - rewrite !decide_False by done. by rewrite Hc.
    - destruct (decide (k = i)) as [<-|]; [by rewrite Hk | done]. }
  assert (ext st st') as Hext.
  { intros j e Hj Hnf. rewrite Hlook.
    destruct (decide (c = j)) as [<-|].
    - assert (e = ce) as -> by congruence.
      eexists. split; [done|].
      unfold grows, opt_grow. simpl. rewrite Hrs. split_and!; try done; [by eexists|].
      destruct (leaves ce); [by exists []; rewrite app_nil_r | done].
    - destruct (decide (k = j)) as [<-|]; [congruence|].
      exists e; split; [done | apply grows_refl]. }
  pose proof (inv_nodes _ _ Hinv c ce Hc) as Hnode. simpl in Hnode.
  unfold node_ok in Hnode. rewrite Hrs in Hnode.
  destruct Hnode as (Hcl & Hcc & Hcr & Hccol & Hrows).
  assert (is_container st' c) as Hisc.
  { exists (set_rows (rs ++ [k]) ce), (rs ++ [k]).
    by rewrite Hlook, decide_True. }
  eapply tree_inv_intro; [exact Hinv | exact Hext | |].
  - intros i e'. rewrite Hlook.
    destruct (decide (c = i)) as [<-|Hci].
    { intros [= <-]. right. split.
      - unfold node_ok. simpl. split_and!; try done.
        apply Forall_app. split.
        + eapply Forall_impl; [exact Hrows|]. intros r. by apply is_row_of_ext.
        + constructor; [|done].
          exists (set_leaves [] (set_container c ev)), [].
          rewrite Hlook, decide_False, decide_True by done.
          destruct Hfresh as (? & ? & ? & ? & ?). split_and!; done.
      - destruct (decide (c ≤ k)%nat) as [|Hgt]; [done|].
        assert (fresh ce) as (? & _) by (apply (inv_fresh _ _ Hinv c ce); [done|simpl; lia]).
        congruence. }
    destruct (decide (k = i)) as [<-|]; [|by left].
    intros [= <-]. right. split; [|done].
    destruct Hfresh as (Hfr & Hfl & _ & Hfrow & Hfc).
    unfold node_ok. simpl. rewrite Hfr. exists c. split_and!; try done.
    apply NoDup_nil_2.
  - eapply Forall_impl; [apply (inv_containers _ _ Hinv)|].
    intros c0. by apply is_container_ext.
Qed.

(** One turn of the loop keeps the tree well formed. *)
Lemma step_tree msd k s s' :
  tree_inv k s → step msd s k = Ok s' → tree_inv (S k) s'.
Proof.
  destruct s as [st cs named]. intros Hinv Hstep. unfold step in Hstep. simpl in Hstep.
  apply bind_Ok in Hstep as (ev & Hk & Hstep). apply deref_Ok in Hk.
  assert (fresh ev) as Hfresh by (apply (inv_fresh _ _ Hinv k ev Hk); done).
  destruct (eventType ev) as [key|].
  - destruct (named !! key) as [m|].
    + apply bind_Ok in Hstep as ([m' [col|]] & _ & Hstep); injection Hstep as <-.
      * by eapply tree_step_grouped.
      * by eapply tree_inv_next.
    + injection Hstep as <-. by eapply tree_step_grouped.
  - apply bind_Ok in Hstep as (found & Hfound & Hstep).
    destruct found as [c|]; [|injection Hstep as <-; by eapply tree_step_container].
    apply find_container_elem in Hfound.
    pose proof (inv_containers _ _ Hinv) as Hcs. simpl in Hcs.
    rewrite Forall_forall in Hcs. destruct (Hcs c Hfound) as (ce & rs & Hc & Hrs).
    assert (k ≠ c) as Hkc.
    { intros ->. destruct Hfresh as (Hr & _). congruence. }
    apply bind_Ok in Hstep as (cev & Hcev & Hstep). apply deref_Ok in Hcev.
    rewrite lookup_upd, decide_False in Hcev by done.
    assert (cev = ce) as -> by congruence.
    rewrite Hrs in Hstep. simpl in Hstep.
    apply bind_Ok in Hstep as (found_row & Hfr & Hstep).
    destruct found_row as [r|]; [|injection Hstep as <-; by eapply tree_step_row].
    apply find_row_elem in Hfr. rewrite elem_of_reverse in Hfr.
    pose proof (inv_nodes _ _ Hinv c ce Hc) as Hnode. simpl in Hnode.
    unfold node_ok in Hnode. rewrite Hrs in Hnode.
    destruct Hnode as (_ & _ & _ & _ & Hrows).
    rewrite Forall_forall in Hrows. pose proof (Hrows r Hfr) as Hrow.
    destruct Hrow as (re & ls & Hr & Hrrows & Hrls & Hrest).
    assert (k ≠ r) as Hkr.
    { intros ->. destruct Hfresh as (_ & Hl & _). congruence. }
    apply bind_Ok in Hstep as (rowev & Hrowev & Hstep). apply deref_Ok in Hrowev.
    rewrite lookup_upd, decide_False in Hrowev by done.
    assert (rowev = re) as -> by congruence.
    rewrite Hrls in Hstep. simpl in Hstep. injection Hstep as <-.
    eapply tree_step_leaf; eauto.
Qed.

(** ** The loop as a whole *)

Lemma foldR_seq_inv {S} (f : S → nat → Res S) (P : nat → S → Prop) k0 n s0 s :
  (∀ k s s', P k s → f s k = Ok s' → P (Datatypes.S k) s') →
  P k0 s0 → foldR f s0 (seq k0 n) = Ok s → P (k0 + n)%nat s.
Proof.
  intros Hstep. revert k0 s0. induction n as [|n IH]; intros k0 s0 HP H; simpl in H.
  - injection H as <-. by rewrite Nat.add_0_r.
  - apply bind_Ok in H as (s1 & H1 & H).
    replace (k0 + Datatypes.S n)%nat with (Datatypes.S k0 + n)%nat by lia.
    eapply IH; [|exact H]. eauto.
Qed.

Lemma fresh_node_ok st i e : fresh e → node_ok st i e.
Proof.
  intros (Hr & Hl & Hc & Hrow & _). unfold node_ok. by rewrite Hr, Hl, Hrow.
Qed.

Lemma tree_inv_init evs : Forall fresh evs → tree_inv 0 (mkState evs [] ∅).
Proof.
  intros Hfresh. rewrite Forall_lookup in Hfresh. split; simpl.
  - intros i e Hi. apply fresh_node_ok. eauto.
  - intros i e Hi _. eauto.
  - constructor.
Qed.

Lemma cluster_tree msd evs s :
  Forall fresh evs → cluster msd evs = Ok s → tree_inv (length evs) s.
Proof.
  intros Hfresh H. unfold cluster in H.
  eapply (foldR_seq_inv (step msd) tree_inv 0 (length evs));
    [| |exact H]; [|by apply tree_inv_init].
  intros k s1 s2. apply step_tree.
Qed.

Lemma new_Event_fresh sm d : fresh (new_Event sm d).
Proof. by repeat split. Qed.

Lemma render_order_fresh sm events :
  Forall fresh (sortByRender (map (new_Event sm) events)).
Proof.
  eapply Permutation_Forall; [apply sortByRender_perm|].
  apply Forall_fmap, Forall_true. intros d. apply new_Event_fresh.
Qed.

(** The loop writes relationship fields only. *)
Lemma step_core msd s k s' :
  step msd s k = Ok s' → map core (events_of s') = map core (events_of s).
Proof.
  destruct s as [st cs named]. unfold step. simpl. intros H.
  apply bind_Ok in H as (ev & Hk & H).
  destruct (eventType ev).
  - destruct (named !! s).
    + apply bind_Ok in H as ([m' [col|]] & _ & H); injection H as <-; simpl; [|done].
      by apply map_core_upd.
    + injection H as <-. simpl. by apply map_core_upd.
  - apply bind_Ok in H as ([c|] & _ & H).
    + apply bind_Ok in H as (cev & _ & H). apply bind_Ok in H as (rs & _ & H).
      apply bind_Ok in H as ([r|] & _ & H).
      * apply bind_Ok in H as (rowev & _ & H). apply bind_Ok in H as (ls & _ & H).
        injection H as <-. simpl. by rewrite !map_core_upd.
      * injection H as <-. simpl. by rewrite !map_core_upd.
    + injection H as <-. simpl. by apply map_core_upd.
Qed.

Lemma cluster_core msd evs s :
  cluster msd evs = Ok s → map core (events_of s) = map core evs.
Proof.
  intros H. unfold cluster in H.
  eapply (foldR_seq_inv (step msd)
            (λ _ s, map core (events_of s) = map core evs) 0 (length evs));
    [| |exact H]; [|done].
  intros k s1 s2 H1 H2. by rewrite (step_core _ _ _ _ H2).
Qed.

Lemma cluster_length msd evs s :
  cluster msd evs = Ok s → length (events_of s) = length evs.
Proof.
  intros H. apply cluster_core in H.
  by rewrite <- (length_map core), H, length_map.
Qed.

Lemma core_lookup (st st' : arena) i e :
  map core st = map core st' → st !! i = Some e →
  ∃ e', st' !! i = Some e' ∧ core e' = core e.
Proof.
  intros Hcore Hi.
  assert (map core st !! i = Some (core e)) as H by (by rewrite list_lookup_fmap, Hi).
  rewrite Hcore, list_lookup_fmap in H.
  destruct (st' !! i) as [e'|]; simpl in H; [|done].
  exists e'. split; [done|]. congruence.
Qed.

(** * Widths and offsets in a well-formed tree *)

Lemma columns_total st c rs :
  Forall (is_row_of st c) rs → ∃ cols, columns st rs = Ok cols.
Proof.
  intros Hrs. unfold columns.
  assert (∀ m0, ∃ m, foldR (λ max r,
        rowev ← deref (st !! r);
        ls ← deref (leaves rowev);
        Ok (Nat.max max (length ls + 1))) m0 rs = Ok m) as Hfold.
  { induction Hrs as [|r rs (re & ls & Hr & _ & Hls & _) _ IH]; intros m0; simpl.
    - by eexists.
    - rewrite Hr. simpl. rewrite Hls. simpl. apply IH. }
  destruct (Hfold 0%nat) as [m ->]. simpl. by eexists.
Qed.

Lemma width_fuel_container n st c ce rs cols :
  st !! c = Some ce → rows ce = Some rs → columns st rs = Ok cols →
  _width_fuel (S n) st c = Ok (container_width ce cols).
Proof.
  intros Hc Hrs Hcols. simpl. rewrite Hc. simpl. unfold container_width.
  destruct (dwidth (data ce)); [done|]. rewrite Hrs, Hcols. done.
Qed.

Lemma width_fuel_row n st r re ls c cw :
  st !! r = Some re → rows re = None → leaves re = Some ls →
  container re = Some c → _width_fuel n st c = Ok cw →
  _width_fuel (S n) st r = Ok (row_width re cw ls).
Proof.
  intros Hr Hrows Hls Hc Hcw. simpl. rewrite Hr. simpl. unfold row_width.
  destruct (dwidth (data re)); [done|]. rewrite Hrows, Hc. simpl.
  rewrite Hcw. simpl. by rewrite Hls.
Qed.

Lemma width_fuel_leaf n st l le c r cw rw :
  st !! l = Some le → rows le = None → leaves le = None →
  container le = Some c → row le = Some r →
  _width_fuel n st c = Ok cw → _width_fuel n st r = Ok rw →
  _width_fuel (S n) st l = Ok (leaf_width le rw).
Proof.
  intros Hl Hrows Hls Hc Hr Hcw Hrw. simpl. rewrite Hl. simpl. unfold leaf_width.
  destruct (dwidth (data le)); [done|]. rewrite Hrows, Hc. simpl.
  rewrite Hcw. simpl. rewrite Hls, Hr. simpl. done.
Qed.

Lemma xOffset_container st c ce rs :
  st !! c = Some ce → rows ce = Some rs → xOffset st c = Ok (mkWidth 0 "").
Proof.
  intros Hc Hrs. unfold xOffset. pose proof (lookup_lt_Some _ _ _ Hc).
  destruct (length st); [lia|]. simpl. rewrite Hc. simpl. by rewrite Hrs.
Qed.

Lemma xOffset_fuel_row n st r re ls c cw :
  st !! r = Some re → rows re = None → column re = None → leaves re = Some ls →
  container re = Some c → _width st c = Ok cw →
  xOffset_fuel (S n) st r = Ok (row_offset cw).
Proof.
  intros Hr Hrows Hcol Hls Hc Hcw. simpl. rewrite Hr. simpl.
  rewrite Hrows, Hcol, Hls, Hc. simpl. rewrite Hcw. simpl.
  unfold row_offset. by destruct (decide (unit cw = "px")).
Qed.

Lemma xOffset_fuel_leaf n st l le r re ls rx rw :
  st !! l = Some le → rows le = None → column le = None → leaves le = None →
  row le = Some r → st !! r = Some re → leaves re = Some ls →
  xOffset_fuel n st r = Ok rx → _width st r = Ok rw →
  xOffset_fuel (S n) st l = Ok (leaf_offset rx rw (indexOf l ls)).
Proof.
  intros Hl Hrows Hcol Hls Hr Hre Hrls Hrx Hrw. simpl. rewrite Hl. simpl.
  rewrite Hrows, Hcol, Hls, Hr. simpl. rewrite Hre. simpl.
  rewrite Hrx. simpl. rewrite Hrw. simpl. rewrite Hrls. simpl. done.
Qed.

Lemma xOffset_from_fuel n st i x :
  (n ≤ length st)%nat → xOffset_fuel n st i = Ok x → xOffset st i = Ok x.
Proof. intros Hn. by apply xOffset_fuel_sub; [apply sub_arena_refl|]. Qed.

(** The position of a leaf in its row's sequence. *)
Lemma indexOf_lookup (ls : list nat) (j l : nat) :
  NoDup ls → ls !! j = Some l → indexOf l ls = Z.of_nat j.
Proof.
  intros Hnd. revert j. induction Hnd as [|x ls Hx Hnd IH]; intros j Hj; [done|].
  simpl. destruct j as [|j]; simpl in Hj.
  - injection Hj as ->. by rewrite decide_True.
  - rewrite decide_False.
    + rewrite (IH j Hj). rewrite decide_False by lia. lia.
    + intros ->. apply Hx. by eapply list_elem_of_lookup_2.
Qed.

Lemma indexOf_last (ls : list nat) (l : nat) :
  NoDup ls → l ∈ ls →
  indexOf l ls = Z.of_nat (length ls) - 1 ↔ last ls = Some l.
Proof.
  intros Hnd Hin. apply list_elem_of_lookup in Hin as [j Hj].
  rewrite (indexOf_lookup ls j l Hnd Hj). rewrite last_lookup.
  pose proof (lookup_lt_Some _ _ _ Hj) as Hlt. split.
  - intros Heq. replace (pred (length ls)) with j by lia. done.
  - intros Hlast.
    assert (j = pred (length ls)) as -> by (eapply NoDup_lookup; eauto).
    lia.
Qed.

(** A row, its container and its leaves: every width and offset resolves,
    to the value its role determines. *)
Lemma row_group_geometry k s c r :
  tree_inv k s → is_row_of (events_of s) c r →
  ∃ ce rs cols re ls,
    events_of s !! c = Some ce ∧ rows ce = Some rs ∧
    columns (events_of s) rs = Ok cols ∧
    events_of s !! r = Some re ∧ leaves re = Some ls ∧ NoDup ls ∧ (r ∉ ls) ∧ (c ≠ r) ∧
    (c ∉ ls) ∧
    _width (events_of s) c = Ok (container_width ce cols) ∧
    xOffset (events_of s) c = Ok (mkWidth 0 "") ∧
    _width (events_of s) r = Ok (row_width re (container_width ce cols) ls) ∧
    xOffset (events_of s) r = Ok (row_offset (container_width ce cols)) ∧
    ∀ j l, ls !! j = Some l →
      ∃ le, events_of s !! l = Some le ∧
        _width (events_of s) l
          = Ok (leaf_width le (row_width re (container_width ce cols) ls)) ∧
        xOffset (events_of s) l
          = Ok (leaf_offset (row_offset (container_width ce cols))
                  (row_width re (container_width ce cols) ls) (Z.of_nat j)).
Proof.
  intros Hinv Hrow.
  destruct Hrow as (re & ls & Hr & Hrrows & Hrls & Hrc & Hrrow & Hrcol).
  pose proof (inv_nodes _ _ Hinv r re Hr) as Hnode.
  unfold node_ok in Hnode. rewrite Hrrows, Hrls in Hnode.
  destruct Hnode as (c' & Hc' & _ & _ & (ce & rs & Hc & Hcrows) & Hnd & Hleaves).
  assert (c' = c) as -> by congruence.
  pose proof (inv_nodes _ _ Hinv c ce Hc) as Hnode.
  unfold node_ok in Hnode. rewrite Hcrows in Hnode.
  destruct Hnode as (_ & _ & _ & _ & Hrows).
  destruct (columns_total (events_of s) c rs Hrows) as [cols Hcols].
  assert (c ≠ r) as Hcr by (intros ->; congruence).
  pose proof (lookup_lt_Some _ _ _ Hc) as Hclt.
  pose proof (lookup_lt_Some _ _ _ Hr) as Hrlt.
  assert (∀ n, _width_fuel (S n) (events_of s) c = Ok (container_width ce cols)) as Hwc.
  { intros n. by eapply width_fuel_container. }
  assert (∀ n, _width_fuel (S (S n)) (events_of s) r
               = Ok (row_width re (container_width ce cols) ls)) as Hwr.
  { intros n. by eapply width_fuel_row. }
  assert (_width (events_of s) c = Ok (container_width ce cols)) as Hwc'.
  { apply (_width_from_fuel 1); [lia | apply Hwc]. }
  assert (_width (events_of s) r = Ok (row_width re (container_width ce cols) ls)) as Hwr'.
  { apply (_width_from_fuel 2); [lia | apply Hwr]. }
  assert (∀ n, xOffset_fuel (S n) (events_of s) r = Ok (row_offset (container_width ce cols))) as Hxr.
  { intros n. by eapply xOffset_fuel_row. }
  rewrite Forall_forall in Hleaves.
  exists ce, rs, cols, re, ls. split_and!; try done.
  - intros Hin. destruct (Hleaves r Hin) as (e & He & _ & Hl & _). congruence.
  - intros Hin. destruct (Hleaves c Hin) as (e & He & Hl & _). congruence.
  - by eapply xOffset_container.
  - apply (xOffset_from_fuel 1); [lia | apply Hxr].
  - intros j l Hj.
    destruct (Hleaves l) as (le & Hl & Hlrows & Hlls & Hlc & Hlrow & Hlcol).
    { by eapply list_elem_of_lookup_2. }
    pose proof (lookup_lt_Some _ _ _ Hl) as Hllt.
    assert (l ≠ c) by (intros ->; congruence).
    assert (l ≠ r) by (intros ->; congruence).
    exists le. split_and!; [done| |].
    + apply (_width_from_fuel 3); [lia|].
      eapply width_fuel_leaf; eauto.
    + apply (xOffset_from_fuel 2); [lia|].
      rewrite <- (indexOf_lookup ls j l Hnd Hj).
      eapply xOffset_fuel_leaf; eauto.
Qed.

(** ** The final width, role by role *)



(** ** The widths of a row add up to what the container leaves *)

Lemma Qnat_S n : (Qnat (S n) == Qnat n + 1)%Q.
Proof.
  unfold Qnat. rewrite Nat2Z.inj_succ, <- Z.add_1_r, inject_Z_plus. reflexivity.
Qed.

Lemma Qnat_nonneg n : (0 <= Qnat n)%Q.
Proof. unfold Qnat, Qle. simpl. lia. Qed.

Lemma Qnat_pos n : (1 ≤ n)%nat → (0 < Qnat n)%Q.
Proof. intros Hn. unfold Qnat, Qlt. simpl. lia. Qed.

Lemma sum_widths_const (st : arena) (l : list nat) (w : Width) (acc : Q) :
  (∀ i, i ∈ l → _width st i = Ok w) →
  ∃ total,
    foldR (λ acc i, w ← _width st i; Ok (acc + value w)%Q) acc l = Ok total ∧
    (total == acc + Qnat (length l) * value w)%Q.
Proof.
  revert acc. induction l as [|i l IH]; intros acc Hall; simpl.
  - exists acc. split; [done|]. unfold Qnat. simpl. ring.
  - rewrite (Hall i) by left. simpl.
    destruct (IH (acc + value w)%Q) as (total & -> & Heq).
    { intros j Hj. apply Hall. by right. }
    exists total. split; [done|]. rewrite Heq, Qnat_S. ring.
Qed.




(** ** Horizontal spans *)

Lemma Qnat_le n m : (n ≤ m)%nat → (Qnat n <= Qnat m)%Q.
Proof. intros H. unfold Qnat. rewrite <- Zle_Qle. lia. Qed.

Lemma Qnat_mult_le n m v : (n ≤ m)%nat → (0 <= v)%Q → (Qnat n * v <= Qnat m * v)%Q.
Proof. intros H Hv. apply Qmult_le_compat_r; [by apply Qnat_le | done]. Qed.

Lemma percent_share_bounds cols :
  (1 ≤ cols)%nat → (0 <= 100 / Qnat cols)%Q ∧ (100 / Qnat cols <= 100)%Q.
Proof.
  intros Hc. pose proof (Qnat_pos cols Hc) as Hpos. split.
  - apply Qle_shift_div_l; [done|]. rewrite Qmult_0_l. done.
  - apply Qle_shift_div_r; [done|].
    assert (1 <= Qnat cols)%Q by (apply (Qnat_le 1 cols Hc)). lra.
Qed.

Lemma row_share_nonneg (cwv : Q) n :
  (cwv <= 100)%Q → (0 <= (100 - cwv) / Qnat (row_divisor n))%Q.
Proof.
  intros Hc. apply Qle_shift_div_l.
  - apply Qnat_pos, row_divisor_positive.
  - rewrite Qmult_0_l. lra.
Qed.

(** The [k]-th member of [container :: row :: leaves], without fixed
    widths, lies between the boundaries [cw + (k - 1) * rw] and
    [cw + k * rw]. *)
Lemma member_span k s c r re ls kk m :
  tree_inv k s → is_row_of (events_of s) c r →
  events_of s !! r = Some re → leaves re = Some ls →
  (∀ i e, i ∈ c :: r :: ls → events_of s !! i = Some e → dwidth (data e) = None) →
  (c :: r :: ls) !! kk = Some m →
  ∃ x w cwv rwv,
    xOffset (events_of s) m = Ok x ∧ _width (events_of s) m = Ok w ∧
    (0 <= rwv)%Q ∧
    (value x + value w <= cwv + Qnat kk * rwv)%Q ∧
    (∀ k', (k' < kk)%nat → (cwv + Qnat k' * rwv <= value x)%Q) ∧
    (∀ kk' m', (c :: r :: ls) !! kk' = Some m' →
       ∃ x' w', xOffset (events_of s) m' = Ok x' ∧ _width (events_of s) m' = Ok w' ∧
         (value x' + value w' <= cwv + Qnat kk' * rwv)%Q ∧
         (∀ k', (k' < kk')%nat → (cwv + Qnat k' * rwv <= value x')%Q)).
Proof.
  intros Hinv Hrow Hr Hls Hfix Hm.
  destruct (row_group_geometry _ _ c r Hinv Hrow)
    as (ce & rs & cols & re' & ls' & Hc & Hrs & Hcols & Hr' & Hls' & Hnd & _ & _ & _
        & Hwc & Hxc & Hwr & Hxr & Hleaves).
  assert (re' = re) as -> by congruence.
  assert (ls' = ls) as -> by congruence.
  assert (container_width ce cols = mkWidth (100 / Qnat cols) "%") as Hcw.
  { unfold container_width. rewrite (Hfix c ce); [done| by left | done]. }
  rewrite Hcw in *.
  assert (row_width re (mkWidth (100 / Qnat cols) "%") ls
          = mkWidth ((100 - 100 / Qnat cols) / Qnat (row_divisor ls)) "%") as Hrw.
  { unfold row_width. rewrite (Hfix r re); [done| by right; left | done]. }
  rewrite Hrw in *.
  set (cwv := (100 / Qnat cols)%Q) in *.
  set (rwv := ((100 - cwv) / Qnat (row_divisor ls))%Q) in *.
  destruct (percent_share_bounds cols (columns_positive _ _ _ Hcols)) as [Hc0 Hc100].
  fold cwv in Hc0, Hc100.
  assert (0 <= rwv)%Q as Hrw0 by (by apply row_share_nonneg).
  clearbody rwv. clearbody cwv.
  assert (∀ kk' m', (c :: r :: ls) !! kk' = Some m' →
       ∃ x' w', xOffset (events_of s) m' = Ok x' ∧ _width (events_of s) m' = Ok w' ∧
         (value x' + value w' <= cwv + Qnat kk' * rwv)%Q ∧
         (∀ k', (k' < kk')%nat → (cwv + Qnat k' * rwv <= value x')%Q)) as Hall.
  { intros [|[|j]] m' Hm'; simpl in Hm'.
    - injection Hm' as <-. eexists _, _. split_and!; [done..| |intros; lia].
      simpl. change (Qnat 0) with 0%Q. lra.
    - injection Hm' as <-. eexists _, _. split_and!; [done..| |].
      + unfold row_offset. simpl. change (Qnat 1) with 1%Q. lra.
      + intros k' Hk'. assert (k' = 0)%nat as -> by lia.
        unfold row_offset. simpl. change (Qnat 0) with 0%Q. lra.
    - destruct (Hleaves j m' Hm') as (le & Hle & Hw & Hx).
      assert (dwidth (data le) = None) as Hfl.
      { apply (Hfix m' le); [|done]. right; right. by eapply list_elem_of_lookup_2. }
      unfold leaf_width in Hw. rewrite Hfl in Hw.
      eexists _, _. split_and!; [done..| |].
      + unfold leaf_offset, row_offset. simpl.
        replace (Z.of_nat j + 1) with (Z.of_nat (S j)) by lia. fold (Qnat (S j)).
        rewrite (Qnat_S (S j)). lra.
      + intros k' Hk'. unfold leaf_offset, row_offset. simpl.
        replace (Z.of_nat j + 1) with (Z.of_nat (S j)) by lia. fold (Qnat (S j)).
        pose proof (Qnat_mult_le k' (S j) rwv) as Hle'.
        assert (Qnat k' * rwv <= Qnat (S j) * rwv)%Q by (apply Hle'; [lia | done]).
        lra. }
  destruct (Hall kk m Hm) as (x & w & Hx & Hw & Hhi & Hlo).
  exists x, w, cwv, rwv. split_and!; done.
Qed.




(** * Output assembly *)

Lemma mapR_Forall2 {A B} (f : A → Res B) (l : list A) (out : list B) :
  mapR f l = Ok out → Forall2 (λ x y, f x = Ok y) l out.
Proof.
  revert out. induction l as [|x l IH]; intros out H; simpl in H.
  - injection H as <-. constructor.
  - apply bind_Ok in H as (y & Hy & H). apply bind_Ok in H as (ys & Hys & H).
    injection H as <-. constructor; auto.
Qed.

Lemma styled_event st i y :
  styled st i = Ok y → ∃ e, st !! i = Some e ∧ event y = data e.
Proof.
  unfold styled. intros H. apply bind_Ok in H as (e & He & H). apply deref_Ok in He.
  apply bind_Ok in H as (w & _ & H). apply bind_Ok in H as (x & _ & H).
  injection H as <-. eauto.
Qed.

Lemma styled_outputs (st : arena) (out : list Styled) :
  mapR (styled st) (seq 0 (length st)) = Ok out → map event out = map data st.
Proof.
  intros H. apply mapR_Forall2 in H.
  pose proof (Forall2_length _ _ _ H) as Hlen. rewrite length_seq in Hlen.
  apply list_eq. intros i. rewrite !list_lookup_fmap.
  destruct (decide (i < length st)%nat) as [Hlt|Hge].
  - destruct (lookup_lt_is_Some_2 out i) as [y Hy]; [lia|].
    assert (seq 0 (length st) !! i = Some i) as Hi by (by apply lookup_seq_lt).
    pose proof (Forall2_lookup_lr _ _ _ _ _ _ H Hi Hy) as Hs.
    apply styled_event in Hs as (e & He & Hev).
    rewrite Hy, He. simpl. by rewrite Hev.
  - rewrite !lookup_ge_None_2 by lia. done.
Qed.

Lemma map_data_core (st st' : arena) :
  map core st = map core st' → map data st = map data st'.
Proof.
  intros H. apply (f_equal (map data)) in H.
  rewrite !map_map in H. done.
Qed.

(** The output lists the payloads in render order. *)
Lemma getStyledEvents_payloads events msd sm out :
  getStyledEvents events msd sm = Ok out →
  map event out = map data (sortByRender (map (new_Event sm) events)).
Proof.
  unfold getStyledEvents. intros H. apply bind_Ok in H as (s & Hs & H).
  rewrite <- (cluster_length _ _ _ Hs) in H.
  rewrite (styled_outputs _ _ H).
  apply map_data_core. by eapply cluster_core.
Qed.

Lemma filter_map {A B} (f : A → B) (P : B → Prop) `{∀ x, Decision (P x)} (l : list A) :
  filter P (map f l) = map f (filter (λ a, P (f a)) l).
Proof.
  induction l as [|a l IH]; [done|]. simpl map.
  rewrite !filter_cons, IH. by destruct (decide (P (f a))).
Qed.

Lemma filter_ext_in {A} (P1 P2 : A → Prop)
    `{∀ x, Decision (P1 x)} `{∀ x, Decision (P2 x)} (l : list A) :
  (∀ x, x ∈ l → P1 x ↔ P2 x) → filter P1 l = filter P2 l.
Proof.
  induction l as [|a l IH]; intros Hiff; [done|].
  rewrite !filter_cons, IH by (intros; apply Hiff; by right).
  assert (P1 a ↔ P2 a) as Ha by (apply Hiff; by left).
  destruct (decide (P1 a)), (decide (P2 a)); try done; tauto.
Qed.

Lemma render_order_payloads sm events e :
  e ∈ sortByRender (map (new_Event sm) events) → new_Event sm (data e) = e.
Proof.
  intros He. rewrite <- sortByRender_perm in He.
  apply list_elem_of_fmap in He as (d & -> & _). done.
Qed.

(** C7, as the code has it: events that agree on the grouping key and on
    the start and end instants appear in the output in their input
    order. *)
Theorem getStyledEvents_stable (events : list Data) (msd : Z)
    (slotMetrics : Z → Z → Placement) (out : list Styled) (d : Data) :
  getStyledEvents events msd slotMetrics = Ok out →
  filter (λ d', same_sort_keys (new_Event slotMetrics d) (new_Event slotMetrics d'))
         (map event out)
  = filter (λ d', same_sort_keys (new_Event slotMetrics d) (new_Event slotMetrics d'))
           events.
Proof.
  intros H. rewrite (getStyledEvents_payloads _ _ _ _ H).
  rewrite filter_map.
  rewrite (filter_ext_in _ (same_sort_keys (new_Event slotMetrics d))).
  - rewrite sortByRender_stable, (filter_map (new_Event slotMetrics)), map_map.
    simpl. apply map_id.
  - intros e He. by rewrite (render_order_payloads _ _ _ He).
Qed.

Lemma getStyledEvents_stable_witness :
  ∃ out,
    getStyledEvents twins 1 identity_metrics = Ok out ∧
    filter (λ d', same_sort_keys (new_Event identity_metrics (plain 0 0 10))
                                 (new_Event identity_metrics d'))
           (map event out)
    = filter (λ d', same_sort_keys (new_Event identity_metrics (plain 0 0 10))
                                   (new_Event identity_metrics d'))
             twins.
Proof.
  eexists. split; [vm_compute; reflexivity|].
  apply (getStyledEvents_stable twins 1 identity_metrics _ (plain 0 0 10)).
  vm_compute. reflexivity.
Defined.

(** C7 as stated fails: two events with the same start and end instants
    and the keys "a" and "b", given in this order, come out as "b", "a". *)
Lemma equal_instants_reordered :
  ∃ out,
    getStyledEvents twins_two_keys 1 identity_metrics = Ok out ∧
    filter (λ d', same_instants (new_Event identity_metrics
                                   (keyed 0 0 10 "a" (mkWidth 30 "px")))
                                (new_Event identity_metrics d'))
           (map event out)
    ≠ filter (λ d', same_instants (new_Event identity_metrics
                                     (keyed 0 0 10 "a" (mkWidth 30 "px")))
                                  (new_Event identity_metrics d'))
             twins_two_keys.
Proof.
  eexists. split; [vm_compute; reflexivity|].
  vm_compute. discriminate.
Qed.

(** * Appending an adapter to the arena *)

Lemma find_container_sub st st' msd ev cs o :
  sub_arena st st' →
  find_container st msd ev cs = Ok o → find_container st' msd ev cs = Ok o.
Proof.
  intros Hsub. induction cs as [|c cs IH]; simpl; [done|]. intros H.
  apply bind_Ok in H as (cev & Hc & H). apply deref_Ok in Hc.
  rewrite (Hsub _ _ Hc). simpl. destruct (_ || _); auto.
Qed.

Lemma find_row_sub st st' msd ev rs o :
  sub_arena st st' →
  find_row st msd ev rs = Ok o → find_row st' msd ev rs = Ok o.
Proof.
  intros Hsub. induction rs as [|r rs IH]; simpl; [done|]. intros H.
  apply bind_Ok in H as (rowev & Hr & H). apply deref_Ok in Hr.
  rewrite (Hsub _ _ Hr). simpl. destruct (onSameRow _ _ _); auto.
Qed.

Lemma scan_slots_sub st st' ev m r cs bestCol bestGap sc :
  sub_arena st st' →
  scan_slots st ev m r cs bestCol bestGap = Ok sc →
  scan_slots st' ev m r cs bestCol bestGap = Ok sc.
Proof.
  intros Hsub. revert bestCol bestGap.
  induction cs as [|c cs IH]; intros bestCol bestGap; simpl; [done|]. intros H.
  apply bind_Ok in H as (sr & Hsr & H). rewrite Hsr. simpl.
  destruct (slot sr c); [by apply IH|].
  destruct (decide (r = 0%nat)); [done|].
  apply bind_Ok in H as (prev & Hprev & H). rewrite Hprev. simpl.
  apply bind_Ok in H as (above & Habove & H). rewrite Habove. simpl.
  apply bind_Ok in H as (aboveev & Hev & H). apply deref_Ok in Hev.
  rewrite (Hsub _ _ Hev). simpl.
  destruct (decide (_ > _)); by apply IH.
Qed.

Lemma place_rows_S fuel st ev i m r :
  place_rows (S fuel) st ev i m r =
  if decide (r ≤ length m)%nat then
    sc ← scan_slots st ev
           (if decide (r = length m) then m ++ [[None; None; None]] else m)
           r [0; 1; 2]%nat None (-99999);
    match sc with
    | Placed c =>
        Ok (set_slot (if decide (r = length m) then m ++ [[None; None; None]] else m)
              r c i, Some c)
    | Best (Some c) _ =>
        Ok (set_slot (if decide (r = length m) then m ++ [[None; None; None]] else m)
              r c i, Some c)
    | Best None _ =>
        place_rows fuel st ev i
          (if decide (r = length m) then m ++ [[None; None; None]] else m) (S r)
    end
  else Ok (m, None).
Proof. reflexivity. Qed.

Lemma place_rows_sub fuel st st' ev i m r res :
  sub_arena st st' →
  place_rows fuel st ev i m r = Ok res → place_rows fuel st' ev i m r = Ok res.
Proof.
  intros Hsub. revert m r. induction fuel as [|fuel IH]; intros m r; [done|].
  rewrite !place_rows_S.
  destruct (decide (r ≤ length m)%nat); [|done]. intros H.
  apply bind_Ok in H as (sc & Hsc & H).
  rewrite (scan_slots_sub _ _ _ _ _ _ _ _ _ Hsub Hsc). simpl.
  destruct sc as [c|[c|] g]; try done. by apply IH.
Qed.

Lemma upd_app (f : Event → Event) (i : nat) (st ext : arena) :
  (i < length st)%nat → upd f i (st ++ ext) = upd f i st ++ ext.
Proof. intros Hi. unfold upd. by apply alter_app_l. Qed.

(** A turn that succeeds does the same when further adapters follow in
    the arena. *)
Lemma step_app msd st cs named k s' ext :
  step msd (mkState st cs named) k = Ok s' →
  step msd (mkState (st ++ ext) cs named) k
  = Ok (mkState (events_of s' ++ ext) (containerEvents s') (namedContainerEvents s')).
Proof.
  pose proof (sub_arena_app st ext) as Hsub.
  unfold step. simpl. intros H.
  apply bind_Ok in H as (ev & Hk & H). apply deref_Ok in Hk.
  pose proof (lookup_lt_Some _ _ _ Hk) as Hklt.
  rewrite (Hsub _ _ Hk). simpl.
  destruct (eventType ev) as [key|].
  - destruct (named !! key) as [m|].
    + apply bind_Ok in H as ([m' col] & Hp & H).
      rewrite (place_rows_sub _ _ _ _ _ _ _ _ Hsub Hp). simpl.
      injection H as <-. simpl. destruct col; [by rewrite upd_app | done].
    + injection H as <-. simpl. by rewrite upd_app.
  - apply bind_Ok in H as (found & Hf & H).
    rewrite (find_container_sub _ _ _ _ _ _ Hsub Hf). simpl.
    destruct found as [c|]; [|injection H as <-; simpl; by rewrite upd_app].
    rewrite upd_app by done.
    pose proof (sub_arena_app (upd (set_container c) k st) ext) as Hsub1.
    apply bind_Ok in H as (cev & Hc & H). apply deref_Ok in Hc.
    rewrite (Hsub1 _ _ Hc). simpl.
    apply bind_Ok in H as (rs & Hrs & H). rewrite Hrs. simpl.
    apply bind_Ok in H as (found_row & Hfr & H).
    rewrite (find_row_sub _ _ _ _ _ _ Hsub1 Hfr). simpl.
    pose proof (lookup_lt_Some _ _ _ Hc) as Hclt. rewrite length_upd in Hclt.
    destruct found_row as [r|].
    + apply bind_Ok in H as (rowev & Hr & H). apply deref_Ok in Hr.
      rewrite (Hsub1 _ _ Hr). simpl.
      apply bind_Ok in H as (ls & Hls & H). rewrite Hls. simpl.
      injection H as <-. simpl.
      pose proof (lookup_lt_Some _ _ _ Hr) as Hrlt. rewrite length_upd in Hrlt.
      rewrite !upd_app by (rewrite ?length_upd; done). done.
    + injection H as <-. simpl.
      rewrite !upd_app by (rewrite ?length_upd; done). done.
Qed.

Lemma step_length msd s k s' :
  step msd s k = Ok s' → length (events_of s') = length (events_of s).
Proof.
  intros H. apply step_core in H.
  by rewrite <- (length_map core), H, length_map.
Qed.

Lemma loop_app msd st cs named k n s' ext :
  foldR (step msd) (mkState st cs named) (seq k n) = Ok s' →
  foldR (step msd) (mkState (st ++ ext) cs named) (seq k n)
  = Ok (mkState (events_of s' ++ ext) (containerEvents s') (namedContainerEvents s')).
Proof.
  revert st cs named k. induction n as [|n IH]; intros st cs named k; simpl.
  - intros [= <-]. done.
  - intros H. apply bind_Ok in H as (s1 & H1 & H).
    rewrite (step_app _ _ _ _ _ _ ext H1). simpl.
    destruct s1 as [st1 cs1 named1]. by apply IH.
Qed.

Lemma mapR_app {A B} (f : A → Res B) (l1 l2 : list A) :
  mapR f (l1 ++ l2) = ys1 ← mapR f l1; ys2 ← mapR f l2; Ok (ys1 ++ ys2).
Proof.
  induction l1 as [|x l1 IH]; simpl.
  - by destruct (mapR f l2).
  - destruct (f x); simpl; try done. rewrite IH.
    destruct (mapR f l1); simpl; try done. by destruct (mapR f l2).
Qed.

Lemma mapR_mono {A B} (f g : A → Res B) (l : list A) (out : list B) :
  (∀ x y, f x = Ok y → g x = Ok y) → mapR f l = Ok out → mapR g l = Ok out.
Proof.
  intros Hfg. revert out. induction l as [|x l IH]; intros out; simpl; [done|].
  intros H. apply bind_Ok in H as (y & Hy & H). apply bind_Ok in H as (ys & Hys & H).
  by rewrite (Hfg _ _ Hy), (IH _ Hys).
Qed.

Lemma styled_sub st st' i y :
  sub_arena st st' → styled st i = Ok y → styled st' i = Ok y.
Proof.
  intros Hsub. unfold styled. intros H.
  apply bind_Ok in H as (ev & Hev & H). apply deref_Ok in Hev.
  rewrite (Hsub _ _ Hev). simpl.
  apply bind_Ok in H as (w & Hw & H). rewrite (width_sub _ _ _ _ Hsub Hw). simpl.
  apply bind_Ok in H as (x & Hx & H). by rewrite (xOffset_sub _ _ _ _ Hsub Hx).
Qed.

Lemma find_container_none st msd ev cs :
  Forall (λ c, ∃ cev, st !! c = Some cev ∧ end_ cev ≤ start ev ∧
                      msd ≤ Z.abs (start ev - start cev)) cs →
  find_container st msd ev cs = Ok None.
Proof.
  induction 1 as [|c cs (cev & Hc & Hend & Hstart) _ IH]; simpl; [done|].
  rewrite Hc. simpl.
  rewrite bool_decide_eq_false_2 by lia.
  rewrite bool_decide_eq_false_2 by lia. done.
Qed.

(** A fresh adapter that has just become a container resolves its
    style. *)
Lemma styled_new_container (st : arena) (ev : Event) :
  ∃ se, styled (st ++ [set_rows [] ev]) (length st) = Ok se ∧ event se = data ev.
Proof.
  unfold styled, width, xOffset, _width.
  rewrite length_app, Nat.add_1_r. simpl.
  rewrite list_lookup_middle by done. simpl.
  destruct (dwidth (data ev)) as [w|]; simpl.
  - destruct (decide (unit w ≠ "%")); simpl; eauto.
  - eauto.
Qed.

Lemma arena_entry_origin msd R s i cev :
  cluster msd R = Ok s → events_of s !! i = Some cev →
  ∃ x, x ∈ R ∧ start cev = start x ∧ end_ cev = end_ x.
Proof.
  intros Hcl Hi. apply cluster_core in Hcl.
  destruct (core_lookup _ _ _ _ Hcl Hi) as (x & Hx & Hcore).
  exists x. split; [by eapply list_elem_of_lookup_2|].
  injection Hcore as ? ? _. done.
Qed.

Lemma cluster_append msd R pe s :
  cluster msd R = Ok s →
  eventType pe = None →
  Forall (λ x, end_ x ≤ start pe ∧ msd ≤ Z.abs (start pe - start x)) R →
  Forall fresh R →
  cluster msd (R ++ [pe])
  = Ok (mkState (events_of s ++ [set_rows [] pe])
          (containerEvents s ++ [length R]) (namedContainerEvents s)).
Proof.
  intros Hcl Hk Hfar Hfresh.
  pose proof (cluster_tree _ _ _ Hfresh Hcl) as Hinv.
  pose proof (cluster_length _ _ _ Hcl) as Hlen.
  unfold cluster. rewrite length_app. simpl length.
  rewrite seq_app, foldR_app. simpl seq.
  rewrite (loop_app _ _ _ _ _ _ _ [pe] Hcl). simpl.
  unfold step. simpl. rewrite <- Hlen.
  rewrite list_lookup_middle by done. simpl. rewrite Hk.
  rewrite find_container_none.
  - simpl. unfold upd.
    rewrite <- (Nat.add_0_r (length (events_of s))), alter_app_r. simpl.
    by rewrite Nat.add_0_r.
  - eapply Forall_impl; [apply (inv_containers _ _ Hinv)|].
    intros c (cev & rs & Hc & _). exists cev. split; [by apply lookup_app_l_Some|].
    destruct (arena_entry_origin _ _ _ _ _ Hcl Hc) as (x & Hx & -> & ->).
    rewrite Forall_forall in Hfar. by apply Hfar.
Qed.

(** * Named group matrices *)

Lemma three_slots (sr : slot_row) :
  length sr = 3%nat → ∃ a b c, sr = [a; b; c].
Proof.
  destruct sr as [|a [|b [|c [|d sr]]]]; simpl; try lia. eauto.
Qed.

Lemma full_three a b c : full [a; b; c] ↔ is_Some a ∧ is_Some b ∧ is_Some c.
Proof.
  unfold full, slot. split.
  - intros H. split_and!; [apply (H 0%nat) | apply (H 1%nat) | apply (H 2%nat)]; lia.
  - intros (Ha & Hb & Hc) [|[|[|n]]] Hn; simpl; try done. lia.
Qed.

(** The column loop on slot row 0: the first empty slot, if any. *)
Lemma scan_row0 st ev (m : matrix) sr :
  m !! 0%nat = Some sr → length sr = 3%nat →
  ∃ sc, scan_slots st ev m 0 [0; 1; 2]%nat None (-99999) = Ok sc ∧
    ((∃ c, sc = Placed c ∧ (c < 3)%nat ∧ slot sr c = None) ∨
     (∃ g, sc = Best None g ∧ full sr)).
Proof.
  intros Hm Hlen. destruct (three_slots sr Hlen) as (a & b & c & ->).
  simpl. rewrite Hm. simpl.
  destruct a as [a|]; simpl.
  2:{ eexists. split; [done|]. left. exists 0%nat. split_and!; [done | lia | done]. }
  destruct b as [b|]; simpl.
  2:{ eexists. split; [done|]. left. exists 1%nat. split_and!; [done | lia | done]. }
  destruct c as [c|]; simpl.
  2:{ eexists. split; [done|]. left. exists 2%nat. split_and!; [done | lia | done]. }
  eexists. split; [done|]. right. eexists. split; [done|].
  apply full_three. split_and!; by eexists.
Qed.

(** The column loop on a later slot row, below a full one: an empty slot
    with the greatest gap, if there is an empty slot. *)
Lemma scan_rowS st ev (m : matrix) r sr prev :
  r ≠ 0%nat → m !! r = Some sr → length sr = 3%nat →
  m !! (r - 1)%nat = Some prev → length prev = 3%nat → full prev →
  (∀ c j, slot prev c = Some j →
          ∃ e, st !! j = Some e ∧ start ev - end_ e > -99999) →
  ∃ sc, scan_slots st ev m r [0; 1; 2]%nat None (-99999) = Ok sc ∧
    ((∃ c g, sc = Best (Some c) g ∧ (c < 3)%nat ∧ slot sr c = None) ∨
     (∃ g, sc = Best None g ∧ full sr)).
Proof.
  intros Hr Hm Hlen Hprev Hplen Hfull Hgap.
  destruct (three_slots sr Hlen) as (a & b & c & ->).
  destruct (three_slots prev Hplen) as (p0 & p1 & p2 & ->).
  apply full_three in Hfull as ([j0 ->] & [j1 ->] & [j2 ->]).
  destruct (Hgap 0%nat j0 eq_refl) as (e0 & He0 & Hg0).
  destruct (Hgap 1%nat j1 eq_refl) as (e1 & He1 & Hg1).
  destruct (Hgap 2%nat j2 eq_refl) as (e2 & He2 & Hg2).
  simpl. rewrite Hm, Hprev. simpl. rewrite !decide_False by done.
  rewrite He0, He1, He2. simpl.
  destruct a as [a|], b as [b|], c as [c|]; simpl;
    repeat (case_decide; simpl); try lia;
    try (eexists; split; [done|]; left;
         first [ by exists 2%nat; eexists; split_and!; [done | lia | done]
               | by exists 1%nat; eexists; split_and!; [done | lia | done]
               | by exists 0%nat; eexists; split_and!; [done | lia | done] ]).
  eexists. split; [done|]. right. eexists. split; [done|].
  apply full_three. split_and!; by eexists.
Qed.

Lemma lookup_set_slot (m : matrix) r c i r' :
  set_slot m r c i !! r' =
  if decide (r = r') then (λ sr, <[c := Some i]> sr) <$> m !! r' else m !! r'.
Proof.
  unfold set_slot. destruct (decide (r = r')) as [->|Hne].
  - apply list_lookup_alter_eq.
  - by apply list_lookup_alter_ne.
Qed.

Lemma slot_insert (sr : slot_row) c i c' :
  (c < length sr)%nat →
  slot (<[c := Some i]> sr) c' = if decide (c = c') then Some i else slot sr c'.
Proof.
  intros Hc. unfold slot. destruct (decide (c = c')) as [->|Hne].
  - by rewrite list_lookup_insert_eq.
  - by rewrite list_lookup_insert_ne.
Qed.

Lemma matrix_ok_push n (m : matrix) :
  matrix_ok n m → (∀ r sr, m !! r = Some sr → full sr) →
  matrix_ok n (m ++ [[None; None; None]]).
Proof.
  intros (Hne & Hlen & Hfull & Hin) Hall. split_and!.
  - by destruct m.
  - apply Forall_app. split; [done|]. by repeat constructor.
  - intros r sr Hr Hlt. rewrite length_app in Hlt. simpl in Hlt.
    rewrite lookup_app_l in Hr by lia. eauto.
  - intros r sr c j Hr Hs. apply lookup_app_Some in Hr as [Hr|[_ Hr]]; [eauto|].
    destruct (r - length m)%nat as [|k]; simpl in Hr; [|done].
    injection Hr as <-. by destruct c as [|[|[|c]]].
Qed.

(** Writing an adapter into an empty slot. *)
Lemma set_slot_ok n (m : matrix) r sr c i :
  matrix_ok n m → m !! r = Some sr → (c < 3)%nat → slot sr c = None → (i < n)%nat →
  matrix_ok n (set_slot m r c i) ∧
  (∃ sr', set_slot m r c i !! r = Some sr' ∧ slot sr' c = Some i) ∧
  (∀ r' sr0 c' j, m !! r' = Some sr0 → slot sr0 c' = Some j →
     ∃ sr', set_slot m r c i !! r' = Some sr' ∧ slot sr' c' = Some j).
Proof.
  intros (Hne & Hlen & Hfull & Hin) Hr Hc Hempty Hi.
  assert (length sr = 3%nat) as Hsr.
  { rewrite Forall_forall in Hlen. apply Hlen. by eapply list_elem_of_lookup_2. }
  split_and!.
  - split_and!.
    + unfold set_slot. intros H. apply (f_equal length) in H.
      rewrite length_alter in H. by destruct m.
    + unfold set_slot. apply Forall_alter; [done|].
      intros sr0 Hsr0. rewrite length_insert. congruence.
    + intros r' sr' Hr' Hlt. unfold set_slot in Hlt. rewrite length_alter in Hlt.
      rewrite lookup_set_slot in Hr'. destruct (decide (r = r')) as [<-|]; [|eauto].
      rewrite Hr in Hr'. injection Hr' as <-.
      destruct (Hfull r sr Hr Hlt c Hc) as [j Hj]. congruence.
    + intros r' sr' c' j Hr' Hs. rewrite lookup_set_slot in Hr'.
      destruct (decide (r = r')) as [<-|]; [|eauto].
      rewrite Hr in Hr'. injection Hr' as <-.
      rewrite slot_insert in Hs by lia.
      destruct (decide (c = c')); [congruence | eauto].
  - exists (<[c := Some i]> sr). rewrite lookup_set_slot, decide_True, Hr by done.
    split; [done|]. rewrite slot_insert by lia. by rewrite decide_True.
  - intros r' sr0 c' j Hr' Hs. rewrite lookup_set_slot.
    destruct (decide (r = r')) as [<-|]; [|eauto].
    rewrite Hr'. simpl. eexists. split; [done|].
    assert (sr0 = sr) as -> by congruence.
    rewrite slot_insert by lia. destruct (decide (c = c')) as [<-|]; [congruence|done].
Qed.

(** The row loop always places the event, provided no gap reaches the
    sentinel: in the first slot row that has an empty slot, or in a new
    slot row pushed for it. *)
Lemma place_rows_total fuel st ev i (m : matrix) r :
  matrix_ok (length st) m → (i < length st)%nat →
  (∀ j e, st !! j = Some e → start ev - end_ e > -99999) →
  (r ≤ length m)%nat →
  (∀ r' sr, (r' < r)%nat → m !! r' = Some sr → full sr) →
  (length m - r + 1 ≤ fuel)%nat →
  ∃ m' c,
    place_rows fuel st ev i m r = Ok (m', Some c) ∧ (c < 3)%nat ∧
    matrix_ok (length st) m' ∧
    (∃ r' sr, m' !! r' = Some sr ∧ slot sr c = Some i) ∧
    (∀ r' sr c' j, m !! r' = Some sr → slot sr c' = Some j →
       ∃ sr', m' !! r' = Some sr' ∧ slot sr' c' = Some j).
Proof.
  intros Hok Hi Hgap. revert r.
  induction fuel as [|fuel IH]; intros r Hr Hfull Hfuel; [lia|].
  rewrite place_rows_S. rewrite decide_True by done.
  set (m1 := if decide (r = length m) then m ++ [[None; None; None]] else m).
  assert (matrix_ok (length st) m1) as Hok1.
  { unfold m1. destruct (decide (r = length m)) as [->|]; [|done].
    apply matrix_ok_push; [done|]. intros r' sr Hr'. eapply Hfull; [|done].
    by eapply lookup_lt_Some. }
  assert (∃ sr, m1 !! r = Some sr ∧
                (r = length m → sr = [None; None; None])) as (sr & Hsr & Hnew).
  { unfold m1. destruct (decide (r = length m)) as [->|Hne].
    - exists [None; None; None]. split; [|done].
      rewrite lookup_app_r by done. by rewrite Nat.sub_diag.
    - destruct (lookup_lt_is_Some_2 m r) as [sr Hsr]; [lia|].
      exists sr. split; [done|]. intros. lia. }
  assert (length sr = 3%nat) as Hlen.
  { destruct Hok1 as (_ & Hl & _). rewrite Forall_forall in Hl. apply Hl.
    by eapply list_elem_of_lookup_2. }
  assert (∀ r' sr0 c' j, m !! r' = Some sr0 → slot sr0 c' = Some j →
            ∃ sr', m1 !! r' = Some sr' ∧ slot sr' c' = Some j) as Hkeep1.
  { intros r' sr0 c' j Hr' Hs. exists sr0. split; [|done].
    unfold m1. destruct (decide (r = length m)); [|done]. by apply lookup_app_l_Some. }
  assert (∃ sc, scan_slots st ev m1 r [0; 1; 2]%nat None (-99999) = Ok sc ∧
            ((∃ c, (sc = Placed c ∨ ∃ g, sc = Best (Some c) g) ∧
                   (c < 3)%nat ∧ slot sr c = None) ∨
             (∃ g, sc = Best None g ∧ full sr))) as (sc & Hsc & Hcases).
  { destruct (decide (r = 0%nat)) as [->|Hr0].
    - destruct (scan_row0 st ev m1 sr Hsr Hlen) as (sc & Hsc & [(c & Hc & ?)|?]);
        exists sc; (split; [done|]); [left; exists c; split; [by left|done] | by right].
    - assert (r - 1 < length m)%nat as Hprev by lia.
      destruct (lookup_lt_is_Some_2 m (r - 1)) as [prev Hp]; [done|].
      assert (m1 !! (r - 1)%nat = Some prev) as Hp1.
      { unfold m1. destruct (decide (r = length m)); [|done]. by apply lookup_app_l_Some. }
      assert (full prev) as Hpf by (apply (Hfull (r - 1)%nat); [lia | done]).
      assert (length prev = 3%nat) as Hpl.
      { destruct Hok as (_ & Hl & _). rewrite Forall_forall in Hl. apply Hl.
        by eapply list_elem_of_lookup_2. }
      destruct (scan_rowS st ev m1 r sr prev Hr0 Hsr Hlen Hp1 Hpl Hpf)
        as (sc & Hsc & [(c & g & Hc & ?)|?]).
      { intros c j Hj. destruct Hok as (_ & _ & _ & Hin).
        destruct (lookup_lt_is_Some_2 st j) as [e He]; [by eapply Hin|].
        exists e. split; [done|]. by eapply Hgap. }
      + exists sc. split; [done|]. left. exists c. split; [right; eauto|done].
      + exists sc. split; [done|]. by right. }
  rewrite Hsc. simpl.
  destruct Hcases as [(c & Hform & Hc & Hempty)|(g & -> & Hfullsr)].
  - destruct (set_slot_ok _ m1 r sr c i Hok1 Hsr Hc Hempty Hi) as (Hok' & Hnewslot & Hkeep).
    exists (set_slot m1 r c i), c.
    split; [by destruct Hform as [->|[g ->]]|].
    split_and!; [done | done | | ].
    + destruct Hnewslot as (sr' & ? & ?). by exists r, sr'.
    + intros r' sr0 c' j Hr' Hs.
      destruct (Hkeep1 r' sr0 c' j Hr' Hs) as (sr1 & Hr1 & Hs1). eauto.
  - assert (r ≠ length m) as Hne.
    { intros Heq. rewrite (Hnew Heq) in Hfullsr.
      apply full_three in Hfullsr as ([? ?] & _). done. }
    assert (m1 = m) as Hm1 by (unfold m1; by rewrite decide_False).
    rewrite Hm1 in *.
    apply IH; [lia| |lia].
    intros r' sr' Hlt Hr'. destruct (decide (r' = r)) as [->|].
    + assert (sr' = sr) as -> by congruence. done.
    + apply (Hfull r'); [lia | done].
Qed.

(** * The cluster builder always finishes *)

Lemma same_tag_refl st : same_tag st st.
Proof. split; [done|]. intros i e Hi. by exists e. Qed.

Lemma same_tag_trans st1 st2 st3 :
  same_tag st1 st2 → same_tag st2 st3 → same_tag st1 st3.
Proof.
  intros [Hl12 H12] [Hl23 H23]. split; [congruence|].
  intros i e3 H3. destruct (H23 i e3 H3) as (e2 & H2 & Hd2 & Hc2).
  destruct (H12 i e2 H2) as (e1 & H1 & Hd1 & Hc1).
  exists e1. split_and!; congruence.
Qed.

Lemma same_tag_upd (f : Event → Event) j st :
  role_only f → same_tag st (upd f j st).
Proof.
  intros Hf. split; [apply length_upd|]. intros i e'. rewrite lookup_upd.
  destruct (decide (j = i)) as [->|]; [|by exists e'].
  destruct (st !! i) as [e|]; simpl; [|done]. intros [= <-].
  exists e. destruct (Hf e). done.
Qed.

Lemma role_only_set_rows rs : role_only (set_rows rs).
Proof. by intros e. Qed.
Lemma role_only_set_leaves ls : role_only (set_leaves ls).
Proof. by intros e. Qed.
Lemma role_only_set_container c : role_only (set_container c).
Proof. by intros e. Qed.
Lemma role_only_set_row r : role_only (set_row r).
Proof. by intros e. Qed.

(** A turn for an ungrouped event leaves payloads, columns and matrices
    alone. *)
Lemma step_ungrouped_tag msd s k s' ev :
  events_of s !! k = Some ev → eventType ev = None → step msd s k = Ok s' →
  same_tag (events_of s) (events_of s') ∧
  namedContainerEvents s' = namedContainerEvents s.
Proof.
  destruct s as [st cs named]. unfold step. simpl. intros Hk Hty H.
  rewrite Hk in H. simpl in H. rewrite Hty in H.
  apply bind_Ok in H as ([c|] & _ & H).
  - apply bind_Ok in H as (cev & _ & H). apply bind_Ok in H as (rs & _ & H).
    apply bind_Ok in H as ([r|] & _ & H).
    + apply bind_Ok in H as (rowev & _ & H). apply bind_Ok in H as (ls & _ & H).
      injection H as <-. simpl. split; [|done].
      eapply same_tag_trans; [|apply same_tag_upd, role_only_set_row].
      eapply same_tag_trans; [|apply same_tag_upd, role_only_set_leaves].
      apply same_tag_upd, role_only_set_container.
    + injection H as <-. simpl. split; [|done].
      eapply same_tag_trans; [|apply same_tag_upd, role_only_set_rows].
      eapply same_tag_trans; [|apply same_tag_upd, role_only_set_leaves].
      apply same_tag_upd, role_only_set_container.
  - injection H as <-. simpl. split; [|done].
    apply same_tag_upd, role_only_set_rows.
Qed.

Lemma find_container_total st msd ev cs :
  Forall (λ c, is_Some (st !! c)) cs → ∃ o, find_container st msd ev cs = Ok o.
Proof.
  induction 1 as [|c cs [cev Hc] _ IH]; simpl; [by eexists|].
  rewrite Hc. simpl. destruct (_ || _); [by eexists | done].
Qed.

Lemma find_row_total st msd ev rs :
  Forall (λ r, is_Some (st !! r)) rs → ∃ o, find_row st msd ev rs = Ok o.
Proof.
  induction 1 as [|r rs [rowev Hr] _ IH]; simpl; [by eexists|].
  rewrite Hr. simpl. destruct (onSameRow _ _ _); [by eexists | done].
Qed.

(** In a well-formed tree the turn for an ungrouped event never throws. *)
Lemma step_ungrouped_progress msd s k ev :
  tree_inv k s → events_of s !! k = Some ev → eventType ev = None →
  ∃ s', step msd s k = Ok s'.
Proof.
  destruct s as [st cs named]. intros Hinv Hk Hty. simpl in Hk.
  assert (fresh ev) as Hfresh by (apply (inv_fresh _ _ Hinv k ev Hk); done).
  unfold step. simpl. rewrite Hk. simpl. rewrite Hty.
  pose proof (inv_containers _ _ Hinv) as Hcs. simpl in Hcs.
  destruct (find_container_total st msd ev cs) as [found Hfound].
  { eapply Forall_impl; [exact Hcs|]. intros c (ce & rs & Hc & _). by eexists. }
  rewrite Hfound. simpl. destruct found as [c|]; [|by eexists].
  apply find_container_elem in Hfound.
  rewrite Forall_forall in Hcs. destruct (Hcs c Hfound) as (ce & rs & Hc & Hrs).
  assert (k ≠ c) as Hkc.
  { intros ->. destruct Hfresh as (Hr & _). congruence. }
  rewrite (lookup_upd _ k c), decide_False, Hc by done. simpl. rewrite Hrs. simpl.
  pose proof (inv_nodes _ _ Hinv c ce Hc) as Hnode. simpl in Hnode.
  unfold node_ok in Hnode. rewrite Hrs in Hnode.
  destruct Hnode as (_ & _ & _ & _ & Hrows).
  destruct (find_row_total (upd (set_container c) k st) msd ev (reverse rs))
    as [found_row Hfr].
  { apply Forall_reverse. eapply Forall_impl; [exact Hrows|].
    intros r (re & ls & Hr & _). apply lookup_lt_is_Some_2.
    rewrite length_upd. by eapply lookup_lt_Some. }
  rewrite Hfr. simpl. destruct found_row as [r|]; [|by eexists].
  apply find_row_elem in Hfr. rewrite elem_of_reverse in Hfr.
  rewrite Forall_forall in Hrows.
  destruct (Hrows r Hfr) as (re & ls & Hr & _ & Hls & _).
  assert (k ≠ r) as Hkr.
  { intros ->. destruct Hfresh as (_ & Hl & _). congruence. }
  rewrite (lookup_upd _ k r), decide_False, Hr by done. simpl. rewrite Hls. simpl.
  by eexists.
Qed.

Lemma eventType_data e e' : data e' = data e → eventType e' = eventType e.
Proof. unfold eventType. by intros ->. Qed.

Lemma named_inv_ungrouped k s s' ev :
  named_inv k s → events_of s !! k = Some ev → eventType ev = None →
  same_tag (events_of s) (events_of s') →
  namedContainerEvents s' = namedContainerEvents s →
  named_inv (S k) s'.
Proof.
  intros [Hm Hp] Hk Hty [Hlen Htag] Hnamed. split.
  - intros key m. rewrite Hnamed, Hlen. apply Hm.
  - intros i e' key Hi Hlt Hkey.
    destruct (Htag i e' Hi) as (e & He & Hd & Hc).
    rewrite (eventType_data _ _ Hd) in Hkey.
    destruct (decide (i = k)) as [->|Hne]; [congruence|].
    destruct (Hp i e key He) as (c & Hcol & Hc3 & Hplaced); [lia | done |].
    exists c. split; [congruence|]. split; [done|]. by rewrite Hnamed.
Qed.

(** The turn for a grouped event places it, provided no gap reaches the
    sentinel. *)
Lemma step_grouped_total msd k s ev key :
  named_inv k s → gaps_ok (events_of s) →
  events_of s !! k = Some ev → eventType ev = Some key →
  ∃ c named',
    step msd s k
    = Ok (mkState (upd (set_column c) k (events_of s)) (containerEvents s) named') ∧
    named_inv (S k)
      (mkState (upd (set_column c) k (events_of s)) (containerEvents s) named').
Proof.
  destruct s as [st cs named]. intros [Hm Hp] Hgaps Hk Hty. simpl in *.
  pose proof (lookup_lt_Some _ _ _ Hk) as Hklt.
  unfold step. simpl. rewrite Hk. simpl. rewrite Hty.
  assert (∀ c named', 
            (∀ i e key0 c0, st !! i = Some e → (i < k)%nat → eventType e = Some key0 →
               placed_in (mkState st cs named) key0 i c0 →
               placed_in (mkState (upd (set_column c) k st) cs named') key0 i c0) →
            (∀ key0 m0, named' !! key0 = Some m0 → matrix_ok (length st) m0) →
            placed_in (mkState (upd (set_column c) k st) cs named') key k c →
            named_inv (S k) (mkState (upd (set_column c) k st) cs named')) as Hgoal.
  { intros c named' Hold Hmat Hnew. split; simpl.
    - intros key0 m0. rewrite length_upd. apply Hmat.
    - intros i e' key0. rewrite lookup_upd.
      destruct (decide (k = i)) as [<-|Hne].
      + rewrite Hk. simpl. intros [= <-] _ Hkey. exists c. split; [done|].
        assert (key0 = key) as -> by (unfold eventType in *; simpl in *; congruence).
        done.
      + intros Hi Hlt Hkey. destruct (Hp i e' key0 Hi) as (c0 & Hcol & Hpl); [lia|done|].
        exists c0. split; [done|]. eapply Hold; eauto. lia. }
  destruct (named !! key) as [m|] eqn:Hnamed.
  - destruct (place_rows_total (length m + 2) st ev k m 0)
      as (m' & c & Hplace & Hc & Hok' & (r' & sr & Hr' & Hslot) & Hkeep).
    + by eapply Hm.
    + done.
    + intros j e He. by eapply Hgaps.
    + lia.
    + intros; lia.
    + lia.
    + rewrite Hplace. simpl. eexists _, _. split; [done|]. apply Hgoal.
      * intros i e key0 c0 _ _ _ (Hc0 & m0 & r0 & sr0 & Hm0 & Hr0 & Hs0).
        split; [done|]. simpl in *. rewrite lookup_insert.
        destruct (decide (key = key0)) as [<-|]; [|by eexists _, _, _].
        assert (m0 = m) as -> by congruence.
        destruct (Hkeep r0 sr0 c0 i Hr0 Hs0) as (sr1 & Hr1 & Hs1).
        by eexists _, _, _.
      * intros key0 m0. rewrite lookup_insert.
        destruct (decide (key = key0)) as [<-|]; [by intros [= <-] | apply Hm].
      * split; [done|]. simpl. exists m', r', sr.
        by rewrite lookup_insert, decide_True.
  - eexists _, _. split; [done|]. apply Hgoal.
    + intros i e key0 c0 _ _ _ (Hc0 & m0 & r0 & sr0 & Hm0 & Hr0 & Hs0).
      split; [done|]. simpl in *. rewrite lookup_insert.
      destruct (decide (key = key0)) as [<-|]; [congruence | by eexists _, _, _].
    + intros key0 m0. rewrite lookup_insert.
      destruct (decide (key = key0)) as [<-|]; [|apply Hm].
      intros [= <-]. split_and!.
      * done.
      * by repeat constructor.
      * intros r sr _ Hlt. simpl in Hlt. lia.
      * intros [|r] sr c j Hr Hs; simpl in Hr; [|done]. injection Hr as <-.
        destruct c as [|[|[|c]]]; simpl in Hs; try done. by injection Hs as <-.
    + split; [lia|]. simpl. exists [[Some k; None; None]], 0%nat, [Some k; None; None].
      by rewrite lookup_insert, decide_True.
Qed.

Lemma gaps_ok_core st st' : map core st = map core st' → gaps_ok st → gaps_ok st'.
Proof.
  intros Hcore Hg i j a b Ha Hb. symmetry in Hcore.
  destruct (core_lookup _ _ _ _ Hcore Ha) as (a0 & Ha0 & Hca).
  destruct (core_lookup _ _ _ _ Hcore Hb) as (b0 & Hb0 & Hcb).
  injection Hca as Hsa _. injection Hcb as _ Heb _.
  rewrite <- Hsa, <- Heb. by eapply Hg.
Qed.

(** Every turn succeeds and keeps both parts of the invariant. *)
Lemma step_total msd k s :
  tree_inv k s → named_inv k s → gaps_ok (events_of s) →
  (k < length (events_of s))%nat →
  ∃ s', step msd s k = Ok s' ∧
        tree_inv (S k) s' ∧ named_inv (S k) s' ∧ gaps_ok (events_of s') ∧
        length (events_of s') = length (events_of s).
Proof.
  intros Htree Hnamed Hgaps Hk.
  destruct (lookup_lt_is_Some_2 _ _ Hk) as [ev Hev].
  assert (∃ s', step msd s k = Ok s' ∧ named_inv (S k) s') as (s' & Hstep & Hn').
  { destruct (eventType ev) as [key|] eqn:Hty.
    - destruct (step_grouped_total msd k s ev key) as (c & named' & ? & ?); eauto.
    - destruct (step_ungrouped_progress msd s k ev Htree Hev Hty) as [s' Hstep].
      exists s'. split; [done|].
      destruct (step_ungrouped_tag _ _ _ _ _ Hev Hty Hstep) as [Htag Heq].
      by eapply named_inv_ungrouped. }
  exists s'. split_and!; [done | by eapply step_tree | done | |by eapply step_length].
  eapply gaps_ok_core; [|exact Hgaps]. symmetry. by eapply step_core.
Qed.

Lemma cluster_total_from msd n k s :
  tree_inv k s → named_inv k s → gaps_ok (events_of s) →
  (k + n = length (events_of s))%nat →
  ∃ s', foldR (step msd) s (seq k n) = Ok s' ∧
        tree_inv (k + n) s' ∧ named_inv (k + n) s'.
Proof.
  revert k s. induction n as [|n IH]; intros k s Htree Hnamed Hgaps Hlen; simpl.
  - exists s. rewrite Nat.add_0_r. done.
  - destruct (step_total msd k s Htree Hnamed Hgaps) as (s1 & Hs & Ht1 & Hn1 & Hg1 & Hl1);
      [lia|].
    rewrite Hs. simpl.
    replace (k + S n)%nat with (S k + n)%nat by lia.
    apply IH; try done. lia.
Qed.

Lemma cluster_total msd R :
  Forall fresh R → gaps_ok R →
  ∃ s, cluster msd R = Ok s ∧ tree_inv (length R) s ∧ named_inv (length R) s.
Proof.
  intros Hfresh Hgaps. unfold cluster.
  apply (cluster_total_from msd (length R) 0 (mkState R [] ∅)); simpl; try done.
  - by apply tree_inv_init.
  - split; simpl; [intros key m; by rewrite lookup_empty | intros; lia].
Qed.

(** ** Every grouped event gets a slot *)

Lemma occupants_length (sr : slot_row) : (length (occupants sr) ≤ length sr)%nat.
Proof.
  unfold occupants, omap. induction sr as [|[j|] sr IH]; simpl; lia.
Qed.

Lemma render_order_gaps sm events :
  (∀ d d', d ∈ events → d' ∈ events →
           start (new_Event sm d) - end_ (new_Event sm d') > -99999) →
  gaps_ok (sortByRender (map (new_Event sm) events)).
Proof.
  intros Hgap i j a b Ha Hb.
  apply list_elem_of_lookup_2 in Ha, Hb.
  rewrite <- sortByRender_perm in Ha, Hb.
  apply list_elem_of_fmap in Ha as (d & -> & Hd).
  apply list_elem_of_fmap in Hb as (d' & -> & Hd'). by apply Hgap.
Qed.




(** ** Four grouped events of one key *)

Lemma step_grouped_first msd st cs (named : gmap string matrix) k ev key :
  st !! k = Some ev → eventType ev = Some key → named !! key = None →
  step msd (mkState st cs named) k
  = Ok (mkState (upd (set_column 0) k st) cs
          (<[key := [[Some k; None; None]]]> named)).
Proof.
  intros Hk Hty Hnamed. unfold step. cbn [events_of namedContainerEvents containerEvents].
  rewrite Hk. cbn [deref mbind Res_bind]. by rewrite Hty, Hnamed.
Qed.

Lemma step_grouped_next msd st cs (named : gmap string matrix) k ev key m m' col :
  st !! k = Some ev → eventType ev = Some key → named !! key = Some m →
  place_rows (length m + 2) st ev k m 0 = Ok (m', Some col) →
  step msd (mkState st cs named) k
  = Ok (mkState (upd (set_column col) k st) cs (<[key := m']> named)).
Proof.
  intros Hk Hty Hnamed Hplace. unfold step.
  cbn [events_of namedContainerEvents containerEvents].
  rewrite Hk. cbn [deref mbind Res_bind]. rewrite Hty, Hnamed, Hplace. done.
Qed.

(** The cluster builder on four events of one key: columns 0, 1 and 2 of
    the first slot row, then a column of a second slot row. *)
Lemma four_keyed_cluster (msd : Z) (a b c d : Event) (key : string) :
  eventType a = Some key → eventType b = Some key →
  eventType c = Some key → eventType d = Some key →
  start d - end_ a > -99999 → start d - end_ b > -99999 →
  start d - end_ c > -99999 → start d - end_ d > -99999 →
  ∃ c3 named,
    (c3 < 3)%nat ∧
    cluster msd [a; b; c; d]
    = Ok (mkState [set_column 0 a; set_column 1 b; set_column 2 c; set_column c3 d]
            [] named).
Proof.
  intros Ha Hb Hc Hd Hga Hgb Hgc Hgd.
  unfold cluster. cbn [length seq foldR].
  erewrite step_grouped_first; [|reflexivity | exact Ha | apply lookup_empty].
  cbn [mbind Res_bind].
  erewrite (step_grouped_next msd _ _ _ 1 b key [[Some 0%nat; None; None]]
              [[Some 0%nat; Some 1%nat; None]] 1);
    [|reflexivity | exact Hb | apply lookup_insert_eq | reflexivity].
  cbn [mbind Res_bind]. rewrite insert_insert_eq.
  erewrite (step_grouped_next msd _ _ _ 2 c key [[Some 0%nat; Some 1%nat; None]]
              [[Some 0%nat; Some 1%nat; Some 2%nat]] 2);
    [|reflexivity | exact Hc | apply lookup_insert_eq | reflexivity].
  cbn [mbind Res_bind]. rewrite insert_insert_eq.
  set (st := upd (set_column 2) 2 _).
  destruct (place_rows_total (length [[Some 0%nat; Some 1%nat; Some 2%nat]] + 2)
              st d 3 [[Some 0%nat; Some 1%nat; Some 2%nat]] 0)
    as (m' & c3 & Hplace & Hc3 & _).
  - split_and!.
    + done.
    + by repeat constructor.
    + intros r sr _ Hlt. simpl in Hlt. lia.
    + intros [|r] sr col j Hr Hs; simpl in Hr; [|done]. injection Hr as <-.
      destruct col as [|[|[|col]]]; simpl in Hs; try done;
        injection Hs as <-; simpl; lia.
  - simpl. lia.
  - intros [|[|[|[|j]]]] e He; simpl in He; try done; injection He as <-; done.
  - simpl. lia.
  - intros; lia.
  - simpl. lia.
  - erewrite (step_grouped_next msd _ _ _ 3 d key _ m' c3);
      [|reflexivity | exact Hd | apply lookup_insert_eq | exact Hplace].
    cbn [mbind Res_bind]. eexists c3, _. split; [done|]. reflexivity.
Qed.

Lemma _width_fixed (st : arena) i e w :
  st !! i = Some e → dwidth (data e) = Some w → _width st i = Ok w.
Proof.
  intros Hi Hw. unfold _width. pose proof (lookup_lt_Some _ _ _ Hi) as Hlen.
  destruct (length st) as [|n]; [lia|]. simpl. rewrite Hi. simpl. by rewrite Hw.
Qed.

Lemma width_fixed (st : arena) i e w :
  st !! i = Some e → dwidth (data e) = Some w → unit w ≠ "%" → width st i = Ok w.
Proof.
  intros Hi Hw Hu. unfold width. rewrite Hi. simpl.
  rewrite (_width_fixed st i e w Hi Hw). simpl. by rewrite decide_True.
Qed.

Lemma xOffset_column (st : arena) i e col w :
  st !! i = Some e → rows e = None → column e = Some col → _width st i = Ok w →
  xOffset st i = Ok (mkWidth ((value w + padding) * Qnat col) (unit w)).
Proof.
  intros Hi Hr Hc Hw. unfold xOffset. pose proof (lookup_lt_Some _ _ _ Hi) as Hlen.
  destruct (length st) as [|n] eqn:E; [lia|]. simpl. rewrite Hi. simpl.
  rewrite Hr, Hc, Hw. done.
Qed.




(** ** Appending a disjoint event *)

Lemma matrix_ok_mono n n' (m : matrix) :
  (n ≤ n')%nat → matrix_ok n m → matrix_ok n' m.
Proof.
  intros Hn (Hne & Hlen & Hfull & Hin). split_and!; try done.
  intros r sr c j Hr Hs. specialize (Hin r sr c j Hr Hs). lia.
Qed.

Lemma named_inv_app k st cs named ext :
  named_inv k (mkState st cs named) → (k ≤ length st)%nat →
  named_inv k (mkState (st ++ ext) cs named).
Proof.
  intros [Hm Hp] Hk. simpl in *. split; simpl.
  - intros key m Hkey. eapply matrix_ok_mono; [|by eapply Hm].
    rewrite length_app. lia.
  - intros i e key Hi Hlt Hty. rewrite lookup_app_l in Hi by lia.
    destruct (Hp i e key Hi Hlt Hty) as (c & Hc & Hpl). by exists c.
Qed.

Lemma cluster_append_grouped msd R pe key s :
  cluster msd R = Ok s →
  eventType pe = Some key →
  gaps_ok (R ++ [pe]) →
  Forall fresh R →
  ∃ c named',
    cluster msd (R ++ [pe])
    = Ok (mkState (events_of s ++ [set_column c pe]) (containerEvents s) named').
Proof.
  intros Hcl Hk Hgaps Hfresh.
  assert (gaps_ok R) as HgapsR.
  { intros i j a b Ha Hb. apply (Hgaps i j); by apply lookup_app_l_Some. }
  destruct (cluster_total msd R Hfresh HgapsR) as (s0 & Hcl0 & _ & Hnamed).
  assert (s0 = s) as -> by congruence.
  pose proof (cluster_length _ _ _ Hcl) as Hlen.
  pose proof (cluster_core _ _ _ Hcl) as Hcore.
  destruct s as [st cs named]. simpl in *.
  destruct (step_grouped_total msd (length R) (mkState (st ++ [pe]) cs named) pe key)
    as (c & named' & Hstep & _).
  - apply named_inv_app; [done | simpl; lia].
  - simpl. eapply gaps_ok_core; [|exact Hgaps].
    rewrite !map_app. by rewrite Hcore.
  - simpl. rewrite <- Hlen. by apply list_lookup_middle.
  - done.
  - exists c, named'. unfold cluster. rewrite length_app. simpl length.
    rewrite seq_app, foldR_app. simpl seq.
    rewrite (loop_app _ _ _ _ _ _ _ [pe] Hcl). simpl foldR. cbn [mbind Res_bind].
    simpl events_of. simpl containerEvents. simpl namedContainerEvents.
    rewrite Hstep. simpl. unfold upd. rewrite <- Hlen.
    rewrite <- (Nat.add_0_r (length st)), alter_app_r. done.
Qed.

(** A grouped adapter with a fixed width in pixels resolves its style. *)
Lemma styled_new_grouped (st : arena) (pe : Event) (c : nat) (w : Width) :
  dwidth (data pe) = Some w → unit w ≠ "%" → rows pe = None →
  ∃ se, styled (st ++ [set_column c pe]) (length st) = Ok se ∧ event se = data pe.
Proof.
  intros Hw Hu Hr.
  assert ((st ++ [set_column c pe]) !! length st = Some (set_column c pe)) as Hi
    by (by apply list_lookup_middle).
  unfold styled. rewrite Hi. simpl.
  rewrite (width_fixed _ _ _ w Hi Hw Hu). simpl.
  rewrite (xOffset_column _ _ _ c w Hi Hr eq_refl (_width_fixed _ _ _ w Hi Hw)).
  simpl. eauto.
Qed.




(** * The fuel is enough

    [Exhausted] is an artefact of the embedding. It never comes out of the
    cluster builder, nor out of a getter read in a state the cluster
    builder produced: every result of [getStyledEvents] is a list of
    styles or a [TypeError]. *)

Lemma bind_not_exhausted {A B} (m : Res A) (f : A → Res B) :
  m ≠ Exhausted → (∀ a, m = Ok a → f a ≠ Exhausted) → m ≫= f ≠ Exhausted.
Proof. destruct m; simpl; [|done..]. intros _ H. by apply H. Qed.

Lemma deref_not_exhausted {A} (o : option A) : deref o ≠ Exhausted.
Proof. by destruct o. Qed.

Lemma scan_slots_not_exhausted st ev (m : matrix) r cs bestCol bestGap :
  scan_slots st ev m r cs bestCol bestGap ≠ Exhausted.
Proof.
  revert bestCol bestGap. induction cs as [|c cs IH]; intros bestCol bestGap; simpl;
    [done|].
  apply bind_not_exhausted; [apply deref_not_exhausted|]. intros sr _.
  destruct (slot sr c); [apply IH|].
  destruct (decide (r = 0%nat)); [done|].
  apply bind_not_exhausted; [apply deref_not_exhausted|]. intros prev _.
  apply bind_not_exhausted; [apply deref_not_exhausted|]. intros above _.
  apply bind_not_exhausted; [apply deref_not_exhausted|]. intros aboveev _.
  destruct (decide (_ > _)); apply IH.
Qed.

(** Below a slot row that was pushed and left empty, the column loop
    reads the end of an empty slot. *)
Lemma scan_below_empty st ev (m : matrix) r bestCol bestGap :
  m !! S r = Some [None; None; None] → m !! r = Some [None; None; None] →
  scan_slots st ev m (S r) [0; 1; 2]%nat bestCol bestGap = TypeError.
Proof.
  intros Hr Hp. simpl. rewrite Hr. simpl. rewrite Nat.sub_0_r, Hp. done.
Qed.

Lemma place_rows_not_exhausted fuel st ev i (m : matrix) r :
  (r ≤ length m)%nat → (length m - r + 2 ≤ fuel)%nat →
  place_rows fuel st ev i m r ≠ Exhausted.
Proof.
  revert m r. induction fuel as [|fuel IH]; intros m r Hr Hfuel; [lia|].
  rewrite place_rows_S, decide_True by done.
  apply bind_not_exhausted; [apply scan_slots_not_exhausted|].
  intros [c|[c|] g] Hsc; [done..|].
  destruct (decide (r = length m)) as [->|Hne]; [|apply IH; lia].
  destruct fuel as [|fuel]; [lia|].
  rewrite place_rows_S, decide_True by (rewrite length_app; simpl; lia).
  rewrite decide_True by (rewrite length_app; simpl; lia).
  rewrite scan_below_empty; [done| |].
  - rewrite lookup_app_r by (rewrite length_app; simpl; lia).
    rewrite length_app. simpl. by replace (S (length m) - (length m + 1))%nat with 0%nat by lia.
  - rewrite lookup_app_l by (rewrite length_app; simpl; lia).
    rewrite lookup_app_r by done. by rewrite Nat.sub_diag.
Qed.

Lemma find_container_not_exhausted st msd ev cs :
  find_container st msd ev cs ≠ Exhausted.
Proof.
  induction cs as [|c cs IH]; simpl; [done|].
  apply bind_not_exhausted; [apply deref_not_exhausted|]. intros cev _.
  by destruct (_ || _).
Qed.

Lemma find_row_not_exhausted st msd ev rs : find_row st msd ev rs ≠ Exhausted.
Proof.
  induction rs as [|r rs IH]; simpl; [done|].
  apply bind_not_exhausted; [apply deref_not_exhausted|]. intros rowev _.
  by destruct (onSameRow _ _ _).
Qed.

Lemma step_not_exhausted msd s k : step msd s k ≠ Exhausted.
Proof.
  unfold step. apply bind_not_exhausted; [apply deref_not_exhausted|]. intros ev _.
  destruct (eventType ev) as [key|].
  - destruct (namedContainerEvents s !! key) as [m|]; [|done].
    apply bind_not_exhausted; [apply place_rows_not_exhausted; lia|].
    by intros [m' col] _.
  - apply bind_not_exhausted; [apply find_container_not_exhausted|].
    intros [c|] _; [|done].
    apply bind_not_exhausted; [apply deref_not_exhausted|]. intros cev _.
    apply bind_not_exhausted; [apply deref_not_exhausted|]. intros rs _.
    apply bind_not_exhausted; [apply find_row_not_exhausted|].
    intros [r|] _; [|done].
    apply bind_not_exhausted; [apply deref_not_exhausted|]. intros rowev _.
    apply bind_not_exhausted; [apply deref_not_exhausted|]. by intros ls _.
Qed.

Lemma cluster_not_exhausted msd evs : cluster msd evs ≠ Exhausted.
Proof.
  unfold cluster. generalize (mkState evs [] ∅). generalize 0%nat.
  induction (length evs) as [|n IH]; intros k s; simpl; [done|].
  apply bind_not_exhausted; [apply step_not_exhausted|]. intros s' _. apply IH.
Qed.

Lemma columns_fold_not_exhausted (st : arena) (rs : list nat) (m0 : nat) :
  foldR (λ max r,
        rowev ← deref (st !! r);
        ls ← deref (leaves rowev);
        Ok (Nat.max max (length ls + 1))) m0 rs ≠ Exhausted.
Proof.
  revert m0. induction rs as [|r rs IH]; intros m0; simpl; [done|].
  apply bind_not_exhausted; [|intros; apply IH].
  apply bind_not_exhausted; [apply deref_not_exhausted|]. intros rowev _.
  apply bind_not_exhausted; [apply deref_not_exhausted|]. done.
Qed.

Lemma columns_not_exhausted st rs : columns st rs ≠ Exhausted.
Proof.
  unfold columns. apply bind_not_exhausted; [|done].
  apply columns_fold_not_exhausted.
Qed.

(** The role of an adapter in a well-formed tree, with what the getters
    return for the tree's own members. *)
Lemma tree_member_resolves k s i e :
  tree_inv k s → events_of s !! i = Some e →
  rows e = None → (is_Some (leaves e) ∨ is_Some (row e)) →
  (∃ w, _width (events_of s) i = Ok w) ∧ (∃ x, xOffset (events_of s) i = Ok x).
Proof.
  intros Hinv Hi Hrows Hrole.
  pose proof (inv_nodes _ _ Hinv i e Hi) as Hnode.
  unfold node_ok in Hnode. rewrite Hrows in Hnode.
  destruct (leaves e) as [ls|] eqn:Hls.
  - destruct Hnode as (c & Hc & Hrow & Hcol & _).
    assert (is_row_of (events_of s) c i) as Hisrow by (exists e, ls; done).
    destruct (row_group_geometry _ _ c i Hinv Hisrow)
      as (? & ? & ? & ? & ? & _ & _ & _ & _ & _ & _ & _ & _ & _ & _ & _ & Hw & Hx & _).
    eauto.
  - destruct Hrole as [[? ?]|[r Hr]]; [done|]. rewrite Hr in Hnode.
    destruct Hnode as (c & Hc & Hcol & Hisrow & (re & ls & Hre & Hrls & Hin)).
    destruct (row_group_geometry _ _ c r Hinv Hisrow)
      as (? & ? & ? & re' & ls' & _ & _ & _ & Hre' & Hls' & _ & _ & _ & _ & _ & _ & _
          & _ & Hleaves).
    assert (re' = re) as -> by congruence.
    assert (ls' = ls) as -> by congruence.
    apply list_elem_of_lookup in Hin as [j Hj].
    destruct (Hleaves j i Hj) as (le & _ & Hw & Hx). eauto.
Qed.

Lemma tree_width_not_exhausted k s i e :
  tree_inv k s → events_of s !! i = Some e → _width (events_of s) i ≠ Exhausted.
Proof.
  intros Hinv Hi.
  destruct (rows e) as [rs|] eqn:Hrows.
  - unfold _width. pose proof (lookup_lt_Some _ _ _ Hi).
    destruct (length (events_of s)); [lia|]. simpl. rewrite Hi. simpl.
    destruct (dwidth (data e)); [done|]. rewrite Hrows.
    apply bind_not_exhausted; [apply columns_not_exhausted | done].
  - destruct (leaves e) as [ls|] eqn:Hls.
    { destruct (tree_member_resolves _ _ i e Hinv Hi Hrows) as [[w ->] _]; [|done].
      left. rewrite Hls. by eexists. }
    destruct (row e) as [r|] eqn:Hr.
    { destruct (tree_member_resolves _ _ i e Hinv Hi Hrows) as [[w ->] _]; [|done].
      right. rewrite Hr. by eexists. }
    pose proof (inv_nodes _ _ Hinv i e Hi) as Hnode.
    unfold node_ok in Hnode. rewrite Hrows, Hls, Hr in Hnode.
    unfold _width. pose proof (lookup_lt_Some _ _ _ Hi).
    destruct (length (events_of s)); [lia|]. simpl. rewrite Hi. simpl.
    destruct (dwidth (data e)); [done|]. by rewrite Hrows, Hnode.
Qed.

Lemma tree_xOffset_not_exhausted k s i e :
  tree_inv k s → events_of s !! i = Some e → xOffset (events_of s) i ≠ Exhausted.
Proof.
  intros Hinv Hi.
  destruct (rows e) as [rs|] eqn:Hrows.
  - by rewrite (xOffset_container _ _ _ _ Hi Hrows).
  - destruct (leaves e) as [ls|] eqn:Hls.
    { destruct (tree_member_resolves _ _ i e Hinv Hi Hrows) as [_ [x ->]]; [|done].
      left. rewrite Hls. by eexists. }
    destruct (row e) as [r|] eqn:Hr.
    { destruct (tree_member_resolves _ _ i e Hinv Hi Hrows) as [_ [x ->]]; [|done].
      right. rewrite Hr. by eexists. }
    unfold xOffset. pose proof (lookup_lt_Some _ _ _ Hi).
    destruct (length (events_of s)) eqn:Hlen; [lia|]. simpl. rewrite Hi. simpl.
    rewrite Hrows. destruct (column e).
    + apply bind_not_exhausted; [by eapply tree_width_not_exhausted | done].
    + by rewrite Hls, Hr.
Qed.

Lemma mapR_not_exhausted {A B} (f : A → Res B) (l : list A) :
  (∀ x, x ∈ l → f x ≠ Exhausted) → mapR f l ≠ Exhausted.
Proof.
  induction l as [|x l IH]; intros Hf; simpl; [done|].
  apply bind_not_exhausted; [apply Hf; by left|]. intros y _.
  apply bind_not_exhausted; [apply IH; intros; apply Hf; by right | done].
Qed.

(** [getStyledEvents] returns its styles or throws. *)
Lemma getStyledEvents_not_exhausted events msd slotMetrics :
  getStyledEvents events msd slotMetrics ≠ Exhausted.
Proof.
  unfold getStyledEvents.
  apply bind_not_exhausted; [apply cluster_not_exhausted|]. intros s Hcl.
  pose proof (cluster_tree _ _ _ (render_order_fresh slotMetrics events) Hcl) as Hinv.
  pose proof (cluster_length _ _ _ Hcl) as Hlen.
  apply mapR_not_exhausted. intros i Hi. apply elem_of_seq in Hi.
  destruct (lookup_lt_is_Some_2 (events_of s) i) as [e He]; [lia|].
  unfold styled. rewrite He. simpl.
  apply bind_not_exhausted.
  { unfold width. rewrite He. simpl.
    apply bind_not_exhausted; [by eapply tree_width_not_exhausted|]. intros w _.
    destruct (decide (unit w ≠ "%")); [done|].
    destruct (rows e); [done|]. destruct (leaves e); [done|].
    apply bind_not_exhausted; [apply deref_not_exhausted|]. intros r _.
    apply bind_not_exhausted; [apply deref_not_exhausted|]. intros rowev _.
    apply bind_not_exhausted; [apply deref_not_exhausted|]. done. }
  intros w _. apply bind_not_exhausted; [by eapply tree_xOffset_not_exhausted | done].
Qed.

(** * Further properties *)

(** ** One style for each event *)

Lemma styled_fields st i y :
  styled st i = Ok y →
  ∃ e, st !! i = Some e ∧ event y = data e ∧
       style_top (style y) = top e ∧ style_height (style y) = height e.
Proof.
  unfold styled. intros H. apply bind_Ok in H as (e & He & H). apply deref_Ok in He.
  apply bind_Ok in H as (w & _ & H). apply bind_Ok in H as (x & _ & H).
  injection H as <-. eauto.
Qed.

(** X1: The output holds exactly the input's events, one style for each, and
    the vertical placement of each is what [slotMetrics.getRange] gave
    for it. *)
Theorem getStyledEvents_one_style_each (events : list Data) (msd : Z)
    (slotMetrics : Z → Z → Placement) (out : list Styled) :
  getStyledEvents events msd slotMetrics = Ok out →
  Permutation (map event out) events ∧
  Forall (λ y,
            style_top (style y)
            = ptop (slotMetrics (dstart (event y)) (dend (event y))) ∧
            style_height (style y)
            = pheight (slotMetrics (dstart (event y)) (dend (event y)))) out.
Proof.
  intros H. split.
  - rewrite (getStyledEvents_payloads _ _ _ _ H).
    rewrite <- sortByRender_perm, map_map. simpl. by rewrite map_id.
  - unfold getStyledEvents in H. apply bind_Ok in H as (s & Hcl & H).
    apply mapR_Forall2 in H. apply Forall_forall. intros y Hy.
    apply list_elem_of_lookup in Hy as [j Hj].
    destruct (Forall2_lookup_r _ _ _ _ _ H Hj) as (i & Hi & Hst).
    apply styled_fields in Hst as (e & He & -> & -> & ->).
    pose proof (cluster_core _ _ _ Hcl) as Hcore.
    destruct (core_lookup _ _ _ _ Hcore He) as (x & Hx & Hcx).
    apply list_elem_of_lookup_2, render_order_payloads in Hx.
    injection Hcx as _ _ _ _ Htop Hheight Hdata.
    rewrite <- Htop, <- Hheight, <- Hdata, <- Hx. done.
Qed.

Lemma getStyledEvents_one_style_each_witness :
  ∃ out,
    getStyledEvents stacked 1 identity_metrics = Ok out ∧
    Permutation (map event out) stacked ∧
    Forall (λ y,
              style_top (style y)
              = ptop (identity_metrics (dstart (event y)) (dend (event y))) ∧
              style_height (style y)
              = pheight (identity_metrics (dstart (event y)) (dend (event y)))) out.
Proof.
  eexists. split; [vm_compute; reflexivity|].
  apply (getStyledEvents_one_style_each stacked 1 identity_metrics).
  vm_compute. reflexivity.
Defined.

(** ** Grouped events come last, in the order of the initial sort *)

Lemma reorder_turn_ungrouped fuel event rest :
  (reorder (S fuel) (event :: rest) = event :: reorder fuel rest) ∨
  (∃ pre moved post,
     rest = pre ++ moved :: post ∧
     eventType event = None ∧ eventType moved = None ∧
     reorder (S fuel) (event :: rest) = event :: moved :: reorder fuel (pre ++ post)).
Proof.
  simpl. destruct (eventType event) eqn:Ee; [by left|].
  destruct (next_group event rest 0) as [[|i]|] eqn:Hn; [by left| |by left].
  apply next_group_split in Hn as (pre & moved & post & -> & Hi & _ & _ & Hk).
  simpl in Hi. rewrite Hi. right. exists pre, moved, post.
  rewrite list_lookup_middle by done. by rewrite delete_middle.
Qed.

Lemma StronglySorted_impl {A} (R S : A → A → Prop) (l : list A) :
  (∀ a b, R a b → S a b) → StronglySorted R l → StronglySorted S l.
Proof.
  intros HRS. induction 1 as [|x l _ IH Hx]; constructor; [done|].
  eapply Forall_impl; [exact Hx|]. apply HRS.
Qed.

Lemma StronglySorted_app_delete {A} (R : A → A → Prop) (pre post : list A) x :
  StronglySorted R (pre ++ x :: post) → StronglySorted R (pre ++ post).
Proof.
  induction pre as [|y pre IH]; simpl; intros H.
  - by apply StronglySorted_inv in H as [H _].
  - apply StronglySorted_inv in H as [H Hy]. constructor; [by apply IH|].
    rewrite Forall_app in *. destruct Hy as [Hy1 Hy2].
    split; [done|]. by apply Forall_inv_tail in Hy2.
Qed.

Lemma render_precedes_grouped a b : render_precedes a b → grouped_stays a b.
Proof.
  unfold grouped_stays.
  intros [Hk|Hk _|Hk _ _] [k Ha]; rewrite Ha in Hk.
  - destruct (eventType b); [done|]. destruct Hk.
  - by rewrite <- Hk.
  - by rewrite <- Hk.
Qed.

Lemma reorder_grouped_stays fuel l :
  (length l ≤ fuel)%nat →
  StronglySorted grouped_stays l → StronglySorted grouped_stays (reorder fuel l).
Proof.
  revert l. induction fuel as [|fuel IH]; intros [|event rest] Hlen Hs;
    simpl in Hlen; try done; try lia; try constructor.
  destruct (reorder_turn_ungrouped fuel event rest)
    as [->|(pre & moved & post & -> & He & Hm & ->)].
  - apply StronglySorted_inv in Hs as [Hs Hx]. constructor; [apply IH; [lia|done]|].
    by rewrite <- reorder_perm by lia.
  - apply StronglySorted_inv in Hs as [Hs _].
    assert (∀ u (l : list Event), eventType u = None → Forall (grouped_stays u) l)
      as Hfree.
    { intros u l Hu. apply Forall_forall. intros y _ [k Hk]. congruence. }
    constructor; [constructor|]; try by apply Hfree.
    apply IH; [rewrite length_app in *; simpl in *; lia|].
    by apply StronglySorted_app_delete in Hs.
Qed.

Lemma reorder_filter_grouped fuel l :
  (length l ≤ fuel)%nat →
  filter (λ e, is_Some (eventType e)) (reorder fuel l)
  = filter (λ e, is_Some (eventType e)) l.
Proof.
  revert l. induction fuel as [|fuel IH]; intros [|event rest] Hlen;
    simpl in Hlen; try done; try lia.
  destruct (reorder_turn_ungrouped fuel event rest)
    as [->|(pre & moved & post & -> & He & Hm & ->)].
  - rewrite !filter_cons, IH by lia. done.
  - rewrite !filter_cons, IH by (rewrite length_app in *; simpl in *; lia).
    rewrite !filter_app, !filter_cons.
    destruct (decide (is_Some (eventType moved))) as [[k Hk]|]; [congruence|done].
Qed.

(** X2: The render order has every ungrouped event before every grouped one:
    once a grouped event has appeared, only grouped ones follow.  The
    second pass moves ungrouped events only, so the grouped events stand
    in the order the initial sort gave them. *)
Theorem sortByRender_grouped_last (events : list Event) :
  StronglySorted grouped_stays (sortByRender events) ∧
  filter (λ e, is_Some (eventType e)) (sortByRender events)
  = filter (λ e, is_Some (eventType e)) (orderBy compareMultiple events).
Proof.
  unfold sortByRender. split.
  - apply reorder_grouped_stays; [done|].
    apply (StronglySorted_impl (λ a b, compareMultiple a b ≠ Gt)).
    + intros a b H. by apply render_precedes_grouped, compareMultiple_precedes.
    + apply orderBy_sorted;
        [apply compareMultiple_antisym | apply compareMultiple_le_trans].
  - by apply reorder_filter_grouped.
Qed.

(** ** What one turn of the loop changes *)

Lemma opt_grow_trans a b c : opt_grow a b → opt_grow b c → opt_grow a c.
Proof.
  unfold opt_grow. destruct a, b, c; try done.
  intros [t ->] [u ->]. exists (t ++ u). by rewrite app_assoc.
Qed.

Lemma opt_grow_refl a : opt_grow a a.
Proof. destruct a; simpl; [|done]. exists []. by rewrite app_nil_r. Qed.

Lemma grows_trans a b c : grows a b → grows b c → grows a c.
Proof.
  intros (H1 & H2 & H3 & H4 & H5 & H6) (G1 & G2 & G3 & G4 & G5 & G6).
  unfold grows. split_and!; try congruence; by eapply opt_grow_trans.
Qed.

Lemma effect_trans k st1 st2 st3 :
  effect k st1 st2 → effect k st2 st3 → effect k st1 st3.
Proof.
  intros [Hl1 H1] [Hl2 H2]. split; [congruence|].
  intros i e3 H3. destruct (H2 i e3 H3) as (e2 & He2 & Hc2 & Hg2).
  destruct (H1 i e2 He2) as (e1 & He1 & Hc1 & Hg1).
  exists e1. split_and!; [done|congruence|].
  intros Hi. eapply grows_trans; eauto.
Qed.

Lemma effect_upd k j f (st : arena) :
  (∀ e, core (f e) = core e) →
  (∀ e, st !! j = Some e → j ≠ k → grows e (f e)) →
  effect k st (upd f j st).
Proof.
  intros Hcore Hgrow. split; [apply length_upd|].
  intros i e'. rewrite lookup_upd. destruct (decide (j = i)) as [->|Hne].
  - destruct (st !! i) as [e|] eqn:Hi; simpl; [|done]. intros [= <-].
    exists e. split_and!; [done|apply Hcore|]. intros Hik. by apply Hgrow.
  - intros Hi. exists e'. split_and!; [done|done|]. intros _. apply grows_refl.
Qed.

Lemma effect_upd_at k f (st : arena) :
  (∀ e, core (f e) = core e) → effect k st (upd f k st).
Proof. intros Hcore. apply effect_upd; [done|]. by intros e _ []. Qed.

Lemma grows_set_rows e rs t : rows e = Some rs → grows e (set_rows (rs ++ t) e).
Proof.
  intros Hrs. unfold grows. simpl. split_and!; try done.
  - rewrite Hrs. by exists t.
  - apply opt_grow_refl.
Qed.

Lemma grows_set_leaves e ls t : leaves e = Some ls → grows e (set_leaves (ls ++ t) e).
Proof.
  intros Hls. unfold grows. simpl. split_and!; try done.
  - apply opt_grow_refl.
  - rewrite Hls. by exists t.
Qed.

Lemma step_effect msd s k s' :
  step msd s k = Ok s' → effect k (events_of s) (events_of s').
Proof.
  destruct s as [st cs named]. unfold step. simpl. intros H.
  apply bind_Ok in H as (ev & Hk & H).
  destruct (eventType ev).
  - destruct (named !! s).
    + apply bind_Ok in H as ([m' [col|]] & _ & H); injection H as <-; simpl.
      * by apply effect_upd_at.
      * split; [done|]. intros i e' Hi. exists e'. split_and!; try done.
        intros _. apply grows_refl.
    + injection H as <-. simpl. by apply effect_upd_at.
  - apply bind_Ok in H as ([c|] & _ & H).
    + apply bind_Ok in H as (cev & Hcev & H). apply deref_Ok in Hcev.
      apply bind_Ok in H as (rs & Hrs & H). apply deref_Ok in Hrs.
      apply bind_Ok in H as ([r|] & _ & H).
      * apply bind_Ok in H as (rowev & Hrowev & H). apply deref_Ok in Hrowev.
        apply bind_Ok in H as (ls & Hls & H). apply deref_Ok in Hls.
        injection H as <-. simpl.
        eapply effect_trans; [by apply (effect_upd_at k (set_container c))|].
        eapply effect_trans; [|by apply effect_upd_at].
        apply effect_upd; [done|]. intros e He _.
        assert (e = rowev) as -> by congruence. by apply grows_set_leaves.
      * injection H as <-. simpl.
        eapply effect_trans; [by apply (effect_upd_at k (set_container c))|].
        eapply effect_trans; [by apply (effect_upd_at k (set_leaves []))|].
        apply effect_upd; [done|]. intros e He Hck.
        rewrite lookup_upd, decide_False in He by done.
        assert (e = cev) as -> by congruence. by apply grows_set_rows.
    + injection H as <-. simpl. by apply effect_upd_at.
Qed.

(** The column loop returns one of the columns it looked at. *)
Lemma scan_slots_col st ev m r cs b g sc :
  scan_slots st ev m r cs b g = Ok sc →
  match sc with
  | Placed c => c ∈ cs
  | Best (Some c) _ => c ∈ cs ∨ b = Some c
  | Best None _ => True
  end.
Proof.
  revert b g. induction cs as [|c cs IH]; intros b g; simpl.
  - intros [= <-]. destruct b; [by right|done].
  - intros H. apply bind_Ok in H as (sr & _ & H).
    assert (∀ b' g', scan_slots st ev m r cs b' g' = Ok sc →
                     b' = b ∨ b' = Some c →
                     match sc with
                     | Placed c0 => c0 ∈ c :: cs
                     | Best (Some c0) _ => c0 ∈ c :: cs ∨ b = Some c0
                     | Best None _ => True
                     end) as Hrec.
    { intros b' g' H' Hb'. apply IH in H'. destruct sc as [c0|[c0|] g0]; [| |done].
      - by right.
      - destruct H' as [H'| ->]; [left; by right|].
        destruct Hb' as [<-|[= ->]]; [by right|left; by left]. }
    destruct (slot sr c); [eapply Hrec; [exact H|by left]|].
    destruct (decide (r = 0%nat)); [injection H as <-; by left|].
    apply bind_Ok in H as (prev & _ & H). apply bind_Ok in H as (above & _ & H).
    apply bind_Ok in H as (aboveev & _ & H).
    destruct (decide _); (eapply Hrec; [exact H|]); [by right|by left].
Qed.

(** The loop over the slot rows ends with a column: the bound
    [r <= matrix.length] is never what ends it. *)
Lemma place_rows_col fuel st ev i (m m' : matrix) r col :
  place_rows fuel st ev i m r = Ok (m', col) → (r ≤ length m)%nat →
  ∃ c, col = Some c ∧ (c < 3)%nat.
Proof.
  revert m r. induction fuel as [|fuel IH]; intros m r H Hr; [done|].
  rewrite place_rows_S in H. rewrite decide_True in H by done.
  apply bind_Ok in H as (sc & Hsc & H). apply scan_slots_col in Hsc.
  assert (∀ c, c ∈ [0; 1; 2]%nat → (c < 3)%nat) as Hcols.
  { intros c Hc. repeat (apply elem_of_cons in Hc as [->|Hc]; [lia|]).
    by apply elem_of_nil in Hc. }
  destruct sc as [c|[c|] g].
  - injection H as _ <-. eauto.
  - injection H as _ <-. destruct Hsc as [Hsc|]; [eauto|done].
  - apply IH in H; [done|]. destruct (decide (r = length m)) as [->|].
    + rewrite length_app. simpl. lia.
    + lia.
Qed.

(** What the turn for position [k] does to the adapter at [k]: a grouped
    event gets a column and nothing else, an ungrouped one gets a
    role. *)
Lemma step_at msd s k s' ev :
  step msd s k = Ok s' → events_of s !! k = Some ev →
  ∃ e', events_of s' !! k = Some e' ∧
        match eventType ev with
        | Some _ =>
            rows e' = rows ev ∧ leaves e' = leaves ev ∧
            container e' = container ev ∧ row e' = row ev ∧
            ∃ c, column e' = Some c ∧ (c < 3)%nat
        | None => roles e' ≠ []
        end.
Proof.
  destruct s as [st cs named]. unfold step. simpl. intros H Hk. rewrite Hk in H.
  simpl in H. destruct (eventType ev).
  - destruct (named !! s).
    + apply bind_Ok in H as ([m' col] & Hp & H).
      apply place_rows_col in Hp as (c & -> & Hc); [|lia].
      injection H as <-. simpl. rewrite lookup_upd, decide_True, Hk by done.
      eexists. split; [done|]. simpl. split_and!; try done. eauto.
    + injection H as <-. simpl. rewrite lookup_upd, decide_True, Hk by done.
      eexists. split; [done|]. simpl. split_and!; try done. exists 0%nat. split; [done|lia].
  - apply bind_Ok in H as ([c|] & _ & H).
    + apply bind_Ok in H as (cev & Hcev & H). apply bind_Ok in H as (rs & Hrs & H).
      apply bind_Ok in H as ([r|] & _ & H).
      * apply bind_Ok in H as (rowev & Hrowev & H). apply bind_Ok in H as (ls & Hls & H).
        injection H as <-. simpl. rewrite lookup_upd, decide_True by done.
        rewrite lookup_upd. destruct (decide (r = k)) as [->|].
        -- rewrite lookup_upd, decide_True, Hk by done. simpl.
           eexists. split; [done|]. unfold roles. simpl.
           by destruct (rows ev).
        -- rewrite lookup_upd, decide_True, Hk by done. simpl.
           eexists. split; [done|]. unfold roles. simpl.
           by destruct (rows ev), (leaves ev).
      * injection H as <-. simpl. rewrite lookup_upd.
        destruct (decide (c = k)) as [->|].
        -- rewrite lookup_upd, decide_True by done.
           rewrite lookup_upd, decide_True, Hk by done. simpl.
           eexists. split; [done|]. done.
        -- rewrite lookup_upd, decide_True by done.
           rewrite lookup_upd, decide_True, Hk by done. simpl.
           eexists. split; [done|]. unfold roles. simpl. by destruct (rows ev).
    + injection H as <-. simpl. rewrite lookup_upd, decide_True, Hk by done.
      eexists. split; [done|]. done.
Qed.

Lemma cluster_inv msd evs s (Q : nat → State → Prop) :
  Forall fresh evs →
  Q 0%nat (mkState evs [] ∅) →
  (∀ k s1 s2, tree_inv k s1 → tree_inv (S k) s2 → Q k s1 →
              step msd s1 k = Ok s2 → Q (S k) s2) →
  cluster msd evs = Ok s → tree_inv (length evs) s ∧ Q (length evs) s.
Proof.
  intros Hfresh H0 Hstep H. unfold cluster in H.
  eapply (foldR_seq_inv (step msd) (λ k s, tree_inv k s ∧ Q k s) 0 (length evs));
    [| |exact H]; [|split; [by apply tree_inv_init|done]].
  intros k s1 s2 [Ht HQ] Hs.
  assert (tree_inv (S k) s2) by (by eapply step_tree). eauto.
Qed.

(** ** Every event is exactly one of container, row or leaf *)

Lemma grows_roles e e' : grows e e' → roles e' = roles e.
Proof.
  intros (_ & _ & Hrow & _ & Hr & Hl). unfold roles. rewrite Hrow.
  unfold opt_grow in *. by destruct (rows e), (rows e'), (leaves e), (leaves e').
Qed.

Lemma core_eventType e e' : core e' = core e → eventType e' = eventType e.
Proof. intros H. apply eventType_data. by injection H. Qed.

Lemma fresh_roles e : fresh e → roles e = [].
Proof. intros (Hr & Hl & _ & Hrow & _). unfold roles. by rewrite Hr, Hl, Hrow. Qed.

Lemma cluster_assigned msd evs s :
  Forall fresh evs → cluster msd evs = Ok s →
  tree_inv (length evs) s ∧
  ∀ i e, events_of s !! i = Some e →
         (eventType e = None → roles e ≠ []) ∧
         (is_Some (eventType e) →
          roles e = [] ∧ ∃ c, column e = Some c ∧ (c < 3)%nat).
Proof.
  intros Hfresh H.
  destruct (cluster_inv msd evs s
    (λ k s, ∀ i e, events_of s !! i = Some e →
       ((i < k)%nat → eventType e = None → roles e ≠ []) ∧
       (is_Some (eventType e) →
        roles e = [] ∧ ((i < k)%nat → ∃ c, column e = Some c ∧ (c < 3)%nat))))
    as [Ht HQ]; try done.
  - simpl. intros i e Hi. split; [lia|]. intros _. split; [|lia].
    apply fresh_roles. rewrite Forall_lookup in Hfresh. eauto.
  - intros k s1 s2 Ht1 Ht2 HQ Hstep i e' Hi.
    destruct (step_effect _ _ _ _ Hstep) as [_ Heff].
    destruct (Heff i e' Hi) as (e & He & Hcore & Hgrow).
    apply core_eventType in Hcore. rewrite Hcore.
    destruct (decide (i = k)) as [->|Hne].
    + destruct (step_at _ _ _ _ _ Hstep He) as (e'' & He'' & Hat).
      assert (e'' = e') as -> by congruence.
      pose proof (inv_fresh _ _ Ht1 k e He (le_n k)) as (Hr & Hl & _ & Hrow & _).
      destruct (eventType e) as [key|].
      * split; [done|]. intros _. destruct Hat as (Hr' & Hl' & _ & Hrow' & Hcol).
        split; [|done]. unfold roles. by rewrite Hr', Hl', Hrow', Hr, Hl, Hrow.
      * split; [done|]. by intros [? ?].
    + specialize (Hgrow Hne). destruct (HQ i e He) as [HA HB].
      rewrite (grows_roles _ _ Hgrow).
      destruct Hgrow as (_ & _ & _ & Hcol & _). rewrite Hcol.
      split.
      * intros Hlt. apply HA. lia.
      * intros Hty. destruct (HB Hty) as [Hno Hc]. split; [done|].
        intros Hlt. apply Hc. lia.
  - split; [done|]. intros i e Hi. destruct (HQ i e Hi) as [HA HB].
    assert (i < length evs)%nat as Hlt.
    { rewrite <- (cluster_length _ _ _ H). by eapply lookup_lt_Some. }
    split; [by apply HA|]. intros Hty. destruct (HB Hty) as [Hno Hc]. auto.
Qed.



(** ** The tree's references point backwards *)

(** X4: The events are stored in render order, so a container comes before
    its rows and a row before its leaves: the [container] and the [row]
    of an event stand at earlier positions than the event, the container
    before the row, and its [rows] and [leaves] at later positions. *)
Theorem cluster_links_backwards (msd : Z) (evs : list Event) (s : State)
    (i : nat) (e : Event) :
  Forall fresh evs → cluster msd evs = Ok s → events_of s !! i = Some e →
  (∀ c, container e = Some c → (c < i)%nat) ∧
  (∀ r, row e = Some r → (r < i)%nat) ∧
  (∀ c r, container e = Some c → row e = Some r → (c < r)%nat) ∧
  (∀ rs, rows e = Some rs → Forall (λ r, (i < r)%nat) rs) ∧
  (∀ ls, leaves e = Some ls → Forall (λ l, (i < l)%nat) ls).
Proof.
  intros Hfresh H Hi.
  destruct (cluster_inv msd evs s
    (λ k s, ∀ i e, events_of s !! i = Some e →
       (∀ c, container e = Some c → (c < i)%nat) ∧
       (∀ r, row e = Some r → (r < i)%nat)))
    as [Ht HQ]; try done.
  - simpl. intros j x Hj. rewrite Forall_lookup in Hfresh.
    destruct (Hfresh j x Hj) as (_ & _ & Hc & Hr & _).
    split; intros ?; congruence.
  - clear i e Hi. intros k s1 s2 Ht1 Ht2 HQ Hstep i e' Hi.
    destruct (step_effect _ _ _ _ Hstep) as [_ Heff].
    destruct (Heff i e' Hi) as (e & He & Hcore & Hgrow).
    destruct (decide (i = k)) as [->|Hne].
    + assert (∀ j x, events_of s2 !! j = Some x → ¬ fresh x → (j ≤ k)%nat) as Hold.
      { intros j x Hj Hx. destruct (decide (j ≤ k)%nat); [done|].
        destruct Hx. apply (inv_fresh _ _ Ht2 j x Hj). lia. }
      pose proof (inv_nodes _ _ Ht2 k e' Hi) as Hnode. unfold node_ok in Hnode.
      destruct (rows e') as [rs|] eqn:Hrs.
      { destruct Hnode as (_ & -> & -> & _). split; intros ?; congruence. }
      destruct (leaves e') as [ls|] eqn:Hls.
      { destruct Hnode as (c & -> & -> & _ & (ce & crs & Hc & Hcrs) & _).
        split; [|intros ?; congruence]. intros ? [= <-].
        assert (c ≤ k)%nat.
        { apply (Hold c ce Hc). intros (? & _). congruence. }
        assert (c ≠ k) by (intros ->; congruence). lia. }
      destruct (row e') as [r|] eqn:Hrow.
      * destruct Hnode as (c & -> & _ & (re & rls & Hr & _ & Hrls & Hrc & Hrr & _) & _).
        assert (r ≤ k)%nat.
        { apply (Hold r re Hr). intros (_ & ? & _). congruence. }
        assert (r ≠ k) as Hrk by (intros ->; congruence).
        destruct (Heff r re Hr) as (re0 & Hre0 & _ & Hg). specialize (Hg Hrk).
        destruct Hg as (_ & Hgc & _). 
        destruct (HQ r re0 Hre0) as [Hc0 _].
        specialize (Hc0 c). rewrite <- Hgc, Hrc in Hc0. specialize (Hc0 eq_refl).
        split; intros ? [= <-]; lia.
      * rewrite Hnode. split; intros ?; congruence.
    + specialize (Hgrow Hne). destruct Hgrow as (_ & -> & -> & _).
      by apply HQ.
  - destruct (HQ i e Hi) as [Hc Hr].
    pose proof (inv_nodes _ _ Ht i e Hi) as Hnode. unfold node_ok in Hnode.
    split_and!; try done.
    + intros c r Hce Hre. rewrite Hre in Hnode.
      destruct (rows e); [destruct Hnode as (_ & _ & ? & _); congruence|].
      destruct (leaves e); [destruct Hnode as (? & _ & ? & _); congruence|].
      destruct Hnode as (c' & Hc' & _ & (re & rls & Hr' & _ & _ & Hrc & _) & _).
      assert (c' = c) as -> by congruence.
      destruct (HQ r re Hr') as [Hc0 _]. by apply Hc0.
    + intros rs Hrs. rewrite Hrs in Hnode. destruct Hnode as (_ & _ & _ & _ & Hrows).
      eapply Forall_impl; [exact Hrows|]. intros r (re & rls & Hr' & _ & _ & Hrc & _).
      simpl. destruct (HQ r re Hr') as [Hc0 _]. by apply Hc0.
    + intros ls Hls. rewrite Hls in Hnode.
      destruct (rows e); [destruct Hnode as (? & _); congruence|].
      destruct Hnode as (c & _ & _ & _ & _ & _ & Hleaves).
      eapply Forall_impl; [exact Hleaves|]. intros l (le & Hl & _ & _ & _ & Hlr & _).
      simpl. destruct (HQ l le Hl) as [_ Hr0]. by apply Hr0.
Qed.

Lemma cluster_links_backwards_witness :
  ∃ s e,
    cluster 1 (sortByRender (map (new_Event identity_metrics) stacked)) = Ok s ∧
    events_of s !! 2%nat = Some e ∧
    (∀ c, container e = Some c → (c < 2)%nat) ∧
    (∀ r, row e = Some r → (r < 2)%nat) ∧
    (∀ c r, container e = Some c → row e = Some r → (c < r)%nat) ∧
    (∀ rs, rows e = Some rs → Forall (λ r, (2 < r)%nat) rs) ∧
    (∀ ls, leaves e = Some ls → Forall (λ l, (2 < l)%nat) ls).
Proof.
  eexists _, _. split; [vm_compute; reflexivity|]. split; [vm_compute; reflexivity|].
  eapply (cluster_links_backwards 1
            (sortByRender (map (new_Event identity_metrics) stacked)) _ 2).
  - apply render_order_fresh.
  - vm_compute. reflexivity.
  - vm_compute. reflexivity.
Defined.

(** ** Which inputs throw *)

Lemma mapR_total {A B} (f : A → Res B) (l : list A) :
  (∀ x, x ∈ l → ∃ y, f x = Ok y) → ∃ out, mapR f l = Ok out.
Proof.
  induction l as [|x l IH]; intros Hf; simpl; [by eexists|].
  destruct (Hf x) as [y ->]; [by left|].
  destruct IH as [ys ->]; [intros; apply Hf; by right|]. by eexists.
Qed.

(** In a well-formed tree the getters of an adapter that has a role
    return. *)
Lemma tree_styled_total k s i e :
  tree_inv k s → events_of s !! i = Some e → roles e ≠ [] →
  ∃ y, styled (events_of s) i = Ok y.
Proof.
  intros Hinv Hi Hrole.
  pose proof (inv_nodes _ _ Hinv i e Hi) as Hnode. unfold node_ok in Hnode.
  assert (∃ w x, _width (events_of s) i = Ok w ∧ xOffset (events_of s) i = Ok x ∧
                 (rows e = None → leaves e = None →
                  ∃ r re ls, row e = Some r ∧ events_of s !! r = Some re ∧
                             leaves re = Some ls))
    as (w & x & Hw & Hx & Hleaf).
  { destruct (rows e) as [rs|] eqn:Hrows.
    - destruct Hnode as (_ & _ & _ & _ & Hrs).
      destruct (columns_total _ _ _ Hrs) as [cols Hcols].
      exists (container_width e cols), (mkWidth 0 "").
      split_and!; [|by eapply xOffset_container|done].
      unfold _width. pose proof (lookup_lt_Some _ _ _ Hi).
      destruct (length (events_of s)) eqn:Hlen; [lia|].
      by eapply width_fuel_container.
    - assert (is_Some (leaves e) ∨ is_Some (row e)) as Hmember.
      { unfold roles in Hrole. rewrite Hrows in Hrole.
        destruct (leaves e); [left; by eexists|].
        destruct (row e); [right; by eexists|done]. }
      destruct (tree_member_resolves _ _ _ _ Hinv Hi Hrows Hmember) as [[w Hw] [x Hx]].
      exists w, x. split_and!; try done. intros _ Hls. rewrite Hls in Hnode.
      destruct Hmember as [[? ?]|[r Hr]]; [congruence|]. rewrite Hr in Hnode.
      destruct Hnode as (c & _ & _ & (re & ls & Hre & _ & Hrls & _) & _).
      by exists r, re, ls. }
  unfold styled, width. rewrite Hi. simpl. rewrite Hw. simpl.
  destruct (decide (unit w ≠ "%")); simpl; [rewrite Hx; by eexists|].
  destruct (rows e); simpl; [rewrite Hx; by eexists|].
  destruct (leaves e); simpl; [rewrite Hx; by eexists|].
  destruct Hleaf as (r & re & ls & -> & Hre & Hls); try done. simpl.
  rewrite Hre. simpl. rewrite Hls. simpl. rewrite Hx. by eexists.
Qed.

Lemma cluster_ungrouped_from msd n k s :
  tree_inv k s → (∀ i e, events_of s !! i = Some e → eventType e = None) →
  (k + n = length (events_of s))%nat →
  ∃ s', foldR (step msd) s (seq k n) = Ok s'.
Proof.
  revert k s. induction n as [|n IH]; intros k s Htree Hun Hlen; simpl; [by eexists|].
  destruct (lookup_lt_is_Some_2 (events_of s) k) as [ev Hev]; [lia|].
  destruct (step_ungrouped_progress msd s k ev Htree Hev) as [s1 Hs]; [by eapply Hun|].
  rewrite Hs. simpl. apply IH.
  - by eapply step_tree.
  - intros i e' Hi. destruct (step_effect _ _ _ _ Hs) as [_ Heff].
    destruct (Heff i e' Hi) as (e & He & Hcore & _).
    rewrite (core_eventType _ _ Hcore). by eapply Hun.
  - rewrite (step_length _ _ _ _ Hs). lia.
Qed.

(** X5: A list of ungrouped events never makes [getStyledEvents] throw,
    whatever their instants and fixed widths: it returns one style for
    each event. *)
Theorem ungrouped_never_throws (events : list Data) (msd : Z)
    (slotMetrics : Z → Z → Placement) :
  Forall (λ d, eventType (new_Event slotMetrics d) = None) events →
  ∃ out, getStyledEvents events msd slotMetrics = Ok out ∧
         length out = length events.
Proof.
  intros Hun.
  set (R := sortByRender (map (new_Event slotMetrics) events)).
  assert (Forall (λ e, eventType e = None) R) as HR.
  { unfold R. rewrite <- sortByRender_perm. by apply Forall_fmap. }
  assert (Forall fresh R) as Hfresh by apply render_order_fresh.
  destruct (cluster_ungrouped_from msd (length R) 0 (mkState R [] ∅)) as [s Hcl].
  { by apply tree_inv_init. }
  { simpl. intros i e Hi. rewrite Forall_lookup in HR. eauto. }
  { done. }
  change (cluster msd R = Ok s) in Hcl.
  destruct (cluster_assigned _ _ _ Hfresh Hcl) as [Ht HQ].
  pose proof (cluster_length _ _ _ Hcl) as Hlen.
  destruct (mapR_total (styled (events_of s)) (seq 0 (length R))) as [out Hout].
  { intros i Hi. apply elem_of_seq in Hi.
    destruct (lookup_lt_is_Some_2 (events_of s) i) as [e He]; [lia|].
    eapply tree_styled_total; [exact Ht|exact He|].
    apply (HQ i e He).
    destruct (core_lookup _ _ _ _ (cluster_core _ _ _ Hcl) He) as (x & Hx & Hcx).
    rewrite <- (core_eventType _ _ Hcx). rewrite Forall_lookup in HR. eauto. }
  exists out. split.
  - unfold getStyledEvents. fold R. rewrite Hcl. done.
  - apply mapR_Forall2, Forall2_length in Hout.
    rewrite length_seq in Hout. rewrite <- Hout. unfold R.
    by rewrite sortByRender_length, length_map.
Qed.

Lemma ungrouped_never_throws_witness :
  ∃ out, getStyledEvents two_rows 1 identity_metrics = Ok out ∧
         length out = length two_rows.
Proof.
  apply (ungrouped_never_throws two_rows 1 identity_metrics).
  repeat constructor.
Defined.

(** X6: A grouped event is never made part of the tree, so its width can
    only come from its payload: one grouped event without a fixed width,
    or with a fixed width in '%', makes [getStyledEvents] throw,
    whatever else the list holds. *)
Theorem grouped_needs_fixed_width (events : list Data) (msd : Z)
    (slotMetrics : Z → Z → Placement) (d : Data) :
  d ∈ events → is_Some (eventType (new_Event slotMetrics d)) →
  (∀ w, dwidth d = Some w → unit w = "%") →
  getStyledEvents events msd slotMetrics = TypeError.
Proof.
  intros Hd Hty Hw.
  destruct (getStyledEvents events msd slotMetrics) as [out| |] eqn:H; [|done|].
  2: { by apply getStyledEvents_not_exhausted in H. }
  exfalso. unfold getStyledEvents in H. apply bind_Ok in H as (s & Hcl & H).
  set (R := sortByRender (map (new_Event slotMetrics) events)) in *.
  assert (new_Event slotMetrics d ∈ R) as Hin.
  { unfold R. rewrite <- sortByRender_perm. apply list_elem_of_fmap. eauto. }
  apply list_elem_of_lookup in Hin as [i Hi].
  assert (map core R = map core (events_of s)) as Hcore
    by (symmetry; by eapply cluster_core).
  destruct (core_lookup _ _ _ _ Hcore Hi) as (e & He & Hce).
  assert (data e = d) as Hdata by (by injection Hce).
  destruct (cluster_assigned _ _ _ (render_order_fresh _ _) Hcl) as [Ht HQ].
  destruct (HQ i e He) as [_ HB].
  destruct HB as [Hno _]; [by rewrite (core_eventType _ _ Hce)|].
  pose proof (inv_nodes _ _ Ht i e He) as Hnode. unfold node_ok in Hnode.
  unfold roles in Hno.
  destruct (rows e) eqn:Hrows; [done|]. destruct (leaves e) eqn:Hleaves; [done|].
  destruct (row e) eqn:Hrow; [done|].
  apply mapR_Forall2 in H.
  destruct (Forall2_lookup_l _ _ _ i i H) as (y & _ & Hy).
  { apply lookup_seq. split; [done|]. by eapply lookup_lt_Some. }
  unfold styled in Hy. rewrite He in Hy. simpl in Hy.
  apply bind_Ok in Hy as (w & Hwd & _).
  unfold width in Hwd. rewrite He in Hwd. simpl in Hwd.
  apply bind_Ok in Hwd as (nw & Hnw & Hwd).
  unfold _width in Hnw. pose proof (lookup_lt_Some _ _ _ He).
  destruct (length (events_of s)); [lia|]. simpl in Hnw. rewrite He in Hnw.
  simpl in Hnw. rewrite Hdata in Hnw.
  destruct (dwidth d) as [w0|] eqn:Hdw.
  - injection Hnw as <-. rewrite decide_False in Hwd by (rewrite (Hw w0); auto).
    by rewrite Hrows, Hleaves, Hrow in Hwd.
  - by rewrite Hrows, Hnode in Hnw.
Qed.

Lemma grouped_needs_fixed_width_witness :
  getStyledEvents (plain 1 0 5 :: lone_keyed :: four_keyed (mkWidth 30 "px")) 1
    identity_metrics = TypeError.
Proof.
  apply (grouped_needs_fixed_width _ 1 identity_metrics lone_keyed).
  - right. left.
  - by eexists.
  - intros w. discriminate.
Defined.

(** ** The overlap stays within the line *)

Lemma arena_payload msd sm events s i e :
  cluster msd (sortByRender (map (new_Event sm) events)) = Ok s →
  events_of s !! i = Some e → data e ∈ events.
Proof.
  intros Hcl Hi. apply cluster_core in Hcl.
  destruct (core_lookup _ _ _ _ Hcl Hi) as (x & Hx & Hcore).
  apply list_elem_of_lookup_2 in Hx. rewrite <- sortByRender_perm in Hx.
  apply list_elem_of_fmap in Hx as (d & -> & Hd).
  injection Hcore as _ _ _ _ _ _ <-. done.
Qed.

Lemma row_share_exact (cwv : Q) n :
  (Qnat (row_divisor n) * ((100 - cwv) / Qnat (row_divisor n)) == 100 - cwv)%Q.
Proof.
  apply Qmult_div_r. intros H0.
  pose proof (Qnat_pos (row_divisor n) (row_divisor_positive n)) as Hpos.
  rewrite H0 in Hpos. by apply (Qlt_irrefl 0).
Qed.

Lemma overlap_le (v : Q) : (0 <= v)%Q → (Qmin 100 (v * 1.7) <= 2 * v)%Q.
Proof.
  intros Hv. eapply Qle_trans; [apply Q.le_min_r|]. lra.
Qed.



(** ** Events that follow one another each get the full width *)

Lemma StronglySorted_snoc_inv {A} (R : A → A → Prop) (l : list A) x :
  StronglySorted R (l ++ [x]) → StronglySorted R l ∧ Forall (λ y, R y x) l.
Proof.
  induction l as [|y l IH]; simpl; intros H; [split; constructor|].
  apply StronglySorted_inv in H as [H Hy]. destruct (IH H) as [Hs Hx].
  rewrite Forall_app in Hy. destruct Hy as [Hy1 Hy2].
  split; constructor; try done. by apply Forall_inv in Hy2.
Qed.

(** X8: When every event of the render order is ungrouped and starts at or
    after the end of all earlier ones, and at least the minimum start
    difference after their starts, the loop makes each event a container
    without rows, in the order of the list; and an event without a fixed
    width then fills the line: width 100 percent, offset 0. *)
Theorem apart_events_all_containers (msd : Z) (evs : list Event) :
  Forall fresh evs → Forall (λ e, eventType e = None) evs →
  StronglySorted (apart msd) evs →
  cluster msd evs
  = Ok (mkState (map (set_rows []) evs) (seq 0 (length evs)) ∅) ∧
  ∀ i e, evs !! i = Some e → dwidth (data e) = None →
         width (map (set_rows []) evs) i = Ok (mkWidth 100 "%") ∧
         xOffset (map (set_rows []) evs) i = Ok (mkWidth 0 "").
Proof.
  intros Hfresh Hun Hs. split.
  - induction evs as [|pe evs IH] using rev_ind; [done|].
    apply StronglySorted_snoc_inv in Hs as [Hs Hpe].
    rewrite Forall_app in Hfresh, Hun.
    destruct Hfresh as [Hfresh _]. destruct Hun as [Hun Hk].
    apply Forall_inv in Hk.
    rewrite (cluster_append msd evs pe _ (IH Hfresh Hun Hs) Hk); [|done|done].
    simpl. rewrite map_app, length_app, seq_app. done.
  - intros i e Hi Hw.
    assert (map (set_rows []) evs !! i = Some (set_rows [] e)) as Hi'
      by (by rewrite list_lookup_fmap, Hi).
    split; [|by eapply xOffset_container].
    unfold width, _width. rewrite Hi'. simpl.
    pose proof (lookup_lt_Some _ _ _ Hi') as Hlt.
    destruct (length (map (set_rows []) evs)); [lia|].
    simpl. rewrite Hi'. simpl. rewrite Hw. done.
Qed.

Lemma apart_events_all_containers_witness :
  cluster 1 (map (new_Event identity_metrics) in_sequence)
  = Ok (mkState (map (set_rows []) (map (new_Event identity_metrics) in_sequence))
          (seq 0 (length (map (new_Event identity_metrics) in_sequence))) ∅) ∧
  ∀ i e, map (new_Event identity_metrics) in_sequence !! i = Some e →
         dwidth (data e) = None →
         width (map (set_rows []) (map (new_Event identity_metrics) in_sequence)) i
         = Ok (mkWidth 100 "%") ∧
         xOffset (map (set_rows []) (map (new_Event identity_metrics) in_sequence)) i
         = Ok (mkWidth 0 "").
Proof.
  apply (apart_events_all_containers 1 (map (new_Event identity_metrics) in_sequence)).
  - repeat constructor.
  - repeat constructor.
  - unfold apart. repeat constructor; simpl; lia.
Defined.

(** ** The column of a grouped event *)

Lemma scan_slots_best st ev (m : matrix) r sr prev cs b g0 bc g :
  r ≠ 0%nat → m !! r = Some sr → m !! (r - 1)%nat = Some prev →
  scan_slots st ev m r cs b g0 = Ok (Best bc g) →
  g0 ≤ g ∧
  (∀ c' g', c' ∈ cs → slot sr c' = None → gap_above st ev prev c' = Some g' → g' ≤ g) ∧
  ((bc = b ∧ g = g0) ∨
   (∃ pre c post,
      cs = pre ++ c :: post ∧ bc = Some c ∧ slot sr c = None ∧
      gap_above st ev prev c = Some g ∧ g0 < g ∧
      ∀ c' g', c' ∈ pre → slot sr c' = None →
               gap_above st ev prev c' = Some g' → g' < g)).
Proof.
  intros Hr Hm Hprev. revert b g0.
  induction cs as [|c0 cs IH]; intros b g0 H; simpl in H.
  - injection H as <- <-. split_and!; [lia| |by left].
    intros c' g' Hc'. by apply elem_of_nil in Hc'.
  - rewrite Hm in H. simpl in H. destruct (slot sr c0) as [j|] eqn:Hs0.
    + destruct (IH _ _ H) as (Hle & Hall & Hbest). split_and!; [done| |].
      * intros c' g' [->|Hc']%elem_of_cons; [congruence|by apply Hall].
      * destruct Hbest as [?|(pre & c & post & -> & ? & ? & ? & ? & Hpre)]; [by left|].
        right. exists (c0 :: pre), c, post. split_and!; try done.
        intros c' g' [->|Hc']%elem_of_cons; [congruence|by apply Hpre].
    + rewrite decide_False in H by done. rewrite Hprev in H. simpl in H.
      apply bind_Ok in H as (above & Ha & H). apply deref_Ok in Ha.
      apply bind_Ok in H as (aboveev & Hae & H). apply deref_Ok in Hae.
      assert (gap_above st ev prev c0 = Some (start ev - end_ aboveev)) as Hg0.
      { unfold gap_above. rewrite Ha. simpl. rewrite Hae. done. }
      destruct (decide (start ev - end_ aboveev > g0)) as [Hgt|Hngt].
      * destruct (IH _ _ H) as (Hle & Hall & Hbest). split_and!; [lia| |].
        -- intros c' g' [->|Hc']%elem_of_cons; [|by apply Hall].
           intros _ Hg'. assert (g' = start ev - end_ aboveev) as -> by congruence.
           done.
        -- right. destruct Hbest as [[-> ->]|(pre & c & post & -> & ? & ? & ? & ? & Hpre)].
           ++ exists [], c0, cs. split_and!; try done; [lia|].
              intros c' g' Hc'. by apply elem_of_nil in Hc'.
           ++ exists (c0 :: pre), c, post. split_and!; try done; [lia|].
              intros c' g' [->|Hc']%elem_of_cons; [|by apply Hpre].
              intros _ Hg'. assert (g' = start ev - end_ aboveev) as -> by congruence.
              lia.
      * destruct (IH _ _ H) as (Hle & Hall & Hbest). split_and!; [done| |].
        -- intros c' g' [->|Hc']%elem_of_cons; [|by apply Hall].
           intros _ Hg'. assert (g' = start ev - end_ aboveev) as -> by congruence.
           lia.
        -- destruct Hbest as [?|(pre & c & post & -> & ? & ? & ? & ? & Hpre)]; [by left|].
           right. exists (c0 :: pre), c, post. split_and!; try done.
           intros c' g' [->|Hc']%elem_of_cons; [|by apply Hpre].
           intros _ Hg'. assert (g' = start ev - end_ aboveev) as -> by congruence.
           lia.
Qed.

(** X9: In a slot row below the first, the column loop picks an empty slot
    whose gap to the event above is the greatest among the empty slots,
    and above the sentinel; of several such slots it picks the leftmost
    one. *)
Theorem scan_slots_greatest_gap (st : arena) (ev : Event) (m : matrix) (r : nat)
    (sr prev : slot_row) (c : nat) (g : Z) :
  r ≠ 0%nat → m !! r = Some sr → m !! (r - 1)%nat = Some prev →
  scan_slots st ev m r [0; 1; 2]%nat None (-99999) = Ok (Best (Some c) g) →
  (c < 3)%nat ∧ slot sr c = None ∧ gap_above st ev prev c = Some g ∧ -99999 < g ∧
  ∀ c' g', (c' < 3)%nat → slot sr c' = None → gap_above st ev prev c' = Some g' →
           g' ≤ g ∧ ((c' < c)%nat → g' < g).
Proof.
  intros Hr Hm Hprev H.
  destruct (scan_slots_best _ _ _ _ _ _ _ _ _ _ _ Hr Hm Hprev H)
    as (_ & Hall & [[? _]|(pre & c0 & post & Hcs & [= <-] & Hs & Hg & Hlt & Hpre)]);
    [done|].
  assert (c < 3 ∧ ∀ c', c' < c → c' ∈ pre)%nat as [Hc Hbefore].
  { destruct pre as [|p0 [|p1 [|p2 [|p3 pre]]]]; simpl in Hcs; simplify_eq.
    - split; [lia|]. intros c' Hc'. lia.
    - split; [lia|]. intros c' Hc'. assert (c' = 0)%nat as -> by lia. by left.
    - split; [lia|]. intros c' Hc'. destruct (decide (c' = 0)%nat) as [->|]; [by left|].
      assert (c' = 1)%nat as -> by lia. right; by left. }
  split_and!; try done.
  intros c' g' Hc' Hs' Hg'. split.
  - apply (Hall c' g'); [|done|done].
    destruct c' as [|[|[|c']]]; [by left|right; by left|right; right; by left|lia].
  - intros Hlt'. apply (Hpre c' g'); auto.
Qed.

Lemma scan_slots_greatest_gap_witness :
  (2 < 3)%nat ∧ slot [None; None; None] 2 = None ∧
  gap_above (map (new_Event identity_metrics) three_ends)
    (new_Event identity_metrics (keyed 3 30 40 "k" (mkWidth 30 "px")))
    [Some 0%nat; Some 1%nat; Some 2%nat] 2 = Some 25 ∧
  -99999 < 25 ∧
  ∀ c' g', (c' < 3)%nat → slot [None; None; None] c' = None →
           gap_above (map (new_Event identity_metrics) three_ends)
             (new_Event identity_metrics (keyed 3 30 40 "k" (mkWidth 30 "px")))
             [Some 0%nat; Some 1%nat; Some 2%nat] c' = Some g' →
           g' ≤ 25 ∧ ((c' < 2)%nat → g' < 25).
Proof.
  apply (scan_slots_greatest_gap (map (new_Event identity_metrics) three_ends)
           (new_Event identity_metrics (keyed 3 30 40 "k" (mkWidth 30 "px")))
           second_row 1 [None; None; None] [Some 0%nat; Some 1%nat; Some 2%nat] 2 25).
  - lia.
  - reflexivity.
  - reflexivity.
  - vm_compute. reflexivity.
Defined.



(** ** Why an event is where it is in the tree *)

Lemma find_container_joins st msd ev cs c :
  find_container st msd ev cs = Ok (Some c) →
  ∃ cev, st !! c = Some cev ∧ joins msd cev ev.
Proof.
  induction cs as [|c0 cs IH]; simpl; [done|]. intros H.
  apply bind_Ok in H as (cev & Hc & H). apply deref_Ok in Hc.
  destruct (_ || _) eqn:Htest; [|auto]. injection H as <-.
  exists cev. split; [done|]. unfold joins.
  apply orb_true_iff in Htest as [Ht|Ht]; apply bool_decide_eq_true in Ht; auto.
Qed.

Lemma find_row_onSameRow st msd ev rs r :
  find_row st msd ev rs = Ok (Some r) →
  ∃ rowev, st !! r = Some rowev ∧ onSameRow rowev ev msd = true.
Proof.
  induction rs as [|r0 rs IH]; simpl; [done|]. intros H.
  apply bind_Ok in H as (rowev & Hr & H). apply deref_Ok in Hr.
  destruct (onSameRow rowev ev msd) eqn:Htest; [|auto]. injection H as <-. eauto.
Qed.

Lemma joins_core msd a a' b b' :
  core a' = core a → core b' = core b → joins msd a b → joins msd a' b'.
Proof.
  intros Ha Hb. unfold joins.
  injection Ha as Hsa Hea _. injection Hb as Hsb Heb _. by rewrite Hsa, Hea, Hsb.
Qed.

Lemma onSameRow_core msd a a' b b' :
  core a' = core a → core b' = core b → onSameRow a' b' msd = onSameRow a b msd.
Proof.
  intros Ha Hb. unfold onSameRow.
  injection Ha as Hsa Hea _. injection Hb as Hsb Heb _. by rewrite Hsa, Hea, Hsb.
Qed.

Lemma effect_forward k (st st' : arena) i e :
  effect k st st' → st !! i = Some e → ∃ e', st' !! i = Some e' ∧ core e' = core e.
Proof.
  intros [Hlen Heff] Hi.
  destruct (lookup_lt_is_Some_2 st' i) as [e' He'].
  { rewrite Hlen. by eapply lookup_lt_Some. }
  destruct (Heff i e' He') as (e0 & He0 & Hcore & _).
  exists e'. split; [done|]. congruence.
Qed.

(** What the turn for position [k] links the adapter at [k] to: a
    container it joins, and a row it is on the same row with. *)
Lemma step_joins msd s k s' ev e' :
  step msd s k = Ok s' → events_of s !! k = Some ev → fresh ev →
  events_of s' !! k = Some e' →
  (∀ c, container e' = Some c →
        ∃ ce, events_of s !! c = Some ce ∧ joins msd ce ev) ∧
  (∀ r, row e' = Some r →
        ∃ re, events_of s !! r = Some re ∧ onSameRow re ev msd = true).
Proof.
  destruct s as [st cs named]. unfold step. simpl.
  intros H Hk (Hfr & Hfl & Hfc & Hfrow & _) Hk'. rewrite Hk in H. simpl in H.
  destruct (eventType ev) eqn:Hty.
  - assert (container e' = None ∧ row e' = None) as [Hc Hr].
    { destruct (named !! s).
      + apply bind_Ok in H as ([m' [col|]] & _ & H); injection H as <-; simpl in Hk'.
        * rewrite lookup_upd, decide_True, Hk in Hk' by done. by injection Hk' as <-.
        * by assert (e' = ev) as -> by congruence.
      + injection H as <-. simpl in Hk'.
        rewrite lookup_upd, decide_True, Hk in Hk' by done. by injection Hk' as <-. }
    split; intros ?; congruence.
  - apply bind_Ok in H as ([c|] & Hfound & H).
    + apply find_container_joins in Hfound as (ce & Hce & Hjoin).
      apply bind_Ok in H as (cev & Hcev & H). apply bind_Ok in H as (rs & Hrs & H).
      apply bind_Ok in H as ([r|] & Hfrw & H).
      * apply find_row_onSameRow in Hfrw as (rowev & Hrowev & Hsame).
        apply bind_Ok in H as (rowev' & _ & H). apply bind_Ok in H as (ls & _ & H).
        injection H as <-. simpl in Hk'.
        rewrite lookup_upd, decide_True in Hk' by done.
        assert (container e' = Some c ∧ row e' = Some r) as [Hc Hr].
        { rewrite lookup_upd in Hk'. destruct (decide (r = k)) as [->|].
          - rewrite lookup_upd, decide_True, Hk in Hk' by done.
            by injection Hk' as <-.
          - rewrite lookup_upd, decide_True, Hk in Hk' by done.
            by injection Hk' as <-. }
        split; intros x Hx; rewrite ?Hc, ?Hr in Hx; injection Hx as <-; [eauto|].
        rewrite lookup_upd in Hrowev. destruct (decide (k = r)) as [->|].
        -- rewrite Hk in Hrowev. injection Hrowev as <-. exists ev. split; [done|].
           by rewrite <- Hsame.
        -- eauto.
      * injection H as <-. simpl in Hk'.
        assert (container e' = Some c ∧ row e' = None) as [Hc Hr].
        { rewrite lookup_upd in Hk'. destruct (decide (c = k)) as [->|].
          - rewrite lookup_upd, decide_True in Hk' by done.
            rewrite lookup_upd, decide_True, Hk in Hk' by done.
            by injection Hk' as <-.
          - rewrite lookup_upd, decide_True in Hk' by done.
            rewrite lookup_upd, decide_True, Hk in Hk' by done.
            by injection Hk' as <-. }
        split; intros x Hx; rewrite ?Hc, ?Hr in Hx; [|done].
        injection Hx as <-. eauto.
    + injection H as <-. simpl in Hk'.
      rewrite lookup_upd, decide_True, Hk in Hk' by done. injection Hk' as <-.
      simpl. split; intros ?; congruence.
Qed.

(** X11: An event that has a container joined it by the container's test: it
    starts before the container ends, or within the minimum start
    difference of the container's start.  An event that has a row is on
    the same row with it, as [onSameRow] tells. *)
Theorem cluster_members_join (msd : Z) (evs : list Event) (s : State) (i : nat)
    (e : Event) :
  Forall fresh evs → cluster msd evs = Ok s → events_of s !! i = Some e →
  (∀ c, container e = Some c →
        ∃ ce, events_of s !! c = Some ce ∧ joins msd ce e) ∧
  (∀ r, row e = Some r →
        ∃ re, events_of s !! r = Some re ∧ onSameRow re e msd = true).
Proof.
  intros Hfresh H Hi.
  destruct (cluster_inv msd evs s
    (λ k s, ∀ i e, events_of s !! i = Some e →
       (∀ c, container e = Some c →
             ∃ ce, events_of s !! c = Some ce ∧ joins msd ce e) ∧
       (∀ r, row e = Some r →
             ∃ re, events_of s !! r = Some re ∧ onSameRow re e msd = true)))
    as [_ HQ]; try done; [| |exact (HQ i e Hi)].
  - simpl. intros j x Hj. rewrite Forall_lookup in Hfresh.
    destruct (Hfresh j x Hj) as (_ & _ & Hc & Hr & _).
    split; intros ?; congruence.
  - clear i e Hi. intros k s1 s2 Ht1 _ HQ Hstep i e' Hi.
    pose proof (step_effect _ _ _ _ Hstep) as Heff.
    destruct (proj2 Heff i e' Hi) as (e & He & Hcore & Hgrow).
    assert ((∀ c, container e' = Some c →
                  ∃ ce, events_of s1 !! c = Some ce ∧ joins msd ce e) ∧
            (∀ r, row e' = Some r →
                  ∃ re, events_of s1 !! r = Some re ∧ onSameRow re e msd = true))
      as [Hc Hr].
    { destruct (decide (i = k)) as [->|Hne].
      - eapply step_joins; eauto. by apply (inv_fresh _ _ Ht1 k e He).
      - destruct (Hgrow Hne) as (_ & -> & -> & _). exact (HQ i e He). }
    split.
    + intros c Hce. destruct (Hc c Hce) as (ce & Hce1 & Hjoin).
      destruct (effect_forward _ _ _ _ _ Heff Hce1) as (ce' & Hce' & Hcc).
      exists ce'. split; [done|]. by eapply joins_core.
    + intros r Hre. destruct (Hr r Hre) as (re & Hre1 & Hsame).
      destruct (effect_forward _ _ _ _ _ Heff Hre1) as (re' & Hre' & Hrc).
      exists re'. split; [done|]. by rewrite (onSameRow_core msd re re' e e').
Qed.

Lemma cluster_members_join_witness :
  ∃ s e,
    cluster 1 (sortByRender (map (new_Event identity_metrics) stacked)) = Ok s ∧
    events_of s !! 2%nat = Some e ∧
    (∀ c, container e = Some c →
          ∃ ce, events_of s !! c = Some ce ∧ joins 1 ce e) ∧
    (∀ r, row e = Some r →
          ∃ re, events_of s !! r = Some re ∧ onSameRow re e 1 = true).
Proof.
  eexists _, _. split; [vm_compute; reflexivity|]. split; [vm_compute; reflexivity|].
  eapply (cluster_members_join 1
            (sortByRender (map (new_Event identity_metrics) stacked)) _ 2).
  - apply render_order_fresh.
  - vm_compute. reflexivity.
  - vm_compute. reflexivity.
Defined.

(** ** The container's share *)

Lemma columns_fold_max (st : arena) (rs : list nat) (m0 m : nat) :
  foldR (λ max r,
        rowev ← deref (st !! r);
        ls ← deref (leaves rowev);
        Ok (Nat.max max (length ls + 1))) m0 rs = Ok m →
  (∀ r re ls, r ∈ rs → st !! r = Some re → leaves re = Some ls →
              (length ls + 1 ≤ m)%nat) ∧
  (m = m0 ∨ ∃ r re ls, r ∈ rs ∧ st !! r = Some re ∧ leaves re = Some ls ∧
                       m = (length ls + 1)%nat).
Proof.
  revert m0. induction rs as [|r0 rs IH]; intros m0 H; simpl in H.
  - injection H as ->. split; [|by left]. intros r re ls Hr. by apply elem_of_nil in Hr.
  - apply bind_Ok in H as (m1 & H1 & H).
    apply bind_Ok in H1 as (rowev & Hrow & H1). apply deref_Ok in Hrow.
    apply bind_Ok in H1 as (ls0 & Hls0 & H1). apply deref_Ok in Hls0.
    injection H1 as <-.
    pose proof (columns_fold_ge _ _ _ _ H) as Hge.
    destruct (IH _ H) as [Hall Hmax]. split.
    + intros r re ls [->|Hr]%elem_of_cons Hre Hls; [|by eapply Hall].
      assert (re = rowev) as -> by congruence.
      assert (ls = ls0) as -> by congruence. lia.
    + destruct Hmax as [->|(r & re & ls & Hr & Hre & Hls & ->)].
      * destruct (Nat.max_spec m0 (length ls0 + 1)) as [[_ ->]|[_ ->]]; [|by left].
        right. exists r0, rowev, ls0. split_and!; try done. by left.
      * right. exists r, re, ls. split_and!; try done. by right.
Qed.

Lemma share_le (cols n : nat) :
  (n + 2 ≤ cols)%nat →
  (100 / Qnat cols <= (100 - 100 / Qnat cols) / Qnat (n + 1))%Q.
Proof.
  intros Hn.
  assert (0 < Qnat cols)%Q as Hc by (apply Qnat_pos; lia).
  assert (0 < Qnat (n + 1))%Q as Hk by (apply Qnat_pos; lia).
  assert (Qnat (n + 1) + 1 <= Qnat cols)%Q as Hle.
  { rewrite <- Qnat_S. apply Qnat_le. lia. }
  assert (Qnat cols * (100 / Qnat cols) == 100)%Q as Hcw.
  { apply Qmult_div_r. intros H0. rewrite H0 in Hc. by apply (Qlt_irrefl 0). }
  destruct (percent_share_bounds cols) as [Hc0 _]; [lia|].
  apply Qle_shift_div_l; [done|].
  set (cw := (100 / Qnat cols)%Q) in *. clearbody cw.
  assert ((Qnat (n + 1) + 1) * cw <= Qnat cols * cw)%Q
    by (by apply Qmult_le_compat_r).
  lra.
Qed.

Lemma share_eq (cols n : nat) :
  cols = (n + 2)%nat →
  ((100 - 100 / Qnat cols) / Qnat (n + 1) == 100 / Qnat cols)%Q.
Proof.
  intros ->.
  assert (0 < Qnat (n + 1))%Q as Hk by (apply Qnat_pos; lia).
  assert (Qnat (n + 2) == Qnat (n + 1) + 1)%Q as ->.
  { replace (n + 2)%nat with (S (n + 1)) by lia. apply Qnat_S. }
  set (K := Qnat (n + 1)) in *. clearbody K. field. split; lra.
Qed.



(** ** The references of the tree agree in both directions *)

(** The turn that makes the adapter at [k] a row lists it in the rows of
    its container. *)
Lemma step_row_listed msd s k s' e' ls c :
  tree_inv k s → step msd s k = Ok s' →
  events_of s' !! k = Some e' → leaves e' = Some ls → container e' = Some c →
  ∃ ce rs, events_of s' !! c = Some ce ∧ rows ce = Some rs ∧ k ∈ rs.
Proof.
  destruct s as [st cs named]. intros Hinv Hstep Hk' Hls Hc.
  unfold step in Hstep. simpl in Hstep.
  apply bind_Ok in Hstep as (ev & Hk & Hstep). apply deref_Ok in Hk.
  assert (fresh ev) as Hfresh by (apply (inv_fresh _ _ Hinv k ev Hk); done).
  destruct Hfresh as (Hfrs & Hfl & Hfc & Hfrow & _).
  destruct (eventType ev) as [key|].
  - exfalso. destruct (named !! key) as [m|].
    + apply bind_Ok in Hstep as ([m' [col|]] & _ & Hstep); injection Hstep as <-;
        simpl in Hk'.
      * rewrite lookup_upd, decide_True, Hk in Hk' by done.
        injection Hk' as <-. simpl in Hls. congruence.
      * congruence.
    + injection Hstep as <-. simpl in Hk'.
      rewrite lookup_upd, decide_True, Hk in Hk' by done.
      injection Hk' as <-. simpl in Hls. congruence.
  - apply bind_Ok in Hstep as (found & Hfound & Hstep).
    destruct found as [c0|].
    2:{ injection Hstep as <-. simpl in Hk'.
        rewrite lookup_upd, decide_True, Hk in Hk' by done.
        injection Hk' as <-. simpl in Hls. congruence. }
    apply find_container_elem in Hfound.
    pose proof (inv_containers _ _ Hinv) as Hcs. simpl in Hcs.
    rewrite Forall_forall in Hcs. destruct (Hcs c0 Hfound) as (ce & rs & Hc0 & Hrs).
    assert (k ≠ c0) as Hkc by (intros ->; congruence).
    apply bind_Ok in Hstep as (cev & Hcev & Hstep). apply deref_Ok in Hcev.
    rewrite lookup_upd, decide_False in Hcev by done.
    assert (cev = ce) as -> by congruence.
    rewrite Hrs in Hstep. simpl in Hstep.
    apply bind_Ok in Hstep as (found_row & Hfr & Hstep).
    destruct found_row as [r|].
    + exfalso. apply find_row_elem in Hfr. rewrite elem_of_reverse in Hfr.
      pose proof (inv_nodes _ _ Hinv c0 ce Hc0) as Hnode. simpl in Hnode.
      unfold node_ok in Hnode. rewrite Hrs in Hnode.
      destruct Hnode as (_ & _ & _ & _ & Hrows).
      rewrite Forall_forall in Hrows.
      destruct (Hrows r Hfr) as (re & rls & Hr & _ & Hrls & _).
      assert (k ≠ r) as Hkr by (intros ->; congruence).
      apply bind_Ok in Hstep as (rowev & _ & Hstep).
      apply bind_Ok in Hstep as (ls' & _ & Hstep). injection Hstep as <-.
      simpl in Hk'. rewrite lookup_upd, decide_True in Hk' by done.
      rewrite lookup_upd, decide_False in Hk' by done.
      rewrite lookup_upd, decide_True, Hk in Hk' by done.
      injection Hk' as <-. simpl in Hls. congruence.
    + injection Hstep as <-. simpl in Hk'. simpl.
      rewrite lookup_upd, decide_False in Hk' by done.
      rewrite lookup_upd, decide_True in Hk' by done.
      rewrite lookup_upd, decide_True, Hk in Hk' by done.
      injection Hk' as <-. simpl in Hc. injection Hc as <-.
      exists (set_rows (rs ++ [k]) ce), (rs ++ [k]).
      split_and!; [|done|apply elem_of_app; right; by left].
      rewrite lookup_upd, decide_True by done.
      rewrite lookup_upd, decide_False by done.
      rewrite lookup_upd, decide_False by done. by rewrite Hc0.
Qed.

(** X13: The rows of a container are exactly the rows that name it as
    their container, and the leaves of a row exactly the events that
    name it as their row; the leaves hold no event twice. *)
Theorem cluster_references_agree (msd : Z) (evs : list Event) (s : State)
    (i : nat) (e : Event) :
  Forall fresh evs → cluster msd evs = Ok s → events_of s !! i = Some e →
  (∀ rs, rows e = Some rs →
         ∀ r, r ∈ rs ↔ ∃ re, events_of s !! r = Some re ∧
                              is_Some (leaves re) ∧ container re = Some i) ∧
  (∀ ls, leaves e = Some ls →
         NoDup ls ∧
         ∀ l, l ∈ ls ↔ ∃ le, events_of s !! l = Some le ∧ row le = Some i).
Proof.
  intros Hfresh H Hi.
  destruct (cluster_inv msd evs s
    (λ k s, ∀ r re c, events_of s !! r = Some re → is_Some (leaves re) →
                      container re = Some c →
                      ∃ ce rs, events_of s !! c = Some ce ∧ rows ce = Some rs ∧ r ∈ rs))
    as [Ht HQ]; try done.
  - simpl. intros r re c Hr [ls Hls]. rewrite Forall_lookup in Hfresh.
    destruct (Hfresh r re Hr) as (_ & ? & _). congruence.
  - clear i e Hi. intros k s1 s2 Ht1 Ht2 HQ Hstep r re' c Hr [ls Hls] Hc.
    destruct (decide (r = k)) as [->|Hne]; [by eapply step_row_listed|].
    pose proof (step_effect _ _ _ _ Hstep) as Heff.
    destruct (proj2 Heff r re' Hr) as (re & Hre & _ & Hgrow).
    destruct (Hgrow Hne) as (_ & Hgc & _ & _ & _ & Hgl).
    destruct (HQ r re c Hre) as (ce & rs & Hce & Hrs & Hin).
    { rewrite Hls in Hgl. unfold opt_grow in Hgl. by destruct (leaves re). }
    { congruence. }
    assert (c ≠ k) as Hck.
    { intros ->. destruct (inv_fresh _ _ Ht1 k ce Hce (le_n k)) as (? & _).
      congruence. }
    destruct (effect_forward _ _ _ _ _ Heff Hce) as (ce' & Hce' & _).
    destruct (proj2 Heff c ce' Hce') as (ce0 & Hce0 & _ & Hgrow').
    assert (ce0 = ce) as -> by congruence.
    destruct (Hgrow' Hck) as (_ & _ & _ & _ & Hgr & _).
    rewrite Hrs in Hgr. unfold opt_grow in Hgr.
    destruct (rows ce') as [rs'|] eqn:Hrs'; [|done]. destruct Hgr as [t ->].
    exists ce', (rs ++ t). split_and!; try done. apply elem_of_app. by left.
  - pose proof (inv_nodes _ _ Ht i e Hi) as Hnode. unfold node_ok in Hnode.
    split.
    + intros rs Hrs r. rewrite Hrs in Hnode. destruct Hnode as (_ & _ & _ & _ & Hrows).
      split.
      * intros Hr. rewrite Forall_forall in Hrows.
        destruct (Hrows r Hr) as (re & ls & Hre & _ & Hls & Hc & _).
        exists re. split_and!; [done|by eexists|done].
      * intros (re & Hre & Hls & Hc).
        destruct (HQ r re i Hre Hls Hc) as (ce & rs' & Hce & Hrs' & Hin).
        assert (ce = e) as -> by congruence. congruence.
    + intros ls Hls. rewrite Hls in Hnode.
      destruct (rows e); [destruct Hnode as (? & _); congruence|].
      destruct Hnode as (c & _ & _ & _ & _ & Hnd & Hleaves).
      split; [done|]. intros l. split.
      * intros Hl. rewrite Forall_forall in Hleaves.
        destruct (Hleaves l Hl) as (le & Hle & _ & _ & _ & Hrow & _). eauto.
      * intros (le & Hle & Hrow).
        pose proof (inv_nodes _ _ Ht l le Hle) as Hnl. unfold node_ok in Hnl.
        rewrite Hrow in Hnl.
        destruct (rows le); [destruct Hnl as (_ & _ & ? & _); congruence|].
        destruct (leaves le); [destruct Hnl as (? & _ & ? & _); congruence|].
        destruct Hnl as (c' & _ & _ & _ & (e0 & ls0 & He0 & Hls0 & Hin)).
        assert (e0 = e) as -> by congruence. congruence.
Qed.

Lemma cluster_references_agree_witness :
  ∃ s e,
    cluster 1 (sortByRender (map (new_Event identity_metrics) two_rows)) = Ok s ∧
    events_of s !! 0%nat = Some e ∧
    (∀ rs, rows e = Some rs →
           ∀ r, r ∈ rs ↔ ∃ re, events_of s !! r = Some re ∧
                                is_Some (leaves re) ∧ container re = Some 0%nat) ∧
    (∀ ls, leaves e = Some ls →
           NoDup ls ∧
           ∀ l, l ∈ ls ↔ ∃ le, events_of s !! l = Some le ∧ row le = Some 0%nat).
Proof.
  eexists _, _. split; [vm_compute; reflexivity|]. split; [vm_compute; reflexivity|].
  eapply (cluster_references_agree 1
            (sortByRender (map (new_Event identity_metrics) two_rows)) _ 0).
  - apply render_order_fresh.
  - vm_compute. reflexivity.
  - vm_compute. reflexivity.
Defined.
